(** * OpenGL2DTemplate.cpp: the game-state update loop, embedded and verified

    The program is a single C++ translation unit.  Its simulation core
    (geometry helpers, the Bezier evaluator, the placement test, the
    per-tick update and the phase machine) is embedded below as Rocq
    functions over an explicit [State] record that gathers the program's
    global variables.  Rendering (the draw* functions, Display) reads this
    state and writes only its own animation offset bgShift; of it the
    embedding has what drawPanels decides (the hearts, the palette icons,
    the mode hint) and its update of bgShift, not the GL calls.

    Numbers are modelled as the program has them:
    - [float] is IEEE-754 binary32, through the Standard Library's
      executable specification [SpecFloat] at precision 24 and maximal
      exponent 128, rounding to nearest even; every C++ float expression is
      evaluated operation by operation in binary32;
    - [int] is a 32-bit two's complement integer, a [Z] with the wrap-around
      written out by [wrap32];
    - a float-to-int cast truncates toward zero and has no defined result
      for NaN, infinities and values outside the int range: [f2i] returns
      [None] there, and the functions that cast return an [option]. *)

From Stdlib Require Import String.
From Stdlib Require Import ZArith List Bool Lia Ascii.
From Stdlib Require Import Floats.SpecFloat.
From Equations Require Import Equations.
Import ListNotations.

Local Open Scope Z_scope.

(** ** 32-bit integers *)

Definition INT_MIN : Z := - 2 ^ 31.
Definition INT_MAX : Z := 2 ^ 31 - 1.

Definition wrap32 (z : Z) : Z := (z + 2 ^ 31) mod 2 ^ 32 - 2 ^ 31.

Definition in_int_range (z : Z) : bool := (INT_MIN <=? z) && (z <=? INT_MAX).

(** ** binary32 floating point *)

Module F32.

Definition prec : Z := 24.
Definition emax : Z := 128.

Definition float : Type := spec_float.

Definition fadd : float -> float -> float := SFadd prec emax.
Definition fsub : float -> float -> float := SFsub prec emax.
Definition fmul : float -> float -> float := SFmul prec emax.
Definition fdiv : float -> float -> float := SFdiv prec emax.

(** The C++ comparisons; every one of them is false on a NaN operand. *)
Definition fltb (a b : float) : bool := SFltb a b.           (* a <  b *)
Definition fleb (a b : float) : bool := SFleb a b.           (* a <= b *)
Definition fgtb (a b : float) : bool := SFltb b a.           (* a >  b *)
Definition fgeb (a b : float) : bool := SFleb b a.           (* a >= b *)
Definition fneb (a b : float) : bool := negb (SFeqb a b).    (* a != b *)

(** [(float) n] for an int [n]: the nearest binary32 value. *)
Definition of_int (n : Z) : float := binary_normalize prec emax n 0 false.

(** [(int) x]: truncation toward zero, undefined outside the int range. *)
Definition f2i (x : float) : option Z :=
  match x with
  | S754_zero _ => Some 0
  | S754_finite s m e =>
      let mag := Z.shiftl (Zpos m) e in
      let v := if s then - mag else mag in
      if in_int_range v then Some v else None
  | S754_infinity _ | S754_nan => None
  end.

(** The largest integer not above a finite [x]: the floor of
    [(-1)^s * m * 2^e], a shift of the signed mantissa.  It states the
    countdown the way the specification words it. *)
Definition ffloor (x : float) : option Z :=
  match x with
  | S754_zero _ => Some 0
  | S754_finite s m e => Some (Z.shiftl (if s then Zneg m else Zpos m) e)
  | S754_infinity _ | S754_nan => None
  end.

(** A decimal literal [n/d] with [n] and [d] exactly representable: the
    correctly rounded quotient is the literal's binary32 value. *)
Definition lit (n d : Z) : float := fdiv (of_int n) (of_int d).

Definition zero : float := S754_zero false.
Definition one : float := of_int 1.

Definition is_nan (x : float) : bool :=
  match x with S754_nan => true | _ => false end.

Definition is_finite (x : float) : bool :=
  match x with S754_zero _ | S754_finite _ _ _ => true | _ => false end.

End F32.
Import F32.

Declare Scope f32_scope.
Delimit Scope f32_scope with f32.
Infix "+" := fadd : f32_scope.
Infix "-" := fsub : f32_scope.
Infix "*" := fmul : f32_scope.
Infix "/" := fdiv : f32_scope.
Infix "<?" := fltb : f32_scope.
Infix "<=?" := fleb : f32_scope.
Infix ">?" := fgtb : f32_scope.
Infix ">=?" := fgeb : f32_scope.

(** ** Window and layout, game configuration *)

Definition W : Z := 1000.
Definition H : Z := 700.
Definition TOP_H : Z := 90.
Definition BOT_H : Z := 120.

Definition GAME_Y0 : Z := BOT_H.
Definition GAME_Y1 : Z := H - TOP_H.

Definition MAX_LIVES : Z := 5.
Definition PLAYER_SPEED : float := of_int 240.
Definition SPEED_BOOST : float := of_int 420.
Definition POWERUP_DURATION : float := of_int 4.
Definition SHIELD_DURATION : float := of_int 4.
Definition ROUND_TIME_SEC : Z := 60.

Definition PLACE_MIN_DIST : float := of_int 26.

(** ** Utility *)

Definition clampf (v lo hi : float) : float :=
  if (v <? lo)%f32 then lo else if (v >? hi)%f32 then hi else v.

Definition dist2 (x1 y1 x2 y2 : float) : float :=
  let dx := (x1 - x2)%f32 in
  let dy := (y1 - y2)%f32 in
  (dx * dx + dy * dy)%f32.

Definition inGameArea (x y : float) : bool :=
  (x >=? of_int 0)%f32 && (x <=? of_int W)%f32 &&
  (y >=? of_int GAME_Y0)%f32 && (y <=? of_int GAME_Y1)%f32.

(** ** Object types, player and target *)

Inductive ObjType := OBJ_OBSTACLE | OBJ_COLLECT | OBJ_PU_SPEED | OBJ_PU_SHIELD.

Module Obj.
Record t := mk { x : float; y : float; r : float; type : ObjType }.
End Obj.

Module Player.
Record t := mk {
  x : float; y : float;
  r : float;
  angleDeg : float;
  lives : Z;
  score : Z;
  shielded : bool;
  shieldUntil : float;
  speedUntil : float
}.

(** The member initialisers of [struct Player]. *)
Definition init : t :=
  mk (of_int W * lit 1 2)%f32 (of_int GAME_Y0 + of_int 40)%f32
     (of_int 14) (of_int 90) MAX_LIVES 0 false zero zero.
End Player.

Module Target.
Record t := mk {
  r : float;
  p0 : Z * Z; p1 : Z * Z; p2 : Z * Z; p3 : Z * Z;
  t_ : float;
  dir : Z
}.

(** [target] is a global: the control points start zeroed. *)
Definition init : t := mk (of_int 16) (0, 0) (0, 0) (0, 0) (0, 0) zero 1.
End Target.

(** ** Bezier evaluator *)

Definition bezierAxis (t : float) (c0 c1 c2 c3 : Z) : float :=
  let u := (one - t)%f32 in
  let uu := (u * u)%f32 in
  let tt := (t * t)%f32 in
  let uuu := (uu * u)%f32 in
  let ttt := (tt * t)%f32 in
  (uuu * of_int c0 + of_int 3 * u * u * t * of_int c1
   + of_int 3 * u * tt * of_int c2 + ttt * of_int c3)%f32.

Definition bezierPoint (t : float) (p0 p1 p2 p3 : Z * Z) : option (Z * Z) :=
  let x := bezierAxis t (fst p0) (fst p1) (fst p2) (fst p3) in
  let y := bezierAxis t (snd p0) (snd p1) (snd p2) (snd p3) in
  match f2i x, f2i y with
  | Some ix, Some iy => Some (ix, iy)
  | _, _ => None
  end.

(** ** Game state *)

Inductive Phase := PHASE_EDIT | PHASE_PLAY | PHASE_WIN | PHASE_LOSE.

Inductive PlaceMode :=
  PLACE_NONE | PLACE_OBS | PLACE_COL | PLACE_PU_SPEED | PLACE_PU_SHIELD.

Definition Phase_eqb (a b : Phase) : bool :=
  match a, b with
  | PHASE_EDIT, PHASE_EDIT | PHASE_PLAY, PHASE_PLAY
  | PHASE_WIN, PHASE_WIN | PHASE_LOSE, PHASE_LOSE => true
  | _, _ => false
  end.

(** The program's global variables ([lastMs] is the static local of Timer). *)
Record State := mkState {
  obstacles : list Obj.t;
  collectibles : list Obj.t;
  powerups : list Obj.t;
  player : Player.t;
  target : Target.t;
  nextHitTime : float;
  phase : Phase;
  placeMode : PlaceMode;
  timeSec : float;
  roundStart : float;
  timeLeft : Z;
  keyW : bool; keyA : bool; keyS : bool; keyD : bool;
  keyUp : bool; keyLeft : bool; keyDown : bool; keyRight : bool;
  lastMs : Z
}.

(** The state the globals' initialisers give, before [main] runs. *)
Definition initial : State :=
  mkState [] [] [] Player.init Target.init zero PHASE_EDIT PLACE_NONE
          zero zero ROUND_TIME_SEC
          false false false false false false false false 0.

(** *** Field updates *)

Module PlayerSet.
Import Player.
Definition pos (nx ny : float) (p : t) : t :=
  mk nx ny (r p) (angleDeg p) (lives p) (score p) (shielded p)
     (shieldUntil p) (speedUntil p).
Definition angleDeg (a : float) (p : t) : t :=
  mk (x p) (y p) (r p) a (lives p) (score p) (shielded p)
     (shieldUntil p) (speedUntil p).
Definition lives (n : Z) (p : t) : t :=
  mk (x p) (y p) (r p) (Player.angleDeg p) n (score p) (shielded p)
     (shieldUntil p) (speedUntil p).
Definition score (n : Z) (p : t) : t :=
  mk (x p) (y p) (r p) (Player.angleDeg p) (Player.lives p) n (shielded p)
     (shieldUntil p) (speedUntil p).
Definition shielded (b : bool) (p : t) : t :=
  mk (x p) (y p) (r p) (Player.angleDeg p) (Player.lives p) (Player.score p)
     b (shieldUntil p) (speedUntil p).
Definition shieldUntil (u : float) (p : t) : t :=
  mk (x p) (y p) (r p) (Player.angleDeg p) (Player.lives p) (Player.score p)
     (Player.shielded p) u (speedUntil p).
Definition speedUntil (u : float) (p : t) : t :=
  mk (x p) (y p) (r p) (Player.angleDeg p) (Player.lives p) (Player.score p)
     (Player.shielded p) (Player.shieldUntil p) u.
End PlayerSet.

Definition set_obstacles (v : list Obj.t) (s : State) : State :=
  mkState v (collectibles s) (powerups s) (player s) (target s)
    (nextHitTime s) (phase s) (placeMode s) (timeSec s) (roundStart s)
    (timeLeft s) (keyW s) (keyA s) (keyS s) (keyD s)
    (keyUp s) (keyLeft s) (keyDown s) (keyRight s) (lastMs s).

Definition set_collectibles (v : list Obj.t) (s : State) : State :=
  mkState (obstacles s) v (powerups s) (player s) (target s)
    (nextHitTime s) (phase s) (placeMode s) (timeSec s) (roundStart s)
    (timeLeft s) (keyW s) (keyA s) (keyS s) (keyD s)
    (keyUp s) (keyLeft s) (keyDown s) (keyRight s) (lastMs s).

Definition set_powerups (v : list Obj.t) (s : State) : State :=
  mkState (obstacles s) (collectibles s) v (player s) (target s)
    (nextHitTime s) (phase s) (placeMode s) (timeSec s) (roundStart s)
    (timeLeft s) (keyW s) (keyA s) (keyS s) (keyD s)
    (keyUp s) (keyLeft s) (keyDown s) (keyRight s) (lastMs s).

Definition set_player (v : Player.t) (s : State) : State :=
  mkState (obstacles s) (collectibles s) (powerups s) v (target s)
    (nextHitTime s) (phase s) (placeMode s) (timeSec s) (roundStart s)
    (timeLeft s) (keyW s) (keyA s) (keyS s) (keyD s)
    (keyUp s) (keyLeft s) (keyDown s) (keyRight s) (lastMs s).

Definition set_target (v : Target.t) (s : State) : State :=
  mkState (obstacles s) (collectibles s) (powerups s) (player s) v
    (nextHitTime s) (phase s) (placeMode s) (timeSec s) (roundStart s)
    (timeLeft s) (keyW s) (keyA s) (keyS s) (keyD s)
    (keyUp s) (keyLeft s) (keyDown s) (keyRight s) (lastMs s).

Definition set_nextHitTime (v : float) (s : State) : State :=
  mkState (obstacles s) (collectibles s) (powerups s) (player s) (target s)
    v (phase s) (placeMode s) (timeSec s) (roundStart s)
    (timeLeft s) (keyW s) (keyA s) (keyS s) (keyD s)
    (keyUp s) (keyLeft s) (keyDown s) (keyRight s) (lastMs s).

Definition set_phase (v : Phase) (s : State) : State :=
  mkState (obstacles s) (collectibles s) (powerups s) (player s) (target s)
    (nextHitTime s) v (placeMode s) (timeSec s) (roundStart s)
    (timeLeft s) (keyW s) (keyA s) (keyS s) (keyD s)
    (keyUp s) (keyLeft s) (keyDown s) (keyRight s) (lastMs s).

Definition set_placeMode (v : PlaceMode) (s : State) : State :=
  mkState (obstacles s) (collectibles s) (powerups s) (player s) (target s)
    (nextHitTime s) (phase s) v (timeSec s) (roundStart s)
    (timeLeft s) (keyW s) (keyA s) (keyS s) (keyD s)
    (keyUp s) (keyLeft s) (keyDown s) (keyRight s) (lastMs s).

Definition set_timeSec (v : float) (s : State) : State :=
  mkState (obstacles s) (collectibles s) (powerups s) (player s) (target s)
    (nextHitTime s) (phase s) (placeMode s) v (roundStart s)
    (timeLeft s) (keyW s) (keyA s) (keyS s) (keyD s)
    (keyUp s) (keyLeft s) (keyDown s) (keyRight s) (lastMs s).

Definition set_roundStart (v : float) (s : State) : State :=
  mkState (obstacles s) (collectibles s) (powerups s) (player s) (target s)
    (nextHitTime s) (phase s) (placeMode s) (timeSec s) v
    (timeLeft s) (keyW s) (keyA s) (keyS s) (keyD s)
    (keyUp s) (keyLeft s) (keyDown s) (keyRight s) (lastMs s).

Definition set_timeLeft (v : Z) (s : State) : State :=
  mkState (obstacles s) (collectibles s) (powerups s) (player s) (target s)
    (nextHitTime s) (phase s) (placeMode s) (timeSec s) (roundStart s)
    v (keyW s) (keyA s) (keyS s) (keyD s)
    (keyUp s) (keyLeft s) (keyDown s) (keyRight s) (lastMs s).

Definition set_wasd (w a s' d : bool) (s : State) : State :=
  mkState (obstacles s) (collectibles s) (powerups s) (player s) (target s)
    (nextHitTime s) (phase s) (placeMode s) (timeSec s) (roundStart s)
    (timeLeft s) w a s' d
    (keyUp s) (keyLeft s) (keyDown s) (keyRight s) (lastMs s).

Definition set_arrows (u l d r : bool) (s : State) : State :=
  mkState (obstacles s) (collectibles s) (powerups s) (player s) (target s)
    (nextHitTime s) (phase s) (placeMode s) (timeSec s) (roundStart s)
    (timeLeft s) (keyW s) (keyA s) (keyS s) (keyD s)
    u l d r (lastMs s).

Definition set_lastMs (v : Z) (s : State) : State :=
  mkState (obstacles s) (collectibles s) (powerups s) (player s) (target s)
    (nextHitTime s) (phase s) (placeMode s) (timeSec s) (roundStart s)
    (timeLeft s) (keyW s) (keyA s) (keyS s) (keyD s)
    (keyUp s) (keyLeft s) (keyDown s) (keyRight s) v.

(** ** Placement and overlap *)

(** One [for] loop of overlapsAny: is some object nearer than [r2]? *)
Definition nearAny (x y r2 : float) (objs : list Obj.t) : bool :=
  existsb (fun o => (dist2 x y (Obj.x o) (Obj.y o) <? r2)%f32) objs.

Definition overlapsAny (x y r : float) (s : State) : option bool :=
  let r2 := ((r + PLACE_MIN_DIST) * (r + PLACE_MIN_DIST))%f32 in
  if nearAny x y r2 (obstacles s) then Some true else
  if nearAny x y r2 (collectibles s) then Some true else
  if nearAny x y r2 (powerups s) then Some true else
  if (dist2 x y (Player.x (player s)) (Player.y (player s)) <? r2)%f32
  then Some true else
  let tg := target s in
  match bezierPoint (Target.t_ tg) (Target.p0 tg) (Target.p1 tg)
                    (Target.p2 tg) (Target.p3 tg) with
  | None => None
  | Some curT =>
      if (dist2 x y (of_int (fst curT)) (of_int (snd curT)) <? r2)%f32
      then Some true else Some false
  end.

(** ** Collision and movement *)

Definition currentSpeed (s : State) : float :=
  let now := timeSec s in
  if (now <? Player.speedUntil (player s))%f32 then SPEED_BOOST
  else PLAYER_SPEED.

Definition intersectCircleCircle (x1 y1 r1 x2 y2 r2 : float) : bool :=
  let rr := ((r1 + r2) * (r1 + r2))%f32 in
  (dist2 x1 y1 x2 y2 <=? rr)%f32.

(** The body of the obstacle loop of tryMove: the player's circle at
    [(nx, ny)] against the obstacle taken as a square of half-width [o.r]. *)
Definition hitsSquare (nx ny pr : float) (o : Obj.t) : bool :=
  let half := Obj.r o in
  let cx := clampf nx (Obj.x o - half)%f32 (Obj.x o + half)%f32 in
  let cy := clampf ny (Obj.y o - half)%f32 (Obj.y o + half)%f32 in
  (dist2 nx ny cx cy <? pr * pr)%f32.

(** The obstacle loop, leaving at the first hit. *)
Fixpoint blockedBy (nx ny pr : float) (os : list Obj.t) : bool :=
  match os with
  | [] => false
  | o :: rest => if hitsSquare nx ny pr o then true else blockedBy nx ny pr rest
  end.

(** The candidate position of tryMove, clamped to the game area. *)
Definition candidate (dx dy : float) (s : State) : float * float :=
  let p := player s in
  let nx := (Player.x p + dx)%f32 in
  let ny := (Player.y p + dy)%f32 in
  (clampf nx (Player.r p) (of_int W - Player.r p)%f32,
   clampf ny (of_int GAME_Y0 + Player.r p)%f32 (of_int GAME_Y1 - Player.r p)%f32).

(** The damage branch of tryMove. *)
Definition takeHit (s : State) : State :=
  let s1 := set_player
              (PlayerSet.lives (Z.max 0 (wrap32 (Player.lives (player s) - 1)))
                               (player s)) s in
  let s2 := set_nextHitTime (timeSec s1 + lit 1 2)%f32 s1 in
  if Player.lives (player s2) =? 0 then set_phase PHASE_LOSE s2 else s2.

Definition tryMove (dx dy dt : float) (s : State) : State :=
  let '(nx, ny) := candidate dx dy s in
  let blocked := blockedBy nx ny (Player.r (player s)) (obstacles s) in
  if blocked then
    if negb (Player.shielded (player s)) && (timeSec s >=? nextHitTime s)%f32
    then takeHit s
    else s
  else set_player (PlayerSet.pos nx ny (player s)) s.

(** ** Game loop *)

(** [v.erase(v.begin() + i)] *)
Definition erase {A : Type} (i : nat) (v : list A) : list A :=
  firstn i v ++ skipn (S i) v.

Definition inspect {A : Type} (a : A) : {b : A | a = b} := exist _ a eq_refl.

Definition touches (p : Player.t) (o : Obj.t) : bool :=
  intersectCircleCircle (Player.x p) (Player.y p) (Player.r p)
                        (Obj.x o) (Obj.y o) (Obj.r o).

(** The collectibles loop: [i] only advances past an element that stays. *)
Equations? collectLoop (i : nat) (s : State) : State
  by wf (length (collectibles s) - i)%nat lt :=
  collectLoop i s with inspect (nth_error (collectibles s) i) := {
    | exist _ None _ => s
    | exist _ (Some c) E with touches (player s) c := {
        | true =>
            collectLoop i
              (set_collectibles (erase i (collectibles s))
                 (set_player
                    (PlayerSet.score (wrap32 (Player.score (player s) + 5))
                                     (player s)) s))
        | false => collectLoop (S i) s } }.
Proof.
  - assert (i < length (collectibles s))%nat by (apply nth_error_Some; congruence).
    cbn [collectibles set_collectibles]. unfold erase.
    rewrite length_app, length_firstn, length_skipn. lia.
  - assert (i < length (collectibles s))%nat by (apply nth_error_Some; congruence).
    lia.
Qed.

(** What picking up the power-up [p] does to the player. *)
Definition applyPowerup (now : float) (p : Obj.t) (pl : Player.t) : Player.t :=
  match Obj.type p with
  | OBJ_PU_SPEED => PlayerSet.speedUntil (now + POWERUP_DURATION)%f32 pl
  | _ => PlayerSet.shieldUntil (now + SHIELD_DURATION)%f32
           (PlayerSet.shielded true pl)
  end.

(** The power-ups loop. *)
Equations? powerupLoop (i : nat) (s : State) : State
  by wf (length (powerups s) - i)%nat lt :=
  powerupLoop i s with inspect (nth_error (powerups s) i) := {
    | exist _ None _ => s
    | exist _ (Some p) E with touches (player s) p := {
        | true =>
            powerupLoop i
              (set_powerups (erase i (powerups s))
                 (set_player (applyPowerup (timeSec s) p (player s)) s))
        | false => powerupLoop (S i) s } }.
Proof.
  - assert (i < length (powerups s))%nat by (apply nth_error_Some; congruence).
    cbn [powerups set_powerups]. unfold erase.
    rewrite length_app, length_firstn, length_skipn. lia.
  - assert (i < length (powerups s))%nat by (apply nth_error_Some; congruence).
    lia.
Qed.

(** GLUT's constants, with the values of the GLUT header. *)
Definition GLUT_LEFT_BUTTON : Z := 0.
Definition GLUT_DOWN : Z := 0.
Definition GLUT_KEY_LEFT : Z := 100.
Definition GLUT_KEY_UP : Z := 101.
Definition GLUT_KEY_RIGHT : Z := 102.
Definition GLUT_KEY_DOWN : Z := 103.

Definition targetPos (s : State) : option (Z * Z) :=
  let tg := target s in
  bezierPoint (Target.t_ tg) (Target.p0 tg) (Target.p1 tg)
              (Target.p2 tg) (Target.p3 tg).

(** The countdown of updateGame: [ROUND_TIME_SEC - (int)elapsed], not below 0. *)
Definition countdown (s : State) : option Z :=
  let elapsed := (timeSec s - roundStart s)%f32 in
  match f2i elapsed with
  | None => None
  | Some e =>
      let remain := wrap32 (ROUND_TIME_SEC - e) in
      Some (if remain >? 0 then remain else 0)
  end.

(** "expire powerups" *)
Definition expireShield (s : State) : State :=
  if (timeSec s >? Player.shieldUntil (player s))%f32
  then set_player (PlayerSet.shielded false (player s)) s else s.

(** "input to velocity" *)
Definition velocity (s : State) : float * float :=
  let spd := currentSpeed s in
  let vy := zero in
  let vy := if keyW s || keyUp s then (vy + spd)%f32 else vy in
  let vy := if keyS s || keyDown s then (vy - spd)%f32 else vy in
  let vx := zero in
  let vx := if keyA s || keyLeft s then (vx - spd)%f32 else vx in
  let vx := if keyD s || keyRight s then (vx + spd)%f32 else vx in
  (vx, vy).

(** "target": the win check at the end of updateGame. *)
Definition winCheck (s : State) : option State :=
  match targetPos s with
  | None => None
  | Some curT =>
      let p := player s in
      if intersectCircleCircle (Player.x p) (Player.y p) (Player.r p)
           (of_int (fst curT)) (of_int (snd curT)) (Target.r (target s))
      then Some (set_phase PHASE_WIN s) else Some s
  end.

Section Game.

(** [atan2f] of the C library, which only feeds the facing angle. *)
Variable atan2f : float -> float -> float.

(** "rotate to face movement" *)
Definition face (vx vy : float) (s : State) : State :=
  if fneb vx zero || fneb vy zero
  then set_player
         (PlayerSet.angleDeg (atan2f vy vx * lit 5729578 100000)%f32 (player s)) s
  else s.

(** updateGame from "expire powerups" to the call of tryMove. *)
Definition moveStep (dt : float) (s : State) : State :=
  let s := expireShield s in
  let '(vx, vy) := velocity s in
  let s := face vx vy s in
  tryMove (vx * dt)%f32 (vy * dt)%f32 dt s.

(** The state tryMove is called in: what precedes it in updateGame leaves
    alone everything tryMove looks at, except that the shield may have run
    out. *)
Definition beforeMove (dt : float) (s : State) : State :=
  face (fst (velocity s)) (snd (velocity s)) (expireShield s).

(** Everything updateGame does after the countdown did not run out. *)
Definition playStep (dt : float) (s : State) : option State :=
  let s := moveStep dt s in
  let s := collectLoop 0 s in
  let s := powerupLoop 0 s in
  winCheck s.

Definition updateGame (dt : float) (s : State) : option State :=
  if negb (Phase_eqb (phase s) PHASE_PLAY) then Some s else
  match countdown s with
  | None => None
  | Some remaining =>
      let s := set_timeLeft remaining s in
      if timeLeft s <=? 0 then Some (set_phase PHASE_LOSE s)
      else playStep dt s
  end.

Definition updateTarget (dt : float) (s : State) : State :=
  let speedT := lit 35 100 in
  let tg := target s in
  let t1 := (Target.t_ tg + of_int (Target.dir tg) * speedT * dt)%f32 in
  let '(t2, d2) := if (t1 >? of_int 1)%f32 then (of_int 1, -1)
                   else (t1, Target.dir tg) in
  let '(t3, d3) := if (t2 <? of_int 0)%f32 then (of_int 0, 1)
                   else (t2, d2) in
  set_target (Target.mk (Target.r tg) (Target.p0 tg) (Target.p1 tg)
                        (Target.p2 tg) (Target.p3 tg) t3 d3) s.

(** ** Input *)

Definition startRound (s : State) : State :=
  let p := player s in
  let p := Player.mk (of_int W * lit 1 2)%f32 (of_int GAME_Y0 + of_int 40)%f32
             (Player.r p) (of_int 90) MAX_LIVES 0 false
             (of_int 0) (of_int 0) in
  let yTop := wrap32 (wrap32 (H - TOP_H) - 60) in
  let tg := Target.mk (Target.r (target s))
              (100, yTop) (300, wrap32 (yTop + 80))
              (700, wrap32 (yTop - 80)) (900, yTop)
              zero 1 in
  let s := set_target tg (set_player p s) in
  let s := set_roundStart (timeSec s) s in
  let s := set_timeLeft ROUND_TIME_SEC s in
  set_phase PHASE_PLAY s.

Definition key_is (key c : ascii) : bool := Ascii.eqb key c.

Definition Keyboard (key : ascii) (x y : Z) (s : State) : State :=
  if key_is key "r"%char || key_is key "R"%char then startRound s else
  set_wasd (if key_is key "w"%char then true else keyW s)
           (if key_is key "a"%char then true else keyA s)
           (if key_is key "s"%char then true else keyS s)
           (if key_is key "d"%char then true else keyD s) s.

Definition KeyboardUp (key : ascii) (x y : Z) (s : State) : State :=
  set_wasd (if key_is key "w"%char then false else keyW s)
           (if key_is key "a"%char then false else keyA s)
           (if key_is key "s"%char then false else keyS s)
           (if key_is key "d"%char then false else keyD s) s.

Definition Special (key x y : Z) (s : State) : State :=
  set_arrows (if key =? GLUT_KEY_UP then true else keyUp s)
             (if key =? GLUT_KEY_LEFT then true else keyLeft s)
             (if key =? GLUT_KEY_DOWN then true else keyDown s)
             (if key =? GLUT_KEY_RIGHT then true else keyRight s) s.

Definition SpecialUp (key x y : Z) (s : State) : State :=
  set_arrows (if key =? GLUT_KEY_UP then false else keyUp s)
             (if key =? GLUT_KEY_LEFT then false else keyLeft s)
             (if key =? GLUT_KEY_DOWN then false else keyDown s)
             (if key =? GLUT_KEY_RIGHT then false else keyRight s) s.

(** The palette of the bottom panel: which mode a click at [(x, y)] picks. *)
Definition paletteMode (x y : Z) : PlaceMode :=
  let fx := of_int x in
  let fy := of_int y in
  let cy := (of_int BOT_H * lit 1 2)%f32 in
  let rr := of_int (wrap32 (35 * 35)) in
  if (dist2 fx fy (of_int 80) cy <? rr)%f32 then PLACE_OBS
  else if (dist2 fx fy (of_int 240) cy <? rr)%f32 then PLACE_COL
  else if (dist2 fx fy (of_int 400) cy <? rr)%f32 then PLACE_PU_SPEED
  else if (dist2 fx fy (of_int 560) cy <? rr)%f32 then PLACE_PU_SHIELD
  else PLACE_NONE.

(** The object a click in mode [m] would place: its type and radius. *)
Definition placedObj (m : PlaceMode) (x y : Z) : option Obj.t :=
  match m with
  | PLACE_NONE => None
  | PLACE_OBS => Some (Obj.mk (of_int x) (of_int y) (of_int 18) OBJ_OBSTACLE)
  | PLACE_COL => Some (Obj.mk (of_int x) (of_int y) (of_int 14) OBJ_COLLECT)
  | PLACE_PU_SPEED => Some (Obj.mk (of_int x) (of_int y) (of_int 14) OBJ_PU_SPEED)
  | PLACE_PU_SHIELD => Some (Obj.mk (of_int x) (of_int y) (of_int 14) OBJ_PU_SHIELD)
  end.

(** [push_back] on the collection of the object's kind. *)
Definition push (o : Obj.t) (s : State) : State :=
  match Obj.type o with
  | OBJ_OBSTACLE => set_obstacles (obstacles s ++ [o]) s
  | OBJ_COLLECT => set_collectibles (collectibles s ++ [o]) s
  | OBJ_PU_SPEED | OBJ_PU_SHIELD => set_powerups (powerups s ++ [o]) s
  end.

Definition Mouse (button state x y : Z) (s : State) : option State :=
  if negb (state =? GLUT_DOWN) || negb (button =? GLUT_LEFT_BUTTON)
  then Some s else
  let y := wrap32 (H - y) in
  if y <=? BOT_H then Some (set_placeMode (paletteMode x y) s) else
  if Phase_eqb (phase s) PHASE_EDIT && inGameArea (of_int x) (of_int y) then
    match placedObj (placeMode s) x y with
    | None => Some s
    | Some o =>
        match overlapsAny (Obj.x o) (Obj.y o) (Obj.r o) s with
        | None => None
        | Some true => Some s
        | Some false => Some (push o s)
        end
    end
  else Some s.

(** ** Timer *)

(** The [dt] Timer computes from the clock reading [nowMs]. *)
Definition timerDt (nowMs : Z) (s : State) : float :=
  let last := if lastMs s =? 0 then nowMs else lastMs s in
  (of_int (wrap32 (nowMs - last)) / of_int 1000)%f32.

(** Timer up to the call of updateGame: the clock and the target advance. *)
Definition advance (nowMs : Z) (s : State) : State :=
  let dt := timerDt nowMs s in
  let s := set_lastMs nowMs s in
  let s := set_timeSec (timeSec s + dt)%f32 s in
  updateTarget dt s.

Definition Timer (nowMs : Z) (s : State) : option State :=
  let dt := timerDt nowMs s in
  let s := advance nowMs s in
  if Phase_eqb (phase s) PHASE_PLAY then updateGame dt s else Some s.

(** initScene, run by [main] before the event loop. *)
Definition initScene (s : State) : State :=
  set_timeLeft ROUND_TIME_SEC (set_phase PHASE_EDIT (set_placeMode PLACE_NONE s)).

(** The callbacks GLUT may run, and the states the program can be in. *)
Inductive Event :=
| EvTimer (nowMs : Z)
| EvKeyboard (key : ascii) (x y : Z)
| EvKeyboardUp (key : ascii) (x y : Z)
| EvSpecial (key x y : Z)
| EvSpecialUp (key x y : Z)
| EvMouse (button state x y : Z).

Definition handle (e : Event) (s : State) : option State :=
  match e with
  | EvTimer nowMs => Timer nowMs s
  | EvKeyboard k x y => Some (Keyboard k x y s)
  | EvKeyboardUp k x y => Some (KeyboardUp k x y s)
  | EvSpecial k x y => Some (Special k x y s)
  | EvSpecialUp k x y => Some (SpecialUp k x y s)
  | EvMouse b st x y => Mouse b st x y s
  end.

Inductive reachable : State -> Prop :=
| reach_init : reachable (initScene initial)
| reach_step e s s' : reachable s -> handle e s = Some s' -> reachable s'.

(** Running a list of events, for the scenarios below. *)
Fixpoint run (evs : list Event) (s : State) : option State :=
  match evs with
  | [] => Some s
  | e :: rest =>
      match handle e s with
      | None => None
      | Some s' => run rest s'
      end
  end.

End Game.

(** ** Vocabulary of the statements *)

(** The candidate position updateGame hands to the obstacle test in a tick
    of length [dt]: position plus velocity times [dt], clamped to the arena. *)
Definition tickCandidate (dt : float) (s : State) : float * float :=
  let '(vx, vy) := velocity s in
  candidate (vx * dt)%f32 (vy * dt)%f32 s.

(** The test tryMove runs in a tick of length [dt]. *)
Definition tickBlocked (dt : float) (s : State) : bool :=
  blockedBy (fst (tickCandidate dt s)) (snd (tickCandidate dt s))
            (Player.r (player s)) (obstacles s).

(** What holds of every state the program reaches: the two radii keep their
    initial values, and a round in play has between 1 and MAX_LIVES lives. *)
Definition invariant (s : State) : Prop :=
  Player.r (player s) = of_int 14 /\
  Target.r (target s) = of_int 16 /\
  (phase s = PHASE_PLAY -> 1 <= Player.lives (player s) <= MAX_LIVES).

(** One pick-up's effect on the score, as the int addition does it. *)
Definition bump (z : Z) : Z := wrap32 (z + 5).

(** The point [(nx, ny)] lies in the square footprint of the obstacle [o]. *)
Definition insideSquare (nx ny : float) (o : Obj.t) : bool :=
  let half := Obj.r o in
  (Obj.x o - half <=? nx)%f32 && (nx <=? Obj.x o + half)%f32 &&
  (Obj.y o - half <=? ny)%f32 && (ny <=? Obj.y o + half)%f32.

(** A play-phase call of updateGame that gets past the countdown and whose
    target position can be cast to ints. *)
Definition liveTick (s : State) : Prop :=
  phase s = PHASE_PLAY /\
  (exists remaining, countdown s = Some remaining /\ 0 < remaining) /\
  (exists cur, targetPos s = Some cur).

(** Such a call in a state that satisfies the invariant, as every state
    the program reaches does. *)
Definition playTick (s : State) : Prop := invariant s /\ liveTick s.

(** The candidate position of the tick lands inside an obstacle's square. *)
Definition landsInObstacle (dt : float) (s : State) : Prop :=
  exists o, In o (obstacles s) /\
            insideSquare (fst (tickCandidate dt s)) (snd (tickCandidate dt s)) o
            = true.

(** The squared minimum distance overlapsAny keeps around a candidate of
    radius [r]. *)
Definition minDist2 (r : float) : float :=
  ((r + PLACE_MIN_DIST) * (r + PLACE_MIN_DIST))%f32.

(** The candidate [o] lies within (its radius + the separation) of the
    point [e], by the test of overlapsAny. *)
Definition near (o : Obj.t) (e : float * float) : bool :=
  (dist2 (Obj.x o) (Obj.y o) (fst e) (snd e) <? minDist2 (Obj.r o))%f32.

(** The points a placement must keep away from: every placed object and
    the player, and with them the target at its derived position [cur]. *)
Definition bodies (s : State) : list (float * float) :=
  map (fun e => (Obj.x e, Obj.y e)) (obstacles s ++ collectibles s ++ powerups s)
  ++ [(Player.x (player s), Player.y (player s))].

Definition entities (s : State) (cur : Z * Z) : list (float * float) :=
  bodies s ++ [(of_int (fst cur), of_int (snd cur))].

(** A left click at window position [(x, y)] that attempts to place [o]:
    above the palette, in the edit phase, inside the game area, with a
    placement kind selected. *)
Definition attempt (x y : Z) (s : State) (o : Obj.t) : Prop :=
  let gy := wrap32 (H - y) in
  BOT_H < gy /\ phase s = PHASE_EDIT /\
  inGameArea (of_int x) (of_int gy) = true /\
  placedObj (placeMode s) x gy = Some o.

(** *** Floats in the statements *)

(** The canonical exponent of binary32 for a value of bit length plus
    exponent [e]: [fexp] of SpecFloat at precision 24, emin -149. *)
Definition fexp32 (e : Z) : Z := Z.max (e - 24) (-149).

(** The values of an int, and those every one of which a float holds
    exactly. *)
Definition int32 (z : Z) : Prop := INT_MIN <= z <= INT_MAX.
Definition exact24 (z : Z) : Prop := - 2 ^ 24 <= z <= 2 ^ 24.

Definition intPoint (p : Z * Z) : Prop := int32 (fst p) /\ int32 (snd p).
Definition exactPoint (p : Z * Z) : Prop := exact24 (fst p) /\ exact24 (snd p).

(** A [spec_float] that is a binary32 value: canonical mantissa, exponent
    in range.  Every float a machine holds is one. *)
Definition valid32 (x : float) : Prop := valid_binary prec emax x = true.

(** Not a NaN, and carrying the sign [s] unless a zero. *)
Definition signed (s : bool) (x : float) : Prop :=
  match x with
  | S754_zero _ => True
  | S754_infinity s' => s' = s
  | S754_nan => False
  | S754_finite s' m e => s' = s /\ valid32 x
  end.

(** [t] is a binary32 value in [0, 1]. *)
Definition unitT (t : float) : Prop :=
  valid32 t /\ (zero <=? t)%f32 = true /\ (t <=? one)%f32 = true.

(** The parameter updateTarget computes before it clamps. *)
Definition rawT (dt : float) (s : State) : float :=
  (Target.t_ (target s) + of_int (Target.dir (target s)) * lit 35 100 * dt)%f32.

(** A run of target-updater ticks. *)
Definition ticks (dts : list float) (s : State) : State :=
  fold_left (fun s dt => updateTarget dt s) dts s.

(** The target's parameter is in [0, 1] and its direction is +1 or -1. *)
Definition goodTarget (s : State) : Prop :=
  unitT (Target.t_ (target s)) /\
  (Target.dir (target s) = 1 \/ Target.dir (target s) = -1).

(** ** Scenarios *)

(** A stand-in for [atan2f] in the scenarios; the facing angle plays no part
    in them. *)
Definition libm0 : float -> float -> float := fun _ _ => zero.

Definition unwrap (o : option State) : State :=
  match o with Some s => s | None => initial end.

(** One obstacle placed 44 px above the player's start, the round started,
    the up key held, and a first timer tick taken. *)
Definition hitScene : State :=
  unwrap (run libm0 [EvMouse 0 0 80 640; EvMouse 0 0 500 496;
                     EvKeyboard "r"%char 0 0; EvKeyboard "w"%char 0 0;
                     EvTimer 1000] (initScene initial)).

(** [hitScene] after a slow frame of 110 ms, in which the player runs into
    the obstacle and loses a life. *)
Definition hitScene2 : State := unwrap (Timer libm0 1110 hitScene).

(** Three collectibles placed, two of them side by side, the round started
    and the player walked to the point just short of the pair. *)
Definition collectScene : State :=
  unwrap (run libm0 [EvMouse 0 0 240 640; EvMouse 0 0 500 500;
                     EvMouse 0 0 540 500; EvMouse 0 0 800 400;
                     EvKeyboard "r"%char 0 0; EvKeyboard "w"%char 0 0;
                     EvKeyboard "d"%char 0 0; EvTimer 1000; EvTimer 1083;
                     EvKeyboardUp "d"%char 0 0] (initScene initial)).

(** An obstacle placed under the target's path; the player walks up to it,
    runs into it four times half a second apart, and stands there with one
    life left, the up key held, as the target comes back over it. *)
Definition winScene : State :=
  unwrap (run libm0
    [EvMouse 0 0 80 640; EvMouse 0 0 735 142; EvKeyboard "r"%char 0 0;
     EvTimer 1000;
     EvKeyboard "w"%char 0 0; EvKeyboard "d"%char 0 0; EvTimer 1979;
     EvKeyboardUp "d"%char 0 0; EvTimer 2475;
     EvTimer 2585;
     EvKeyboardUp "w"%char 0 0; EvTimer 2985;
     EvKeyboard "w"%char 0 0; EvTimer 3095;
     EvKeyboardUp "w"%char 0 0; EvTimer 3500;
     EvKeyboard "w"%char 0 0; EvTimer 3610;
     EvKeyboardUp "w"%char 0 0; EvTimer 4010;
     EvKeyboard "w"%char 0 0; EvTimer 4120;
     EvKeyboardUp "w"%char 0 0; EvTimer 4557;
     EvKeyboard "w"%char 0 0] (initScene initial)).

(** The edit phase with the obstacle kind selected and one obstacle placed
    at (500, 204). *)
Definition editScene : State :=
  unwrap (run libm0 [EvMouse 0 0 80 640; EvMouse 0 0 500 496]
              (initScene initial)).

(** ** Vocabulary of the further properties *)

(** [x] lies between [lo] and [hi], by the comparisons of the program. *)
Definition between (lo hi x : float) : Prop :=
  (lo <=? x)%f32 = true /\ (x <=? hi)%f32 = true.

(** A non-negative binary32 value below [2^k]. *)
Definition below (k : Z) (x : float) : Prop :=
  match x with
  | S754_zero _ => True
  | S754_finite false m e => valid32 x /\ Zpos (digits2_pos m) + e <= k
  | _ => False
  end.

(** A coordinate inside a window of 1024 pixels, and a control point with
    two of them. *)
Definition pixel (c : Z) : Prop := 0 <= c < 1024.

Definition inWindow (p : Z * Z) : Prop := pixel (fst p) /\ pixel (snd p).

(** The integers binary32 holds exactly, with room for the canonical 24-bit
    mantissa. *)
Definition small (v : Z) : Prop := - 2 ^ 24 < v < 2 ^ 24.

(** Coordinates in and around a window of up to 1024 pixels, and the
    squared distance of two points that have such coordinates. *)
Definition coord (v : Z) : Prop := -1024 <= v <= 1024.

Definition dist2Z (x1 y1 x2 y2 : Z) : Z :=
  (x1 - x2) * (x1 - x2) + (y1 - y2) * (y1 - y2).

(** clampf on integers. *)
Definition clampZ (v lo hi : Z) : Z :=
  if v <? lo then lo else if hi <? v then hi else v.

(** The player's centre keeps its radius away from the walls of the game
    area: the two intervals tryMove clamps the candidate to. *)
Definition inArena (p : Player.t) : Prop :=
  between (Player.r p) (of_int W - Player.r p)%f32 (Player.x p) /\
  between (of_int GAME_Y0 + Player.r p)%f32 (of_int GAME_Y1 - Player.r p)%f32
          (Player.y p).

(** The control points of the target lie inside the window. *)
Definition pointsOK (tg : Target.t) : Prop :=
  (pixel (fst (Target.p0 tg)) /\ pixel (snd (Target.p0 tg))) /\
  (pixel (fst (Target.p1 tg)) /\ pixel (snd (Target.p1 tg))) /\
  (pixel (fst (Target.p2 tg)) /\ pixel (snd (Target.p2 tg))) /\
  (pixel (fst (Target.p3 tg)) /\ pixel (snd (Target.p3 tg))).

(** An object whose centre is a pixel of the game area. *)
Definition onGrid (o : Obj.t) : Prop :=
  exists x y : Z, Obj.x o = of_int x /\ Obj.y o = of_int y /\
                  0 <= x <= W /\ GAME_Y0 <= y <= GAME_Y1.

(** What Mouse places in each of the three collections. *)
Definition isObstacle (o : Obj.t) : Prop :=
  Obj.type o = OBJ_OBSTACLE /\ Obj.r o = of_int 18 /\ onGrid o.

Definition isCollectible (o : Obj.t) : Prop :=
  Obj.type o = OBJ_COLLECT /\ Obj.r o = of_int 14 /\ onGrid o.

Definition isPowerup (o : Obj.t) : Prop :=
  (Obj.type o = OBJ_PU_SPEED \/ Obj.type o = OBJ_PU_SHIELD) /\
  Obj.r o = of_int 14 /\ onGrid o.

Definition wellPlaced (s : State) : Prop :=
  Forall isObstacle (obstacles s) /\ Forall isCollectible (collectibles s) /\
  Forall isPowerup (powerups s).

(** What every state the program reaches satisfies, beyond [invariant]:
    the target's parameter and control points, the player's position, the
    lives and the countdown are in range, and the collections hold what
    Mouse placed. *)
Definition sound (s : State) : Prop :=
  goodTarget s /\ pointsOK (target s) /\ inArena (player s) /\
  0 <= Player.lives (player s) <= MAX_LIVES /\
  0 <= timeLeft s /\ (phase s <> PHASE_LOSE -> 0 < timeLeft s) /\
  wellPlaced s.

(** Two objects whose centres are at least 40 pixels apart, by dist2 taken
    either way round. *)
Definition apart (a b : Obj.t) : Prop :=
  (dist2 (Obj.x a) (Obj.y a) (Obj.x b) (Obj.y b) <? of_int 1600)%f32 = false /\
  (dist2 (Obj.x b) (Obj.y b) (Obj.x a) (Obj.y a) <? of_int 1600)%f32 = false.

(** The three collections, in the order overlapsAny goes through them. *)
Definition placedObjects (s : State) : list Obj.t :=
  obstacles s ++ collectibles s ++ powerups s.

(** The player's circle at its position meets no obstacle, by the test of
    tryMove. *)
Definition clearOf (p : Player.t) (os : list Obj.t) : Prop :=
  blockedBy (Player.x p) (Player.y p) (Player.r p) os = false.

(** What every state the program reaches satisfies about the placed
    objects: they sit on the pixel grid, apart from one another, clear of
    the player and of the player's start; and in the edit phase the player
    is at the start. *)
Definition tidy (s : State) : Prop :=
  Forall onGrid (placedObjects s) /\
  ForallOrdPairs apart (placedObjects s) /\
  clearOf (player s) (obstacles s) /\
  clearOf Player.init (obstacles s) /\
  (phase s = PHASE_EDIT ->
   Player.x (player s) = Player.x Player.init /\
   Player.y (player s) = Player.y Player.init).

(** The branch of the power-ups loop: a speed power-up, or else a shield. *)
Definition speedKind (o : Obj.t) : bool :=
  match Obj.type o with OBJ_PU_SPEED => true | _ => false end.

(** One component of the velocity, from the keys of its two directions. *)
Definition axisV (spd : float) (pos neg : bool) : float :=
  if pos then (if neg then zero else spd)
  else (if neg then (zero - spd)%f32 else zero).

(** No movement key is held. *)
Definition noKeys (s : State) : Prop :=
  keyW s = false /\ keyA s = false /\ keyS s = false /\ keyD s = false /\
  keyUp s = false /\ keyLeft s = false /\ keyDown s = false /\
  keyRight s = false.

(** The number of pixels of the game area, and the pixel an object is
    centred on. *)
Definition gridSize : Z := (W + 1) * (GAME_Y1 - GAME_Y0 + 1).

Definition castOr0 (x : float) : Z :=
  match f2i x with Some v => v | None => 0 end.

Definition pixelOf (o : Obj.t) : Z * Z := (castOr0 (Obj.x o), castOr0 (Obj.y o)).

Definition gridPixels : list (Z * Z) :=
  list_prod (map Z.of_nat (seq 0 1001)) (map Z.of_nat (seq 120 491)).

(** What every state the program reaches satisfies about the score: five
    points for each collectible picked up in the round, and no more
    collectibles, picked up or still there, than the game area has
    pixels. *)
Definition scored (s : State) : Prop :=
  exists k : Z,
    0 <= k /\ Player.score (player s) = 5 * k /\
    k + Z.of_nat (length (collectibles s)) <= gridSize /\
    (phase s = PHASE_EDIT -> k = 0).

(** ** The HUD and the palette of drawPanels

    What drawPanels decides from the state: which hearts are red, where
    the palette icons are, and the hint of the current mode. *)

(** A heart of the HUD: its centre, and whether it is drawn red (a life
    that is left) or dim. *)
Module Heart.
Record t := mk { cx : float; cy : float; full : bool }.
End Heart.

(** The loop over [i = 0 .. MAX_LIVES - 1]. *)
Definition hearts (s : State) : list Heart.t :=
  map (fun i : Z =>
         Heart.mk (of_int 20 + of_int i * of_int 30)%f32
                  (of_int H - of_int 45)%f32
                  (i <? Player.lives (player s)))
      (map Z.of_nat (seq 0 (Z.to_nat MAX_LIVES))).

(** The four icons of the bottom panel, each with the label printed under
    it. *)
Definition paletteIcons : list (Obj.t * string) :=
  let cy := (of_int BOT_H * lit 1 2)%f32 in
  [ (Obj.mk (of_int 80) cy (of_int 18) OBJ_OBSTACLE, "Obstacle"%string);
    (Obj.mk (of_int 240) cy (of_int 16) OBJ_COLLECT, "Collectible"%string);
    (Obj.mk (of_int 400) cy (of_int 16) OBJ_PU_SPEED, "Speed PU"%string);
    (Obj.mk (of_int 560) cy (of_int 16) OBJ_PU_SHIELD, "Shield PU"%string) ].

(** The hint of the current mode, printed at the right of the bottom
    panel. *)
Definition modeHint (s : State) : string :=
  match placeMode s with
  | PLACE_OBS => "Place: Obstacle"
  | PLACE_COL => "Place: Collectible"
  | PLACE_PU_SPEED => "Place: Speed PU"
  | PLACE_PU_SHIELD => "Place: Shield PU"
  | PLACE_NONE => "Place: None"
  end%string.

(** What a call of drawPanels does to bgShift, the offset of the moving
    stripes; nothing else writes it, and it starts at 0. *)
Definition drawPanels_bgShift (bgShift : float) : float :=
  let b := (bgShift + lit 2 10)%f32 in
  if (b >? of_int 20)%f32 then (b - of_int 20)%f32 else b.

(** The offset: not negative, below 32, at most 20. *)
Definition stripe (b : float) : Prop :=
  below 5 b /\ (b <=? of_int 20)%f32 = true.

(** ** Further scenarios *)

(** An obstacle placed above the start, the round started and left alone:
    no key is held. *)
Definition restScene : State :=
  unwrap (run libm0 [EvMouse 0 0 80 640; EvMouse 0 0 500 496;
                     EvKeyboard "r"%char 0 0; EvTimer 1000] (initScene initial)).

(** A shield and a speed power-up placed side by side, the round started
    and the player walked to the point just short of the pair. *)
Definition powerScene : State :=
  unwrap (run libm0 [EvMouse 0 0 560 640; EvMouse 0 0 500 496;
                     EvMouse 0 0 400 640; EvMouse 0 0 540 496;
                     EvKeyboard "r"%char 0 0; EvKeyboard "w"%char 0 0;
                     EvKeyboard "d"%char 0 0; EvTimer 1000; EvTimer 1083;
                     EvKeyboardUp "d"%char 0 0] (initScene initial)).

(** [powerScene] one tick later: both power-ups picked up. *)
Definition powerScene2 : State := unwrap (Timer libm0 1166 powerScene).

(** * Properties *)

(** ** Records and lists *)

Lemma player_eta (p : Player.t) :
  Player.mk (Player.x p) (Player.y p) (Player.r p) (Player.angleDeg p)
            (Player.lives p) (Player.score p) (Player.shielded p)
            (Player.shieldUntil p) (Player.speedUntil p) = p.
Proof. destruct p; reflexivity. Qed.

Lemma state_eta (s : State) :
  mkState (obstacles s) (collectibles s) (powerups s) (player s) (target s)
    (nextHitTime s) (phase s) (placeMode s) (timeSec s) (roundStart s)
    (timeLeft s) (keyW s) (keyA s) (keyS s) (keyD s)
    (keyUp s) (keyLeft s) (keyDown s) (keyRight s) (lastMs s) = s.
Proof. destruct s; reflexivity. Qed.

Lemma Some_inj {A : Type} (a b : A) : Some a = Some b -> a = b.
Proof. intros [= E]. exact E. Qed.

Lemma Phase_eqb_eq (a b : Phase) : Phase_eqb a b = true <-> a = b.
Proof. destruct a, b; simpl; split; congruence. Qed.

Lemma nth_error_skipn_cons {A : Type} (v : list A) (i : nat) (c : A) :
  nth_error v i = Some c -> skipn i v = c :: skipn (S i) v.
Proof.
  revert i; induction v as [|a v IH]; intros [|i] E; simpl in *; try discriminate.
  - congruence.
  - apply IH in E. exact E.
Qed.

Lemma firstn_succ_snoc {A : Type} (v : list A) (i : nat) (c : A) :
  nth_error v i = Some c -> firstn (S i) v = firstn i v ++ [c].
Proof.
  revert i; induction v as [|a v IH]; intros [|i] E; simpl in *; try discriminate.
  - congruence.
  - f_equal. apply IH, E.
Qed.

Lemma firstn_erase {A : Type} (v : list A) (i : nat) :
  firstn i (erase i v) = firstn i v.
Proof.
  unfold erase. destruct (Nat.le_gt_cases (length v) i) as [Hle|Hlt].
  - rewrite (firstn_all2 v) by lia. rewrite skipn_all2 by lia.
    rewrite app_nil_r. apply firstn_all2. lia.
  - rewrite firstn_app, length_firstn, Nat.min_l by lia.
    rewrite Nat.sub_diag, firstn_O, app_nil_r, firstn_firstn, Nat.min_id.
    reflexivity.
Qed.

Lemma skipn_erase {A : Type} (v : list A) (i : nat) :
  skipn i (erase i v) = skipn (S i) v.
Proof.
  unfold erase. destruct (Nat.le_gt_cases (length v) i) as [Hle|Hlt].
  - rewrite (skipn_all2 v) by lia. rewrite app_nil_r.
    apply skipn_all2. rewrite length_firstn. lia.
  - rewrite skipn_app, length_firstn, Nat.min_l by lia.
    rewrite Nat.sub_diag, skipn_O.
    rewrite skipn_all2 by (rewrite length_firstn; lia). reflexivity.
Qed.

(** ** The pick-up loops *)

Lemma collectLoop_eq (i : nat) (s : State) :
  collectLoop i s =
  set_collectibles
    (firstn i (collectibles s)
     ++ filter (fun c => negb (touches (player s) c)) (skipn i (collectibles s)))
    (set_player
       (PlayerSet.score
          (Nat.iter (length (filter (touches (player s)) (skipn i (collectibles s))))
                    bump (Player.score (player s)))
          (player s)) s).
Proof.
  funelim (collectLoop i s).
  - pose proof (proj1 (nth_error_None _ _) e) as Hle.
    rewrite firstn_all2, skipn_all2 by lia. simpl. rewrite app_nil_r.
    unfold set_collectibles, set_player, PlayerSet.score; simpl.
    rewrite player_eta. symmetry. apply state_eta.
  - rewrite H0. cbn [collectibles player set_collectibles set_player].
    rewrite firstn_erase, skipn_erase, (nth_error_skipn_cons _ _ _ E).
    change (touches (PlayerSet.score (wrap32 (Player.score (player s) + 5)) (player s)))
      with (touches (player s)).
    cbn [filter]. rewrite Heq. cbn [negb length].
    rewrite Nat.iter_succ_r. reflexivity.
  - rewrite H0. rewrite (firstn_succ_snoc _ _ _ E), (nth_error_skipn_cons _ _ _ E).
    cbn [filter]. rewrite Heq. cbn [negb]. rewrite <- app_assoc. reflexivity.
Qed.

Lemma applyPowerup_frame (now : float) (p : Obj.t) (pl : Player.t) :
  Player.x (applyPowerup now p pl) = Player.x pl /\
  Player.y (applyPowerup now p pl) = Player.y pl /\
  Player.r (applyPowerup now p pl) = Player.r pl /\
  Player.lives (applyPowerup now p pl) = Player.lives pl /\
  Player.score (applyPowerup now p pl) = Player.score pl.
Proof. unfold applyPowerup. destruct (Obj.type p); repeat split. Qed.

Lemma touches_applyPowerup (now : float) (p : Obj.t) (pl : Player.t) :
  touches (applyPowerup now p pl) = touches pl.
Proof. unfold applyPowerup. destruct (Obj.type p); reflexivity. Qed.

Lemma powerupLoop_eq (i : nat) (s : State) :
  powerupLoop i s =
  set_powerups
    (firstn i (powerups s)
     ++ filter (fun p => negb (touches (player s) p)) (skipn i (powerups s)))
    (set_player
       (fold_left (fun pl p => applyPowerup (timeSec s) p pl)
                  (filter (touches (player s)) (skipn i (powerups s)))
                  (player s)) s).
Proof.
  funelim (powerupLoop i s).
  - pose proof (proj1 (nth_error_None _ _) e) as Hle.
    rewrite firstn_all2, skipn_all2 by lia. simpl. rewrite app_nil_r.
    unfold set_powerups, set_player; simpl. symmetry. apply state_eta.
  - rewrite H0. cbn [powerups player timeSec set_powerups set_player].
    rewrite firstn_erase, skipn_erase, (nth_error_skipn_cons _ _ _ E).
    rewrite touches_applyPowerup.
    cbn [filter]. rewrite Heq. cbn [negb fold_left]. reflexivity.
  - rewrite H0. rewrite (firstn_succ_snoc _ _ _ E), (nth_error_skipn_cons _ _ _ E).
    cbn [filter]. rewrite Heq. cbn [negb]. rewrite <- app_assoc. reflexivity.
Qed.

(** ** binary32 comparisons *)

Lemma SFcompare_swap (x y : float) :
  SFcompare y x = option_map CompOpp (SFcompare x y).
Proof.
  destruct x as [sx|sx| |sx mx ex], y as [sy|sy| |sy my ey]; simpl;
    try reflexivity;
    try (destruct sx; reflexivity); try (destruct sy; reflexivity);
    try (destruct sx, sy; reflexivity).
  destruct sx, sy; simpl; try reflexivity;
    rewrite (Z.compare_antisym ex ey);
    destruct (ex ?= ey); simpl; try reflexivity;
    fold (Pos.compare my mx); fold (Pos.compare mx my);
    rewrite (Pos.compare_antisym mx my);
    destruct (Pos.compare mx my); reflexivity.
Qed.

Lemma fleb_not_fltb (a b : float) : (a <=? b)%f32 = true -> (b <? a)%f32 = false.
Proof.
  unfold fleb, fltb, SFleb, SFltb. rewrite (SFcompare_swap a b).
  destruct (SFcompare a b) as [[| |]|]; simpl; congruence.
Qed.

Lemma fltb_not_fleb (a b : float) : (a <? b)%f32 = true -> (b <=? a)%f32 = false.
Proof.
  unfold fleb, fltb, SFleb, SFltb. rewrite (SFcompare_swap a b).
  destruct (SFcompare a b) as [[| |]|]; simpl; congruence.
Qed.

Lemma fleb_not_nan_l (a b : float) : (a <=? b)%f32 = true -> is_nan a = false.
Proof. destruct a; simpl; try reflexivity. discriminate. Qed.

Lemma fleb_not_nan_r (a b : float) : (a <=? b)%f32 = true -> is_nan b = false.
Proof. destruct a, b; simpl; try reflexivity; discriminate. Qed.

Lemma clampf_inside (v lo hi : float) :
  (lo <=? v)%f32 = true -> (v <=? hi)%f32 = true -> clampf v lo hi = v.
Proof.
  intros Hlo Hhi. unfold clampf, fgtb.
  rewrite (fleb_not_fltb _ _ Hlo).
  change (SFltb hi v) with (hi <? v)%f32. rewrite (fleb_not_fltb _ _ Hhi).
  reflexivity.
Qed.

(** A clamp between finite bounds is finite unless its argument is a NaN. *)
Lemma clampf_finite (v lo hi : float) :
  is_finite lo = true -> is_finite hi = true ->
  is_nan (clampf v lo hi) = false -> is_finite (clampf v lo hi) = true.
Proof.
  intros Hlo Hhi. unfold clampf.
  destruct (v <? lo)%f32 eqn:E1; [intros _; exact Hlo|].
  destruct (v >? hi)%f32 eqn:E2; [intros _; exact Hhi|].
  destruct v as [sv|sv| |sv mv ev]; simpl; try reflexivity; try discriminate.
  intros _. destruct sv.
  - destruct lo; simpl in *; discriminate.
  - unfold fgtb in E2. destruct hi; simpl in *; discriminate.
Qed.

Lemma fsub_diag (x : float) : is_finite x = true -> (x - x)%f32 = zero.
Proof.
  destruct x as [s|s| |s m e]; simpl; try discriminate; intros _.
  - destruct s; reflexivity.
  - unfold fsub, SFsub. rewrite Z.sub_diag. reflexivity.
Qed.

Lemma dist2_diag (x y : float) :
  is_finite x = true -> is_finite y = true -> dist2 x y x y = zero.
Proof.
  intros Hx Hy. unfold dist2. rewrite (fsub_diag _ Hx), (fsub_diag _ Hy).
  reflexivity.
Qed.

(** ** The obstacle test *)

Lemma blockedBy_existsb (nx ny pr : float) (os : list Obj.t) :
  blockedBy nx ny pr os = existsb (hitsSquare nx ny pr) os.
Proof.
  induction os as [|o os IH]; simpl; [reflexivity|].
  rewrite IH. destruct (hitsSquare nx ny pr o); reflexivity.
Qed.

Lemma blockedBy_In (nx ny pr : float) (os : list Obj.t) (o : Obj.t) :
  In o os -> hitsSquare nx ny pr o = true -> blockedBy nx ny pr os = true.
Proof.
  intros Hin Hhit. rewrite blockedBy_existsb. apply existsb_exists.
  exists o. split; assumption.
Qed.

(** A finite point inside the square is at squared distance zero from its
    own clamp, which is below the square of any positive radius. *)
Lemma insideSquare_hits (nx ny pr : float) (o : Obj.t) :
  is_finite nx = true -> is_finite ny = true ->
  (zero <? pr * pr)%f32 = true ->
  insideSquare nx ny o = true -> hitsSquare nx ny pr o = true.
Proof.
  intros Hx Hy Hpr Hin. unfold insideSquare in Hin.
  apply andb_prop in Hin as [Hin Hy2]. apply andb_prop in Hin as [Hin Hy1].
  apply andb_prop in Hin as [Hx1 Hx2].
  unfold hitsSquare.
  rewrite (clampf_inside _ _ _ Hx1 Hx2), (clampf_inside _ _ _ Hy1 Hy2).
  rewrite (dist2_diag _ _ Hx Hy). exact Hpr.
Qed.

Lemma candidate_finite (dx dy : float) (s : State) (o : Obj.t) :
  Player.r (player s) = of_int 14 ->
  insideSquare (fst (candidate dx dy s)) (snd (candidate dx dy s)) o = true ->
  is_finite (fst (candidate dx dy s)) = true /\
  is_finite (snd (candidate dx dy s)) = true.
Proof.
  intros Hr Hin. unfold insideSquare in Hin.
  apply andb_prop in Hin as [Hin Hy2]. apply andb_prop in Hin as [Hin _].
  apply andb_prop in Hin as [_ Hx2].
  apply fleb_not_nan_l in Hx2. apply fleb_not_nan_l in Hy2.
  unfold candidate in *. cbn [fst snd] in *. rewrite Hr in *.
  split; apply clampf_finite; auto.
Qed.

Lemma inside_blocks (dx dy : float) (s : State) (o : Obj.t) :
  Player.r (player s) = of_int 14 ->
  In o (obstacles s) ->
  insideSquare (fst (candidate dx dy s)) (snd (candidate dx dy s)) o = true ->
  blockedBy (fst (candidate dx dy s)) (snd (candidate dx dy s))
            (Player.r (player s)) (obstacles s) = true.
Proof.
  intros Hr Hin Hsq.
  destruct (candidate_finite dx dy s o Hr Hsq) as [Hx Hy].
  apply (blockedBy_In _ _ _ _ o Hin).
  apply insideSquare_hits; auto. rewrite Hr. reflexivity.
Qed.

(** ** The sub-steps of a tick *)

Lemma wrap32_id (z : Z) : INT_MIN <= z <= INT_MAX -> wrap32 z = z.
Proof.
  unfold INT_MIN, INT_MAX, wrap32. intros Hz.
  rewrite Z.mod_small by lia. lia.
Qed.

Lemma velocity_expireShield (s : State) : velocity (expireShield s) = velocity s.
Proof. unfold expireShield. destruct (_ >? _)%f32; reflexivity. Qed.

Lemma expireShield_timeLeft (n : Z) (s : State) :
  expireShield (set_timeLeft n s) = set_timeLeft n (expireShield s).
Proof. unfold expireShield. cbn. destruct (_ >? _)%f32; reflexivity. Qed.

Lemma fold_applyPowerup_frame (now : float) (ps : list Obj.t) (pl : Player.t) :
  let pl' := fold_left (fun pl p => applyPowerup now p pl) ps pl in
  Player.x pl' = Player.x pl /\ Player.y pl' = Player.y pl /\
  Player.r pl' = Player.r pl /\ Player.lives pl' = Player.lives pl /\
  Player.score pl' = Player.score pl.
Proof.
  revert pl. induction ps as [|p ps IH]; intros pl; simpl.
  - repeat split.
  - destruct (IH (applyPowerup now p pl)) as (Hx & Hy & Hr & Hl & Hs).
    destruct (applyPowerup_frame now p pl) as (Hx' & Hy' & Hr' & Hl' & Hs').
    repeat split; congruence.
Qed.

Section Tick.

Variable atan2f : float -> float -> float.

Lemma moveStep_eq (dt : float) (s : State) :
  moveStep atan2f dt s =
  tryMove (fst (velocity s) * dt)%f32 (snd (velocity s) * dt)%f32 dt
          (beforeMove atan2f dt s).
Proof.
  unfold moveStep, beforeMove. rewrite velocity_expireShield.
  destruct (velocity s) as [vx vy]. reflexivity.
Qed.

Lemma beforeMove_frame (dt : float) (s : State) :
  let s0 := beforeMove atan2f dt s in
  obstacles s0 = obstacles s /\ collectibles s0 = collectibles s /\
  powerups s0 = powerups s /\ target s0 = target s /\
  nextHitTime s0 = nextHitTime s /\ phase s0 = phase s /\
  timeSec s0 = timeSec s /\ timeLeft s0 = timeLeft s /\
  Player.x (player s0) = Player.x (player s) /\
  Player.y (player s0) = Player.y (player s) /\
  Player.r (player s0) = Player.r (player s) /\
  Player.lives (player s0) = Player.lives (player s) /\
  Player.score (player s0) = Player.score (player s) /\
  Player.shielded (player s0) = Player.shielded (player (expireShield s)).
Proof.
  unfold beforeMove, face, expireShield.
  destruct (_ || _); destruct (_ >? _)%f32; cbn; repeat split.
Qed.

Lemma expireShield_unshielded (s : State) :
  Player.shielded (player s) = false ->
  Player.shielded (player (expireShield s)) = false.
Proof. unfold expireShield. destruct (_ >? _)%f32; cbn; auto. Qed.

Lemma candidate_beforeMove (dx dy dt : float) (s : State) :
  candidate dx dy (beforeMove atan2f dt s) = candidate dx dy s.
Proof.
  destruct (beforeMove_frame dt s)
    as (_ & _ & _ & _ & _ & _ & _ & _ & Hx & Hy & Hr & _).
  unfold candidate. rewrite Hx, Hy, Hr. reflexivity.
Qed.

Lemma tickCandidate_eq (dt : float) (s : State) :
  tickCandidate dt s =
  candidate (fst (velocity s) * dt)%f32 (snd (velocity s) * dt)%f32 s.
Proof. unfold tickCandidate. destruct (velocity s); reflexivity. Qed.

Lemma moveStep_cases (dt : float) (s : State) :
  moveStep atan2f dt s =
  let s0 := beforeMove atan2f dt s in
  if tickBlocked dt s then
    if negb (Player.shielded (player s0)) && (timeSec s >=? nextHitTime s)%f32
    then takeHit s0 else s0
  else set_player (PlayerSet.pos (fst (tickCandidate dt s))
                                 (snd (tickCandidate dt s)) (player s0)) s0.
Proof.
  rewrite moveStep_eq. unfold tryMove, tickBlocked.
  rewrite candidate_beforeMove, tickCandidate_eq.
  destruct (beforeMove_frame dt s)
    as (Ho & _ & _ & _ & Hn & _ & Ht & _ & _ & _ & Hr & _).
  rewrite Ho, Hn, Ht, Hr.
  destruct (candidate _ _ s) as [nx ny]. reflexivity.
Qed.

Lemma takeHit_frame (s : State) :
  let s1 := takeHit s in
  obstacles s1 = obstacles s /\ collectibles s1 = collectibles s /\
  powerups s1 = powerups s /\ target s1 = target s /\
  timeSec s1 = timeSec s /\ timeLeft s1 = timeLeft s /\
  Player.x (player s1) = Player.x (player s) /\
  Player.y (player s1) = Player.y (player s) /\
  Player.r (player s1) = Player.r (player s) /\
  Player.score (player s1) = Player.score (player s) /\
  Player.lives (player s1) = Z.max 0 (wrap32 (Player.lives (player s) - 1)) /\
  nextHitTime s1 = (timeSec s + lit 1 2)%f32 /\
  phase s1 = (if Player.lives (player s1) =? 0 then PHASE_LOSE else phase s).
Proof.
  unfold takeHit. cbn.
  destruct (Z.max 0 (wrap32 (Player.lives (player s) - 1)) =? 0) eqn:E;
    cbn; rewrite ?E; repeat split.
Qed.

End Tick.

Section Step.

Variable atan2f : float -> float -> float.

(** The two pick-up loops together: they filter the two collections by the
    overlap test at the player's position and touch nothing that the
    movement or the phase depend on. *)
Lemma pickups_frame (s1 : State) :
  let s3 := powerupLoop 0 (collectLoop 0 s1) in
  obstacles s3 = obstacles s1 /\ target s3 = target s1 /\
  nextHitTime s3 = nextHitTime s1 /\ phase s3 = phase s1 /\
  timeSec s3 = timeSec s1 /\ timeLeft s3 = timeLeft s1 /\
  Player.x (player s3) = Player.x (player s1) /\
  Player.y (player s3) = Player.y (player s1) /\
  Player.r (player s3) = Player.r (player s1) /\
  Player.lives (player s3) = Player.lives (player s1) /\
  collectibles s3
  = filter (fun c => negb (touches (player s1) c)) (collectibles s1) /\
  Player.score (player s3)
  = Nat.iter (length (filter (touches (player s1)) (collectibles s1)))
             bump (Player.score (player s1)).
Proof.
  cbv zeta. rewrite powerupLoop_eq, collectLoop_eq.
  cbn [obstacles target nextHitTime phase timeSec timeLeft player collectibles
       powerups set_powerups set_player set_collectibles firstn skipn app].
  match goal with
  | |- context [fold_left ?f ?l ?p] =>
      destruct (fold_applyPowerup_frame (timeSec s1) l p)
        as (Hx & Hy & Hr & Hl & Hs)
  end.
  cbv zeta in Hx, Hy, Hr, Hl, Hs. rewrite Hx, Hy, Hr, Hl, Hs.
  repeat split.
Qed.

Lemma winCheck_cases (s3 : State) (cur : Z * Z) :
  targetPos s3 = Some cur ->
  winCheck s3 =
  Some (if intersectCircleCircle (Player.x (player s3)) (Player.y (player s3))
             (Player.r (player s3)) (of_int (fst cur)) (of_int (snd cur))
             (Target.r (target s3))
        then set_phase PHASE_WIN s3 else s3).
Proof.
  intros E. unfold winCheck. rewrite E. destruct intersectCircleCircle; reflexivity.
Qed.

(** tryMove and what precedes it never touch the collections, the target or
    the clock, nor the player's radius and score. *)
Lemma moveStep_frame (dt : float) (s : State) :
  let s1 := moveStep atan2f dt s in
  obstacles s1 = obstacles s /\ collectibles s1 = collectibles s /\
  powerups s1 = powerups s /\ target s1 = target s /\
  timeSec s1 = timeSec s /\ timeLeft s1 = timeLeft s /\
  Player.r (player s1) = Player.r (player s) /\
  Player.score (player s1) = Player.score (player s).
Proof.
  cbv zeta. rewrite moveStep_cases. cbv zeta.
  destruct (beforeMove_frame atan2f dt s)
    as (Ho & Hc & Hp & Htg & Hn & Hph & Ht & Htl & Hx & Hy & Hr & Hl & Hs & Hsh).
  destruct (takeHit_frame (beforeMove atan2f dt s))
    as (Ho' & Hc' & Hp' & Htg' & Ht' & Htl' & Hx' & Hy' & Hr' & Hs' & _).
  destruct (tickBlocked dt s);
    [destruct (_ && _)|]; cbn [obstacles collectibles powerups target timeSec
      timeLeft player set_player PlayerSet.pos Player.r Player.score];
    repeat split; congruence.
Qed.

(** A blocked move: the player stays, and a hit is taken when vulnerable. *)
Lemma moveStep_blocked (dt : float) (s : State) :
  tickBlocked dt s = true ->
  let s1 := moveStep atan2f dt s in
  let vulnerable := negb (Player.shielded (player (expireShield s)))
                    && (timeSec s >=? nextHitTime s)%f32 in
  Player.x (player s1) = Player.x (player s) /\
  Player.y (player s1) = Player.y (player s) /\
  Player.lives (player s1)
  = (if vulnerable then Z.max 0 (wrap32 (Player.lives (player s) - 1))
     else Player.lives (player s)) /\
  nextHitTime s1
  = (if vulnerable then (timeSec s + lit 1 2)%f32 else nextHitTime s) /\
  phase s1
  = (if vulnerable && (Player.lives (player s1) =? 0) then PHASE_LOSE
     else phase s).
Proof.
  intros Hb. cbv zeta. rewrite moveStep_cases. cbv zeta. rewrite Hb.
  destruct (beforeMove_frame atan2f dt s)
    as (Ho & Hc & Hp & Htg & Hn & Hph & Ht & Htl & Hx & Hy & Hr & Hl & Hs & Hsh).
  destruct (takeHit_frame (beforeMove atan2f dt s))
    as (_ & _ & _ & _ & _ & _ & Hx' & Hy' & _ & _ & Hl' & Hn' & Hph').
  rewrite Hsh.
  destruct (negb _ && _); cbn [andb].
  - rewrite Hph', Hph. rewrite Hl in Hl'. rewrite Ht in Hn'.
    repeat split; congruence.
  - repeat split; congruence.
Qed.

(** A free move: the candidate position is committed, nothing else changes. *)
Lemma moveStep_free (dt : float) (s : State) :
  tickBlocked dt s = false ->
  let s1 := moveStep atan2f dt s in
  Player.x (player s1) = fst (tickCandidate dt s) /\
  Player.y (player s1) = snd (tickCandidate dt s) /\
  Player.lives (player s1) = Player.lives (player s) /\
  nextHitTime s1 = nextHitTime s /\ phase s1 = phase s.
Proof.
  intros Hb. cbv zeta. rewrite moveStep_cases. cbv zeta. rewrite Hb.
  destruct (beforeMove_frame atan2f dt s)
    as (Ho & Hc & Hp & Htg & Hn & Hph & Ht & Htl & Hx & Hy & Hr & Hl & Hs & Hsh).
  cbn. repeat split; congruence.
Qed.

(** A play-phase tick whose countdown has not run out and whose target
    position can be cast: the tick returns, and its result is the movement
    step followed by the pick-ups and the win check. *)
Lemma updateGame_play (dt : float) (s : State) (remaining : Z) (cur : Z * Z) :
  phase s = PHASE_PLAY -> countdown s = Some remaining -> 0 < remaining ->
  targetPos s = Some cur ->
  exists s',
    updateGame atan2f dt s = Some s' /\
    let s1 := moveStep atan2f dt (set_timeLeft remaining s) in
    obstacles s' = obstacles s /\ target s' = target s /\
    timeSec s' = timeSec s /\ timeLeft s' = remaining /\
    nextHitTime s' = nextHitTime s1 /\
    Player.x (player s') = Player.x (player s1) /\
    Player.y (player s') = Player.y (player s1) /\
    Player.r (player s') = Player.r (player s) /\
    Player.lives (player s') = Player.lives (player s1) /\
    collectibles s'
    = filter (fun c => negb (touches (player s1) c)) (collectibles s) /\
    Player.score (player s')
    = Nat.iter (length (filter (touches (player s1)) (collectibles s)))
               bump (Player.score (player s)) /\
    phase s'
    = (if intersectCircleCircle (Player.x (player s1)) (Player.y (player s1))
            (Player.r (player s)) (of_int (fst cur)) (of_int (snd cur))
            (Target.r (target s))
       then PHASE_WIN else phase s1).
Proof.
  intros Hph Hcd Hrem Htp.
  unfold updateGame. rewrite Hph, Hcd. cbn [Phase_eqb negb timeLeft set_timeLeft].
  destruct (remaining <=? 0) eqn:E; [apply Z.leb_le in E; lia|].
  unfold playStep. cbv zeta.
  change (mkState (obstacles s) (collectibles s) (powerups s) (player s)
            (target s) (nextHitTime s) (phase s) (placeMode s) (timeSec s)
            (roundStart s) remaining (keyW s) (keyA s) (keyS s) (keyD s)
            (keyUp s) (keyLeft s) (keyDown s) (keyRight s) (lastMs s))
    with (set_timeLeft remaining s).
  set (st := set_timeLeft remaining s).
  destruct (moveStep_frame dt st)
    as (Ho & Hc & Hp & Htg & Ht & Htl & Hr & Hs).
  cbv zeta in Ho, Hc, Hp, Htg, Ht, Htl, Hr, Hs.
  set (s1 := moveStep atan2f dt st) in *.
  destruct (pickups_frame s1)
    as (Ho3 & Htg3 & Hn3 & Hph3 & Ht3 & Htl3 & Hx3 & Hy3 & Hr3 & Hl3 & Hc3 & Hs3).
  cbv zeta in Ho3, Htg3, Hn3, Hph3, Ht3, Htl3, Hx3, Hy3, Hr3, Hl3, Hc3, Hs3.
  set (s3 := powerupLoop 0 (collectLoop 0 s1)) in *.
  change (obstacles st) with (obstacles s) in Ho.
  change (collectibles st) with (collectibles s) in Hc.
  change (target st) with (target s) in Htg.
  change (timeSec st) with (timeSec s) in Ht.
  change (timeLeft st) with remaining in Htl.
  change (Player.r (player st)) with (Player.r (player s)) in Hr.
  change (Player.score (player st)) with (Player.score (player s)) in Hs.
  assert (Htp3 : targetPos s3 = Some cur).
  { unfold targetPos in *. rewrite Htg3, Htg. exact Htp. }
  rewrite (winCheck_cases s3 cur Htp3).
  eexists; split; [reflexivity|].
  rewrite Hx3, Hy3, Hr3, Htg3, Htg, Hr.
  destruct intersectCircleCircle;
    cbn [obstacles target timeSec timeLeft nextHitTime player collectibles
         phase set_phase];
    repeat split; congruence.
Qed.

Lemma playStep_undefined (dt : float) (s : State) :
  targetPos s = None -> playStep atan2f dt s = None.
Proof.
  intros Htp. unfold playStep. cbv zeta.
  destruct (moveStep_frame dt s) as (_ & _ & _ & Htg & _).
  destruct (pickups_frame (moveStep atan2f dt s)) as (_ & Htg3 & _).
  cbv zeta in Htg, Htg3. unfold winCheck, targetPos in *.
  rewrite Htg3, Htg, Htp. reflexivity.
Qed.

(** A tick keeps the radii, and leaves the play phase when the last life
    goes. *)
Lemma updateGame_invariant (dt : float) (s s' : State) :
  invariant s -> updateGame atan2f dt s = Some s' -> invariant s'.
Proof.
  intros (Hr & Htr & Hl) Hu.
  destruct (Phase_eqb (phase s) PHASE_PLAY) eqn:Hph.
  2:{ unfold updateGame in Hu. rewrite Hph in Hu. injection Hu as <-.
      split; [|split]; auto. }
  apply Phase_eqb_eq in Hph. specialize (Hl Hph).
  destruct (countdown s) as [remaining|] eqn:Hcd.
  2:{ unfold updateGame in Hu. rewrite Hph, Hcd in Hu. discriminate. }
  destruct (Z.ltb_spec 0 remaining) as [Hpos|Hneg].
  - destruct (targetPos s) as [cur|] eqn:Htp.
    + destruct (updateGame_play dt s remaining cur Hph Hcd Hpos Htp)
        as (s'' & Hu' & H'). rewrite Hu in Hu'. injection Hu' as <-.
      cbv zeta in H'.
      destruct H' as (_ & Htg' & _ & _ & _ & _ & _ & Hr' & Hl' & _ & _ & Hph').
      split; [congruence|]. split; [congruence|].
      intros Hplay. rewrite Hl'. rewrite Hplay in Hph'.
      destruct intersectCircleCircle; try discriminate.
      set (st := set_timeLeft remaining s) in *.
      change (Player.lives (player s)) with (Player.lives (player st)) in Hl.
      destruct (tickBlocked dt st) eqn:Hb.
      * destruct (moveStep_blocked dt st Hb) as (_ & _ & Hl1 & _ & Hp1).
        cbv zeta in Hl1, Hp1. rewrite Hl1.
        destruct (negb _ && _); [|lia].
        cbn [andb] in Hp1. rewrite <- Hph' in Hp1. rewrite Hl1 in Hp1.
        rewrite wrap32_id in * by (unfold INT_MIN, INT_MAX, MAX_LIVES in *; lia).
        destruct (Z.eqb_spec (Z.max 0 (Player.lives (player st) - 1)) 0);
          [discriminate | unfold MAX_LIVES in *; lia].
      * destruct (moveStep_free dt st Hb) as (_ & _ & Hl1 & _).
        cbv zeta in Hl1. rewrite Hl1. exact Hl.
    + unfold updateGame in Hu. rewrite Hph, Hcd in Hu.
      cbn [Phase_eqb negb timeLeft set_timeLeft] in Hu.
      destruct (remaining <=? 0) eqn:E; [apply Z.leb_le in E; lia|].
      rewrite playStep_undefined in Hu by exact Htp. discriminate.
  - unfold updateGame in Hu. rewrite Hph, Hcd in Hu.
    cbn [Phase_eqb negb timeLeft set_timeLeft] in Hu.
    destruct (remaining <=? 0) eqn:E; [|apply Z.leb_gt in E; lia].
    injection Hu as <-. split; [|split]; auto.
Qed.

Lemma updateTarget_frame (dt : float) (s : State) :
  player (updateTarget dt s) = player s /\
  phase (updateTarget dt s) = phase s /\
  Target.r (target (updateTarget dt s)) = Target.r (target s).
Proof.
  unfold updateTarget. destruct (_ >? _)%f32; destruct (_ <? _)%f32;
    repeat split.
Qed.

Lemma startRound_invariant (s : State) : invariant s -> invariant (startRound s).
Proof.
  intros (Hr & Htr & _). repeat split; cbn; auto; unfold MAX_LIVES; lia.
Qed.

Lemma Mouse_frame (button state x y : Z) (s s' : State) :
  Mouse button state x y s = Some s' ->
  player s' = player s /\ target s' = target s /\ phase s' = phase s.
Proof.
  unfold Mouse.
  destruct (_ || _); [intros [= <-]; auto|].
  destruct (_ <=? BOT_H); [intros [= <-]; auto|].
  destruct (_ && _); [|intros [= <-]; auto].
  destruct placedObj as [o|]; [|intros [= <-]; auto].
  destruct overlapsAny as [[|]|]; try discriminate; intros [= <-]; auto.
  unfold push. destruct (Obj.type o); auto.
Qed.

(** The state Timer hands to updateGame satisfies the invariant too. *)
Lemma advance_invariant (nowMs : Z) (s : State) :
  invariant s -> invariant (advance nowMs s).
Proof.
  intros (Hr & Htr0 & Hl). unfold advance. cbv zeta.
  match goal with
  | |- context [updateTarget ?dt ?s0] =>
      destruct (updateTarget_frame dt s0) as (Hp & Hph & Htr)
  end.
  unfold invariant. rewrite Hp, Hph, Htr. auto.
Qed.

Lemma handle_invariant (e : Event) (s s' : State) :
  invariant s -> handle atan2f e s = Some s' -> invariant s'.
Proof.
  intros Hinv. destruct e; cbn [handle].
  - unfold Timer. cbv zeta. pose proof (advance_invariant nowMs s Hinv) as Hinv1.
    destruct (Phase_eqb (phase (advance nowMs s)) PHASE_PLAY).
    + intros Hu. exact (updateGame_invariant _ _ _ Hinv1 Hu).
    + intros [= <-]. exact Hinv1.
  - intros [= <-]. unfold Keyboard.
    destruct (_ || _); [apply startRound_invariant, Hinv | exact Hinv].
  - intros [= <-]. exact Hinv.
  - intros [= <-]. exact Hinv.
  - intros [= <-]. exact Hinv.
  - intros Hm. apply Mouse_frame in Hm as (Hp & Htg & Hph).
    unfold invariant. rewrite Hp, Htg, Hph. exact Hinv.
Qed.

Lemma reachable_invariant (s : State) : reachable atan2f s -> invariant s.
Proof.
  induction 1 as [|e s s' _ IH Hh].
  - repeat split; cbn; discriminate.
  - exact (handle_invariant e s s' IH Hh).
Qed.

Lemma run_reachable (evs : list Event) (s s' : State) :
  reachable atan2f s -> run atan2f evs s = Some s' -> reachable atan2f s'.
Proof.
  revert s. induction evs as [|e evs IH]; intros s Hr; cbn [run].
  - intros [= <-]. exact Hr.
  - destruct (handle atan2f e s) as [s1|] eqn:E; [|discriminate].
    apply IH. exact (reach_step atan2f e s s1 Hr E).
Qed.

(** A blocked tick in full: the tick returns, the player stays, a life goes
    exactly when the player is vulnerable, and the win check has the last
    word on the phase. *)
Lemma blocked_tick (dt : float) (s : State) (remaining : Z) (cur : Z * Z) :
  phase s = PHASE_PLAY -> countdown s = Some remaining -> 0 < remaining ->
  targetPos s = Some cur -> tickBlocked dt s = true ->
  exists s',
    updateGame atan2f dt s = Some s' /\
    let vulnerable := negb (Player.shielded (player (expireShield s)))
                      && (timeSec s >=? nextHitTime s)%f32 in
    Player.x (player s') = Player.x (player s) /\
    Player.y (player s') = Player.y (player s) /\
    Player.lives (player s')
    = (if vulnerable then Z.max 0 (wrap32 (Player.lives (player s) - 1))
       else Player.lives (player s)) /\
    nextHitTime s'
    = (if vulnerable then (timeSec s + lit 1 2)%f32 else nextHitTime s) /\
    phase s'
    = (if intersectCircleCircle (Player.x (player s)) (Player.y (player s))
            (Player.r (player s)) (of_int (fst cur)) (of_int (snd cur))
            (Target.r (target s))
       then PHASE_WIN
       else if vulnerable && (Player.lives (player s') =? 0) then PHASE_LOSE
       else PHASE_PLAY).
Proof.
  intros Hph Hcd Hrem Htp Hb.
  destruct (updateGame_play dt s remaining cur Hph Hcd Hrem Htp)
    as (s' & Hu & H'). cbv zeta in H'.
  destruct H' as (_ & _ & _ & _ & Hn & Hx & Hy & _ & Hl & _ & _ & Hp).
  set (st := set_timeLeft remaining s) in *.
  destruct (moveStep_blocked dt st Hb) as (Hx1 & Hy1 & Hl1 & Hn1 & Hp1).
  cbv zeta in Hl1, Hn1, Hp1.
  exists s'. split; [exact Hu|]. cbv zeta.
  rewrite Hx, Hy, Hl, Hn, Hp, Hx1, Hy1, Hp1, Hl1, Hn1.
  change (phase st) with (phase s). rewrite Hph.
  unfold st. rewrite expireShield_timeLeft.
  repeat split.
Qed.

End Step.

Lemma moveStep_timeLeft (atan2f : float -> float -> float)
    (n : Z) (dt : float) (s : State) :
  moveStep atan2f dt (set_timeLeft n s) = set_timeLeft n (moveStep atan2f dt s).
Proof.
  unfold moveStep. rewrite expireShield_timeLeft.
  change (velocity (set_timeLeft n (expireShield s)))
    with (velocity (expireShield s)).
  destruct (velocity (expireShield s)) as [vx vy].
  unfold face. destruct (_ || _); unfold tryMove;
    cbn [player obstacles timeSec nextHitTime set_timeLeft set_player candidate];
    match goal with |- context [blockedBy ?a ?b ?c ?d] => destruct (blockedBy a b c d) end;
    try reflexivity;
    match goal with |- context [negb ?a && ?b] => destruct (negb a && b) end;
    try reflexivity;
    unfold takeHit; cbn;
    match goal with |- context [?a =? 0] => destruct (a =? 0) end;
    reflexivity.
Qed.

Lemma iter_bump (k : nat) (z : Z) :
  INT_MIN <= z -> z + 5 * Z.of_nat k <= INT_MAX ->
  Nat.iter k bump z = z + 5 * Z.of_nat k.
Proof.
  induction k as [|k IH]; intros Hlo Hhi.
  - simpl. lia.
  - rewrite Nat.iter_succ, IH by lia. unfold bump.
    rewrite wrap32_id by lia. lia.
Qed.

Lemma ffloor_f2i (x : float) (n : Z) :
  ffloor x = Some n -> 0 <= n <= INT_MAX -> f2i x = Some n.
Proof.
  destruct x as [s|s| |s m e]; simpl; try discriminate.
  - auto.
  - intros [= <-] Hn. destruct s.
    + exfalso. assert (Z.shiftl (Z.neg m) e < 0); [|lia].
      apply Z.shiftl_neg. lia.
    + replace (in_int_range (Z.shiftl (Z.pos m) e)) with true; [reflexivity|].
      symmetry. unfold in_int_range. apply andb_true_intro.
      unfold INT_MIN, INT_MAX in *. split; [apply Z.leb_le | apply Z.leb_le]; lia.
Qed.

(** ** binary32 rounding *)

Lemma digits2_pos_size (p : positive) : digits2_pos p = Pos.size p.
Proof. induction p; simpl; congruence. Qed.

(** [Zdigits2] is the bit length: 2^(d-1) <= m < 2^d. *)
Lemma Zdigits2_bounds (p : positive) :
  2 ^ (Zpos (digits2_pos p) - 1) <= Zpos p < 2 ^ Zpos (digits2_pos p).
Proof.
  induction p as [p IH|p IH|]; cbn [digits2_pos].
  - rewrite Pos2Z.inj_succ.
    replace (Z.succ (Zpos (digits2_pos p)) - 1) with (Zpos (digits2_pos p)) by lia.
    rewrite Z.pow_succ_r by lia.
    assert (2 ^ Zpos (digits2_pos p) = 2 * 2 ^ (Zpos (digits2_pos p) - 1)).
    { rewrite <- Z.pow_succ_r by lia. f_equal. lia. }
    lia.
  - rewrite Pos2Z.inj_succ.
    replace (Z.succ (Zpos (digits2_pos p)) - 1) with (Zpos (digits2_pos p)) by lia.
    rewrite Z.pow_succ_r by lia.
    assert (2 ^ Zpos (digits2_pos p) = 2 * 2 ^ (Zpos (digits2_pos p) - 1)).
    { rewrite <- Z.pow_succ_r by lia. f_equal. lia. }
    lia.
  - simpl. lia.
Qed.

Lemma Zdigits2_nonneg (m : Z) : 0 <= m -> 0 <= Zdigits2 m.
Proof. destruct m; simpl; lia. Qed.

Lemma Zdigits2_lt (m n : Z) : 0 <= m -> 0 <= n -> m < 2 ^ n -> Zdigits2 m <= n.
Proof.
  intros Hm Hn Hlt. destruct m as [|p|p]; simpl; try lia.
  destruct (Zdigits2_bounds p) as [Hlo _].
  destruct (Z.le_gt_cases (Zpos (digits2_pos p)) n) as [|Hgt]; [assumption|].
  exfalso. assert (2 ^ n <= 2 ^ (Zpos (digits2_pos p) - 1))
    by (apply Z.pow_le_mono_r; lia). lia.
Qed.

Lemma Zdigits2_ge (m n : Z) : 0 <= n -> 2 ^ n <= m -> n < Zdigits2 m.
Proof.
  intros Hn Hle. assert (0 < 2 ^ n) by (apply Z.pow_pos_nonneg; lia).
  destruct m as [|p|p]; simpl; try lia.
  destruct (Zdigits2_bounds p) as [_ Hhi].
  destruct (Z.lt_ge_cases n (Zpos (digits2_pos p))) as [|Hge]; [assumption|].
  exfalso. assert (2 ^ Zpos (digits2_pos p) <= 2 ^ n)
    by (apply Z.pow_le_mono_r; lia). lia.
Qed.

Lemma Zdigits2_mono (a b : Z) : 0 <= a <= b -> Zdigits2 a <= Zdigits2 b.
Proof.
  intros [Ha Hab]. destruct b as [|q|q]; try lia.
  - assert (a = 0) by lia. subst. simpl. lia.
  - apply Zdigits2_lt; [lia | simpl; lia |]. simpl.
    destruct (Zdigits2_bounds q). lia.
Qed.

(** ** Right shifts *)

Lemma iter_pos_invariant {A : Type} (f : A -> A) (P : A -> Prop) :
  (forall x, P x -> P (f x)) -> forall n x, P x -> P (iter_pos f n x).
Proof.
  intros Hf. induction n as [n IH|n IH|]; intros x Hx; simpl; auto.
Qed.

Lemma iter_pos_nat {A : Type} (f : A -> A) (n : positive) (x : A) :
  iter_pos f n x = Nat.iter (Pos.to_nat n) f x.
Proof.
  revert x. induction n as [n IH|n IH|]; intros x; cbn [iter_pos].
  - rewrite !IH, Pos2Nat.inj_xI. cbn [Nat.mul].
    rewrite Nat.add_0_r, Nat.iter_succ_r, <- Nat.iter_add. reflexivity.
  - rewrite !IH, Pos2Nat.inj_xO. cbn [Nat.mul].
    rewrite Nat.add_0_r, <- Nat.iter_add. reflexivity.
  - reflexivity.
Qed.

Lemma shr_1_m (mrs : shr_record) :
  0 <= shr_m mrs -> shr_m (shr_1 mrs) = shr_m mrs / 2.
Proof.
  destruct mrs as [m r s]. cbn [shr_m]. intros Hm.
  destruct m as [|[p|p|]|p]; cbn [shr_1 shr_m]; try lia.
  - reflexivity.
  - rewrite Pos2Z.inj_xI. apply (Z.div_unique _ 2 _ 1); lia.
  - rewrite Pos2Z.inj_xO. apply (Z.div_unique _ 2 _ 0); lia.
  - reflexivity.
Qed.

Lemma shr_iter_m (n : nat) (mrs : shr_record) :
  0 <= shr_m mrs ->
  shr_m (Nat.iter n shr_1 mrs) = shr_m mrs / 2 ^ Z.of_nat n.
Proof.
  intros Hm. induction n as [|n IH].
  - simpl. rewrite Z.div_1_r. reflexivity.
  - rewrite Nat.iter_succ, shr_1_m, IH.
    + rewrite Nat2Z.inj_succ, Z.pow_succ_r by lia.
      rewrite Z.div_div by (try apply Z.pow_pos_nonneg; lia).
      f_equal. lia.
    + rewrite IH. apply Z.div_pos; [lia | apply Z.pow_pos_nonneg; lia].
Qed.

(** The mantissa and exponent [shr] returns. *)
Lemma shr_spec (mrs : shr_record) (e n : Z) :
  0 <= shr_m mrs ->
  shr_m (fst (shr mrs e n)) = shr_m mrs / 2 ^ Z.max 0 n /\
  snd (shr mrs e n) = e + Z.max 0 n.
Proof.
  intros Hm. destruct n as [|p|p]; cbn [shr fst snd Z.max Z.compare].
  - rewrite Z.div_1_r. split; [reflexivity | lia].
  - rewrite iter_pos_nat, shr_iter_m, positive_nat_Z by assumption.
    replace (Z.max 0 (Z.pos p)) with (Z.pos p) by lia. split; reflexivity.
  - replace (Z.max 0 (Z.neg p)) with 0 by lia.
    rewrite Z.div_1_r. split; [reflexivity | lia].
Qed.

Lemma round_nearest_even_cases (m : Z) (l : location) :
  round_nearest_even m l = m \/ round_nearest_even m l = m + 1.
Proof.
  destruct l as [|[| |]]; simpl; auto. destruct (Z.even m); auto.
Qed.

Lemma shr_record_of_loc_m (m : Z) (l : location) :
  shr_m (shr_record_of_loc m l) = m.
Proof. destruct l as [|[| |]]; reflexivity. Qed.


(** The shape of every result of [binary_round_aux] on a non-negative
    mantissa: two right shifts to the canonical exponent around one
    rounding step. *)
Lemma binary_round_aux_spec (s : bool) (m e : Z) (l : location) :
  0 <= m ->
  exists mr : Z,
    let e1 := Z.max e (fexp32 (Zdigits2 m + e)) in
    let m1 := m / 2 ^ (e1 - e) in
    let e2 := Z.max e1 (fexp32 (Zdigits2 mr + e1)) in
    let m2 := mr / 2 ^ (e2 - e1) in
    (mr = m1 \/ mr = m1 + 1) /\
    binary_round_aux prec emax s m e l =
    match m2 with
    | Z0 => S754_zero s
    | Zpos p => if e2 <=? 104 then S754_finite s p e2 else S754_infinity s
    | Zneg _ => S754_nan
    end.
Proof.
  intros Hm. unfold binary_round_aux, shr_fexp.
  change (fexp prec emax) with fexp32.
  pose proof (shr_spec (shr_record_of_loc m l) e
                (fexp32 (Zdigits2 m + e) - e)) as H1.
  rewrite shr_record_of_loc_m in H1. specialize (H1 Hm).
  destruct (shr (shr_record_of_loc m l) e (fexp32 (Zdigits2 m + e) - e))
    as [mrs' e'] eqn:E1. cbn [fst snd] in H1. destruct H1 as [Hm1 He1].
  set (mr := round_nearest_even (shr_m mrs') (loc_of_shr_record mrs')).
  exists mr. cbv zeta.
  replace (Z.max e (fexp32 (Zdigits2 m + e))) with e' by lia.
  replace (e' - e) with (Z.max 0 (fexp32 (Zdigits2 m + e) - e)) by lia.
  rewrite <- Hm1.
  split; [apply round_nearest_even_cases|].
  assert (Hmr : 0 <= mr).
  { assert (0 <= shr_m mrs').
    { rewrite Hm1. apply Z.div_pos; [lia | apply Z.pow_pos_nonneg; lia]. }
    destruct (round_nearest_even_cases (shr_m mrs') (loc_of_shr_record mrs'));
      unfold mr; lia. }
  pose proof (shr_spec (shr_record_of_loc mr loc_Exact) e'
                (fexp32 (Zdigits2 mr + e') - e')) as H2.
  rewrite shr_record_of_loc_m in H2. specialize (H2 Hmr).
  destruct (shr (shr_record_of_loc mr loc_Exact) e' (fexp32 (Zdigits2 mr + e') - e'))
    as [mrs'' e''] eqn:E2. cbn [fst snd] in H2. destruct H2 as [Hm2 He2].
  replace (Z.max e' (fexp32 (Zdigits2 mr + e'))) with e'' by lia.
  replace (e'' - e') with (Z.max 0 (fexp32 (Zdigits2 mr + e') - e')) by lia.
  rewrite <- Hm2. reflexivity.
Qed.

Lemma Zdigits2_unique (m n : Z) :
  0 < n -> 2 ^ (n - 1) <= m < 2 ^ n -> Zdigits2 m = n.
Proof.
  intros Hn [Hlo Hhi].
  assert (0 < 2 ^ (n - 1)) by (apply Z.pow_pos_nonneg; lia).
  pose proof (Zdigits2_lt m n ltac:(lia) ltac:(lia) Hhi).
  pose proof (Zdigits2_ge m (n - 1) ltac:(lia) Hlo). lia.
Qed.

Lemma Zdigits2_pos_bounds (m : Z) :
  0 < m -> 0 < Zdigits2 m /\ 2 ^ (Zdigits2 m - 1) <= m < 2 ^ Zdigits2 m.
Proof.
  intros Hm. destruct m as [|p|p]; try lia. cbn [Zdigits2].
  split; [lia | apply Zdigits2_bounds].
Qed.

Lemma Zdigits2_div_pow2 (m k : Z) :
  0 < m -> 0 <= k < Zdigits2 m -> Zdigits2 (m / 2 ^ k) = Zdigits2 m - k.
Proof.
  intros Hm Hk. destruct (Zdigits2_pos_bounds m Hm) as (Hd & Hlo & Hhi).
  assert (H2k : 0 < 2 ^ k) by (apply Z.pow_pos_nonneg; lia).
  apply Zdigits2_unique; [lia|]. split.
  - apply Z.div_le_lower_bound; [lia|].
    rewrite <- Z.pow_add_r by lia.
    replace (k + (Zdigits2 m - k - 1)) with (Zdigits2 m - 1) by lia. exact Hlo.
  - apply Z.div_lt_upper_bound; [lia|].
    rewrite <- Z.pow_add_r by lia.
    replace (k + (Zdigits2 m - k)) with (Zdigits2 m) by lia. exact Hhi.
Qed.

Lemma div_pow2_small (m k : Z) :
  0 <= m -> Zdigits2 m <= k -> m / 2 ^ k = 0.
Proof.
  intros Hm Hk. apply Z.div_small. split; [lia|].
  destruct (Z.eq_dec m 0) as [->|Hne].
  - apply Z.pow_pos_nonneg; [lia|]. simpl in Hk. lia.
  - destruct (Zdigits2_pos_bounds m ltac:(lia)) as (Hd & _ & Hhi).
    assert (2 ^ Zdigits2 m <= 2 ^ k) by (apply Z.pow_le_mono_r; lia). lia.
Qed.

Lemma Zdigits2_succ (m : Z) :
  0 < m ->
  Zdigits2 (m + 1) = Zdigits2 m \/
  (m + 1 = 2 ^ Zdigits2 m /\ Zdigits2 (m + 1) = Zdigits2 m + 1).
Proof.
  intros Hm. destruct (Zdigits2_pos_bounds m Hm) as (Hd & Hlo & Hhi).
  destruct (Z.eq_dec (m + 1) (2 ^ Zdigits2 m)) as [E|Hne].
  - right. split; [exact E|]. apply Zdigits2_unique; [lia|].
    replace (Zdigits2 m + 1 - 1) with (Zdigits2 m) by lia.
    rewrite Z.pow_add_r, Z.pow_1_r by lia. lia.
  - left. apply Zdigits2_unique; [lia|]. lia.
Qed.

Lemma fexp32_ge (x : Z) : -149 <= fexp32 x.
Proof. unfold fexp32. lia. Qed.

(** The result of rounding an aligned positive mantissa is a valid float
    at the canonical exponent [c] of the argument, or one above it when the
    rounding carried into a new bit. *)
Lemma binary_round_aux_aligned (s : bool) (m e : Z) (l : location) :
  0 < m -> e <= fexp32 (Zdigits2 m + e) ->
  let c := fexp32 (Zdigits2 m + e) in
  match binary_round_aux prec emax s m e l with
  | S754_zero s' => s' = s /\ c = -149
  | S754_infinity s' => s' = s /\ 104 <= c
  | S754_nan => False
  | S754_finite s' p e2 =>
      s' = s /\ fexp32 (Zpos (digits2_pos p) + e2) = e2 /\ e2 <= 104 /\
      (e2 = c \/ (e2 = c + 1 /\ p = 8388608%positive))
  end.
Proof.
  intros Hm Hal c.
  destruct (binary_round_aux_spec s m e l ltac:(lia)) as (mr & Hmr & ->).
  cbv zeta in Hmr |- *.
  assert (Emax : Z.max e (fexp32 (Zdigits2 m + e)) = c) by (unfold c; lia).
  rewrite !Emax in Hmr |- *. clear Emax.
  set (k := c - e) in *.
  assert (Hk : 0 <= k) by (unfold k; lia).
  assert (H2k : 0 < 2 ^ k) by (apply Z.pow_pos_nonneg; lia).
  set (m1 := m / 2 ^ k) in *.
  assert (Hm1 : 0 <= m1) by (apply Z.div_pos; lia).
  destruct (Zdigits2_pos_bounds m Hm) as (Hd & _ & _).
  pose proof (fexp32_ge (Zdigits2 m + e)) as Hc. fold c in Hc.
  (* the digits of [mr] put it at exponent [c], or one above *)
  assert (Hcases :
            (mr = 0 /\ c = -149) \/
            (0 < mr /\ fexp32 (Zdigits2 mr + c) = c) \/
            (mr = 2 ^ 24 /\ fexp32 (Zdigits2 mr + c) = c + 1)).
  { destruct (Z.le_gt_cases (Zdigits2 m) k) as [Hsmall|Hbig].
    - (* everything shifted out: only at the subnormal exponent *)
      assert (E1 : m1 = 0) by (apply div_pow2_small; lia).
      assert (Ec : c = -149).
      { clear - Hsmall Hd Hal. subst k c. unfold fexp32 in *.
        revert Hal Hd Hsmall. generalize (Zdigits2 m). intros; lia. }
      destruct Hmr as [->| ->]; [left; split; [exact E1 | exact Ec]|].
      right; left. rewrite E1. split; [reflexivity|]. rewrite Ec. reflexivity.
    - assert (Hd1 : Zdigits2 m1 = Zdigits2 m - k)
        by (apply Zdigits2_div_pow2; lia).
      assert (Hm1pos : 0 < m1).
      { destruct (Z.eq_dec m1 0) as [E|]; [|lia].
        rewrite E in Hd1. simpl in Hd1. lia. }
      assert (Hc1 : fexp32 (Zdigits2 m1 + c) = c).
      { rewrite Hd1. replace (Zdigits2 m - k + c) with (Zdigits2 m + e)
          by (unfold k; lia). reflexivity. }
      destruct Hmr as [->| ->]; [right; left; split; assumption|].
      destruct (Zdigits2_succ m1 Hm1pos) as [E|[Epow E]].
      + right; left. split; [lia|]. rewrite E. exact Hc1.
      + destruct (Z.eq_dec (Zdigits2 m1) 24) as [E24|Hne].
        * right; right. split; [rewrite Epow, E24; reflexivity|].
          rewrite E, E24. rewrite E24 in Hc1. clear - Hc1.
          unfold fexp32 in *. lia.
        * right; left. split; [lia|]. rewrite E.
          assert (Hd24 : Zdigits2 m1 <= 24).
          { clear - Hc1 Hm1pos. destruct (Zdigits2_pos_bounds m1 Hm1pos).
            unfold fexp32 in Hc1. lia. }
          clear - Hc1 Hne Hd24. unfold fexp32 in *. lia. }
  destruct Hcases as [[-> Ec]|[[Hpos Hcan]|[-> Hcan]]].
  - (* rounded to zero *)
    cbn [Zdigits2 Z.add]. rewrite Z.div_0_l by
      (apply Z.pow_nonzero; unfold fexp32; lia). split; [reflexivity | exact Ec].
  - rewrite Hcan. replace (Z.max c c) with c by lia.
    rewrite Z.sub_diag, Z.pow_0_r, Z.div_1_r.
    destruct mr as [|p|p]; try lia.
    destruct (c <=? 104) eqn:E104;
      [|apply Z.leb_gt in E104; split; [reflexivity | lia]].
    apply Z.leb_le in E104. cbn [Zdigits2] in Hcan. auto.
  - rewrite Hcan. replace (Z.max c (c + 1)) with (c + 1) by lia.
    replace (c + 1 - c) with 1 by lia.
    change (2 ^ 24 / 2 ^ 1) with 8388608.
    destruct (c + 1 <=? 104) eqn:E104;
      [|apply Z.leb_gt in E104; split; [reflexivity | lia]].
    apply Z.leb_le in E104.
    split; [reflexivity|]. split; [|split; [exact E104 | right; auto]].
    cbn [digits2_pos Pos.succ]. unfold fexp32 in *. lia.
Qed.

(** ** Left alignment *)

Lemma iter_xO_spec (p d : positive) :
  Zpos (Pos.iter xO p d) = Zpos p * 2 ^ Zpos d /\
  Zpos (digits2_pos (Pos.iter xO p d)) = Zpos (digits2_pos p) + Zpos d.
Proof.
  induction d as [|d IH] using Pos.peano_ind.
  - cbn [Pos.iter digits2_pos]. rewrite Pos2Z.inj_xO, Pos2Z.inj_succ. lia.
  - rewrite Pos.iter_succ. cbn [digits2_pos].
    rewrite Pos2Z.inj_xO, !Pos2Z.inj_succ, Z.pow_succ_r by lia.
    destruct IH as [-> ->]. lia.
Qed.

(** [shl_align] keeps the value and moves the exponent down to [e'] when
    that is lower. *)
Lemma shl_align_spec (p : positive) (e e' : Z) :
  let ez := Z.min e e' in
  snd (shl_align p e e') = ez /\
  Zpos (fst (shl_align p e e')) = Zpos p * 2 ^ (e - ez) /\
  Zpos (digits2_pos (fst (shl_align p e e')))
  = Zpos (digits2_pos p) + (e - ez).
Proof.
  cbv zeta. unfold shl_align. destruct (e' - e) as [|d|d] eqn:E; cbn [fst snd].
  - replace (Z.min e e') with e by lia. rewrite Z.sub_diag. cbn. lia.
  - replace (Z.min e e') with e by lia. rewrite Z.sub_diag. cbn. lia.
  - replace (Z.min e e') with e' by lia.
    replace (e - e') with (Zpos d) by lia.
    destruct (iter_xO_spec p d) as [-> ->]. auto.
Qed.

(** The result of [binary_round]: a valid float at the canonical exponent
    [c] of the argument or, after a carry, one above it. *)
Lemma binary_round_shape (s : bool) (p : positive) (e : Z) :
  let c := fexp32 (Zpos (digits2_pos p) + e) in
  match binary_round prec emax s p e with
  | S754_zero s' => s' = s /\ c = -149
  | S754_infinity s' => s' = s /\ 104 <= c
  | S754_nan => False
  | S754_finite s' q e2 =>
      s' = s /\ fexp32 (Zpos (digits2_pos q) + e2) = e2 /\ e2 <= 104 /\
      (e2 = c \/ (e2 = c + 1 /\ q = 8388608%positive))
  end.
Proof.
  cbv zeta. unfold binary_round. change (fexp prec emax) with fexp32.
  destruct (shl_align_spec p e (fexp32 (Zpos (digits2_pos p) + e)))
    as (Hez & _ & Hd). cbv zeta in *.
  destruct (shl_align p e (fexp32 (Zpos (digits2_pos p) + e))) as [mz ez].
  cbn [fst snd] in *.
  assert (Hsum : Zdigits2 (Zpos mz) + ez = Zpos (digits2_pos p) + e).
  { cbn [Zdigits2]. lia. }
  pose proof (binary_round_aux_aligned s (Zpos mz) ez loc_Exact) as H.
  cbv zeta in H. rewrite Hsum in H. apply H; lia.
Qed.

(** ** Exact conversions *)

(** A 24-bit mantissa at an exponent in range is left as it is. *)
Lemma binary_round_aux_exact (s : bool) (m : positive) (e : Z) :
  Zpos (digits2_pos m) = 24 -> -149 <= e <= 104 ->
  binary_round_aux prec emax s (Zpos m) e loc_Exact = S754_finite s m e.
Proof.
  intros Hd He.
  unfold binary_round_aux, shr_fexp, fexp, SpecFloat.emin, prec, emax.
  cbn [Zdigits2 shr_record_of_loc]. rewrite Hd.
  replace (Z.max (24 + e - 24) (3 - 128 - 24) - e) with 0 by lia.
  cbn [shr shr_m loc_of_shr_record round_nearest_even Zdigits2 shr_record_of_loc].
  rewrite Hd.
  replace (Z.max (24 + e - 24) (3 - 128 - 24) - e) with 0 by lia.
  cbn [shr shr_m].
  replace (e <=? 128 - 24) with true by (symmetry; apply Z.leb_le; lia).
  reflexivity.
Qed.

(** Multiplying by 1.0f leaves a normal float as it is. *)
Lemma fmul_one_l (s : bool) (m : positive) (e : Z) :
  Zpos (digits2_pos m) = 24 -> -149 <= e <= 104 ->
  (one * S754_finite s m e)%f32 = S754_finite s m e.
Proof.
  intros Hd He.
  change one with (S754_finite false 8388608 (-23)).
  unfold fmul, SFmul. cbn [xorb Pos.mul].
  unfold binary_round_aux, shr_fexp, fexp, SpecFloat.emin, prec, emax.
  cbn [Zdigits2 shr_record_of_loc digits2_pos].
  injection Hd as Hd'. rewrite Hd'. cbn [Pos.succ].
  replace (Z.max (47 + (-23 + e) - 24) (3 - 128 - 24) - (-23 + e)) with 23 by lia.
  cbn [shr iter_pos shr_1 orb shr_m loc_of_shr_record round_nearest_even
       Zdigits2 shr_record_of_loc].
  rewrite Hd'.
  replace (Z.max (24 + (-23 + e + 23) - 24) (3 - 128 - 24) - (-23 + e + 23))
    with 0 by lia.
  cbn [shr shr_m].
  replace (-23 + e + 23 <=? 128 - 24) with true by (symmetry; apply Z.leb_le; lia).
  f_equal. lia.
Qed.

(** An int of magnitude below 2^24 converts exactly, to a normal float. *)
Lemma binary_round_int_exact (s : bool) (p : positive) :
  Zpos p < 2 ^ 24 ->
  exists (m : positive) (e : Z),
    binary_round prec emax s p 0 = S754_finite s m e /\
    Zpos (digits2_pos m) = 24 /\ -23 <= e <= 0 /\
    Z.shiftl (Zpos m) e = Zpos p.
Proof.
  intros Hp. unfold binary_round. change (fexp prec emax) with fexp32.
  assert (Hd : Zpos (digits2_pos p) <= 24).
  { apply (Zdigits2_lt (Zpos p)); lia. }
  destruct (shl_align_spec p 0 (fexp32 (Zpos (digits2_pos p) + 0)))
    as (Hez & Hval & Hdig). cbv zeta in *.
  destruct (shl_align p 0 (fexp32 (Zpos (digits2_pos p) + 0))) as [mz ez].
  cbn [fst snd] in *.
  assert (Eez : ez = Zpos (digits2_pos p) - 24).
  { rewrite Hez. unfold fexp32. lia. }
  rewrite <- Hez in Hval, Hdig. clear Hez.
  exists mz, ez. split; [|split; [lia|split; [lia|]]].
  - apply binary_round_aux_exact; lia.
  - rewrite Hval. assert (Hk : 0 <= 0 - ez) by lia.
    assert (Ek : ez = - (0 - ez)) by lia.
    revert Hk Ek. generalize (0 - ez). intros k Hk ->.
    rewrite Z.shiftl_opp_r, Z.shiftr_div_pow2 by lia.
    apply Z.div_mul. apply Z.pow_nonzero; lia.
Qed.

(** ** Ints as floats *)


(** Every int converts to a finite float. *)
Lemma of_int_finite (c : Z) : int32 c -> is_finite (of_int c) = true.
Proof.
  unfold int32, INT_MIN, INT_MAX, of_int. intros Hc.
  destruct c as [|p|p]; cbn [binary_normalize]; [reflexivity| |];
    [pose proof (binary_round_shape false p 0) as H
    |pose proof (binary_round_shape true p 0) as H];
    cbv zeta in H;
    assert (Hd : Zpos (digits2_pos p) <= 32)
      by (apply (Zdigits2_lt (Zpos p)); lia);
    destruct (binary_round prec emax _ p 0); try reflexivity;
    try contradiction; destruct H as [_ H]; unfold fexp32 in H; lia.
Qed.

(** An int of magnitude at most 2^24 converts to a float that is zero or
    normal, and that casts back to the int. *)
Lemma of_int_exact (c : Z) :
  exact24 c ->
  (c = 0 /\ of_int c = zero) \/
  exists (s : bool) (m : positive) (e : Z),
    of_int c = S754_finite s m e /\
    Zpos (digits2_pos m) = 24 /\ -149 <= e <= 104 /\
    f2i (S754_finite s m e) = Some c.
Proof.
  unfold exact24. intros Hc. destruct c as [|p|p]; [left; split; reflexivity| |];
    right; unfold of_int; cbn [binary_normalize].
  - destruct (Z.eq_dec (Zpos p) (2 ^ 24)) as [E|Hne].
    + injection E as ->. exists false, 8388608%positive, 1.
      repeat split; vm_compute; congruence.
    + destruct (binary_round_int_exact false p ltac:(lia))
        as (m & e & Hr & Hd & He & Hv).
      exists false, m, e. rewrite Hr. repeat split; try lia.
      cbn [f2i]. rewrite Hv.
      replace (in_int_range (Zpos p)) with true; [reflexivity|].
      symmetry. unfold in_int_range, INT_MIN, INT_MAX.
      apply andb_true_intro. split; apply Z.leb_le; lia.
  - destruct (Z.eq_dec (Zpos p) (2 ^ 24)) as [E|Hne].
    + injection E as ->. exists true, 8388608%positive, 1.
      repeat split; vm_compute; congruence.
    + destruct (binary_round_int_exact true p ltac:(lia))
        as (m & e & Hr & Hd & He & Hv).
      exists true, m, e. rewrite Hr. repeat split; try lia.
      cbn [f2i]. rewrite Hv.
      replace (in_int_range (- Zpos p)) with true; [reflexivity|].
      symmetry. unfold in_int_range, INT_MIN, INT_MAX.
      apply andb_true_intro. split; apply Z.leb_le; lia.
Qed.

(** ** The Bezier evaluator at the end points *)

Lemma fmul_zero_l (s : bool) (x : float) :
  is_finite x = true ->
  exists s', (S754_zero s * x)%f32 = S754_zero s'.
Proof.
  destruct x as [sx|sx| |sx m e]; cbn; try discriminate; intros _; eauto.
Qed.

Lemma fadd_zero_zero (s s' : bool) :
  exists s'', (S754_zero s + S754_zero s')%f32 = S754_zero s''.
Proof. destruct s, s'; cbn; eauto. Qed.

Lemma bezierAxis_0 (c0 c1 c2 c3 : Z) :
  exact24 c0 -> int32 c1 -> int32 c2 -> int32 c3 ->
  f2i (bezierAxis (of_int 0) c0 c1 c2 c3) = Some c0.
Proof.
  intros H0 H1 H2 H3.
  change (bezierAxis (of_int 0) c0 c1 c2 c3)
    with (one * of_int c0 + S754_zero false * of_int c1
          + S754_zero false * of_int c2 + S754_zero false * of_int c3)%f32.
  destruct (fmul_zero_l false _ (of_int_finite c1 H1)) as (s1 & ->).
  destruct (fmul_zero_l false _ (of_int_finite c2 H2)) as (s2 & ->).
  destruct (fmul_zero_l false _ (of_int_finite c3 H3)) as (s3 & ->).
  destruct (of_int_exact c0 H0) as [[-> ->]|(s & m & e & -> & Hd & He & Hv)].
  - change (one * zero)%f32 with zero.
    destruct s1, s2, s3; reflexivity.
  - rewrite (fmul_one_l s m e Hd He). cbn [fadd SFadd]. exact Hv.
Qed.

Lemma bezierAxis_1 (c0 c1 c2 c3 : Z) :
  int32 c0 -> int32 c1 -> int32 c2 -> exact24 c3 ->
  f2i (bezierAxis (of_int 1) c0 c1 c2 c3) = Some c3.
Proof.
  intros H0 H1 H2 H3.
  change (bezierAxis (of_int 1) c0 c1 c2 c3)
    with (S754_zero false * of_int c0 + S754_zero false * of_int c1
          + S754_zero false * of_int c2 + one * of_int c3)%f32.
  destruct (fmul_zero_l false _ (of_int_finite c0 H0)) as (s0 & ->).
  destruct (fmul_zero_l false _ (of_int_finite c1 H1)) as (s1 & ->).
  destruct (fmul_zero_l false _ (of_int_finite c2 H2)) as (s2 & ->).
  destruct (fadd_zero_zero s0 s1) as (s01 & ->).
  destruct (fadd_zero_zero s01 s2) as (s012 & ->).
  destruct (of_int_exact c3 H3) as [[-> ->]|(s & m & e & -> & Hd & He & Hv)].
  - change (one * zero)%f32 with zero.
    destruct s012; reflexivity.
  - rewrite (fmul_one_l s m e Hd He). cbn [fadd SFadd]. exact Hv.
Qed.

(** ** Valid floats, signs and the unit interval *)


Lemma valid32_finite (s : bool) (m : positive) (e : Z) :
  valid32 (S754_finite s m e) <->
  fexp32 (Zpos (digits2_pos m) + e) = e /\ e <= 104.
Proof.
  unfold valid32, valid_binary, bounded, canonical_mantissa.
  change (fexp prec emax) with fexp32. change (emax - prec) with 104.
  rewrite andb_true_iff, Z.eqb_eq, Z.leb_le. reflexivity.
Qed.



Lemma binary_round_signed (s : bool) (p : positive) (e : Z) :
  signed s (binary_round prec emax s p e).
Proof.
  pose proof (binary_round_shape s p e) as H. cbv zeta in H.
  destruct (binary_round prec emax s p e); cbn [signed]; auto.
  - tauto.
  - destruct H as (Hs & Hc & He & _). split; [exact Hs|].
    apply valid32_finite. auto.
Qed.

Lemma signed_not_nan (s : bool) (x : float) : signed s x -> is_nan x = false.
Proof. destruct x; cbn; auto. contradiction. Qed.

Lemma signed_valid (s : bool) (x : float) : signed s x -> valid32 x.
Proof. destruct x; cbn; try reflexivity; tauto. Qed.

Lemma signed_false_lower (x : float) : signed false x -> (x <? zero)%f32 = false.
Proof.
  destruct x as [s|s| |s m e]; cbn [signed]; intros H.
  - reflexivity.
  - subst s. reflexivity.
  - contradiction.
  - destruct H as [-> _]. reflexivity.
Qed.

Lemma signed_true_upper (x : float) : signed true x -> (one <? x)%f32 = false.
Proof.
  destruct x as [s|s| |s m e]; cbn [signed]; intros H.
  - reflexivity.
  - subst s. reflexivity.
  - contradiction.
  - destruct H as [-> _]. reflexivity.
Qed.

(** Comparisons are total away from NaN. *)
Lemma SFcompare_total (a b : float) :
  is_nan a = false -> is_nan b = false -> exists c, SFcompare a b = Some c.
Proof.
  destruct a, b; cbn; try discriminate; intros _ _; eauto.
Qed.

Lemma not_fltb_fleb (a b : float) :
  is_nan a = false -> is_nan b = false ->
  (b <? a)%f32 = false -> (a <=? b)%f32 = true.
Proof.
  intros Ha Hb. destruct (SFcompare_total a b Ha Hb) as (c & Hc).
  unfold fltb, fleb, SFltb, SFleb. rewrite (SFcompare_swap a b), Hc.
  destruct c; cbn; congruence.
Qed.

(** What lies in the unit interval: a zero, the float 1, or a positive
    float whose bit length puts it below 1. *)
Lemma one_eq : one = S754_finite false 8388608 (-23).
Proof. vm_compute. reflexivity. Qed.

Lemma unitT_cases (t : float) :
  unitT t ->
  (exists s, t = S754_zero s) \/
  exists (m : positive) (e : Z),
    t = S754_finite false m e /\ valid32 t /\
    (Zpos (digits2_pos m) + e <= 0 \/ t = one).
Proof.
  intros (Hv & H0 & H1). rewrite one_eq in *.
  unfold fleb, SFleb in H0, H1.
  assert (Hq : Zpos 8388608 = 2 ^ 23) by reflexivity.
  revert H1 Hq. generalize 8388608%positive. intros q H1 Hq.
  destruct t as [s|s| |s m e].
  - left. eauto.
  - exfalso. destruct s; cbn [SFcompare zero] in H0, H1; discriminate.
  - exfalso. cbn [SFcompare zero] in H0. discriminate.
  - right. destruct s; [exfalso; cbn [SFcompare zero] in H0; discriminate|].
    exists m, e.
    split; [reflexivity|]. split; [exact Hv|].
    apply valid32_finite in Hv as [Hc He].
    cbn [SFcompare] in H1.
    destruct (Z.compare_spec e (-23)) as [E|E|E].
    + right. subst e. f_equal.
      assert (Hd : Zpos (digits2_pos m) = 24) by (unfold fexp32 in Hc; lia).
      destruct (Zdigits2_bounds m) as [Hlo _]. rewrite Hd in Hlo.
      change (Pos.compare_cont Eq m q) with (Pos.compare m q) in H1.
      change (2 ^ (24 - 1)) with (2 ^ 23) in Hlo. rewrite <- Hq in Hlo.
      destruct (Pos.compare_spec m q) as [E|E|E]; try discriminate;
        [exact E|]. clear - Hlo E. lia.
    + left. unfold fexp32 in Hc. lia.
    + discriminate.
Qed.

(** ** The arithmetic of updateTarget *)

(** [dir * speedT] for the two directions. *)
Lemma speed_up : (of_int 1 * lit 35 100)%f32 = S754_finite false 11744051 (-25).
Proof. vm_compute. reflexivity. Qed.

Lemma speed_down : (of_int (-1) * lit 35 100)%f32 = S754_finite true 11744051 (-25).
Proof. vm_compute. reflexivity. Qed.

(** The step [dir * speedT * dt] for a positive [dt]: never a NaN, and of
    the sign of the direction unless it underflows to zero. *)
Lemma fmul_speed (sA : bool) (dt : float) :
  (zero <? dt)%f32 = true ->
  signed sA (S754_finite sA 11744051 (-25) * dt)%f32.
Proof.
  destruct dt as [s|s| |s md ed]; try discriminate.
  - destruct s; [discriminate|]. intros _. cbn. destruct sA; reflexivity.
  - destruct s; [discriminate|]. intros _.
    unfold fmul, SFmul. rewrite xorb_false_r.
    assert (Hm : 2 ^ 23 <= Zpos (11744051 * md)).
    { rewrite Pos2Z.inj_mul. change (2 ^ 23) with 8388608. lia. }
    pose proof (Zdigits2_ge _ 23 ltac:(lia) Hm) as Hd.
    pose proof (binary_round_aux_aligned sA (Zpos (11744051 * md)) (-25 + ed)
                  loc_Exact ltac:(lia)) as H.
    cbv zeta in H.
    assert (Hal : -25 + ed <= fexp32 (Zdigits2 (Zpos (11744051 * md)) + (-25 + ed))).
    { revert Hd. generalize (Zdigits2 (Zpos (11744051 * md))).
      unfold fexp32. intros; lia. }
    specialize (H Hal).
    destruct (binary_round_aux prec emax sA (Zpos (11744051 * md)) (-25 + ed) loc_Exact);
      cbn [signed]; auto; try tauto.
    destruct H as (Hs & Hc & He & _). split; [exact Hs|].
    apply valid32_finite. auto.
Qed.

(** The sum of two finite floats, with the alignment spelled out. *)
Lemma fadd_finite (sx : bool) (mx : positive) (ex : Z)
                  (sy : bool) (my : positive) (ey : Z) :
  let ez := Z.min ex ey in
  exists mx' my' : positive,
    (S754_finite sx mx ex + S754_finite sy my ey)%f32
    = binary_normalize prec emax
        (cond_Zopp sx (Zpos mx') + cond_Zopp sy (Zpos my')) ez false /\
    Zpos mx' = Zpos mx * 2 ^ (ex - ez) /\
    Zpos (digits2_pos mx') = Zpos (digits2_pos mx) + (ex - ez) /\
    Zpos my' = Zpos my * 2 ^ (ey - ez).
Proof.
  cbv zeta.
  destruct (shl_align_spec mx ex (Z.min ex ey)) as (_ & Hx & Hdx).
  destruct (shl_align_spec my ey (Z.min ex ey)) as (_ & Hy & _).
  cbv zeta in *.
  replace (Z.min ex (Z.min ex ey)) with (Z.min ex ey) in * by lia.
  replace (Z.min ey (Z.min ex ey)) with (Z.min ex ey) in * by lia.
  exists (fst (shl_align mx ex (Z.min ex ey))),
         (fst (shl_align my ey (Z.min ex ey))).
  split; [reflexivity|]. auto.
Qed.

Lemma binary_normalize_signed (s : bool) (z e : Z) :
  (if s then z <= 0 else 0 <= z) ->
  signed s (binary_normalize prec emax z e false).
Proof.
  destruct z as [|p|p]; cbn [binary_normalize signed]; [trivial| |]; intros H.
  - destruct s; [lia|]. apply binary_round_signed.
  - destruct s; [|lia]. apply binary_round_signed.
Qed.

(** Moving up from the unit interval never goes below zero. *)
Lemma fadd_unit_up (t b : float) :
  unitT t -> signed false b -> signed false (t + b)%f32.
Proof.
  intros Ht Hb.
  destruct (unitT_cases t Ht) as [(s & ->)|(m & e & -> & Hv & _)].
  - destruct b as [sb|sb| |sb mb eb]; cbn [signed] in Hb.
    + destruct s, sb; exact I.
    + cbn. exact Hb.
    + contradiction.
    + cbn [fadd SFadd signed]. exact Hb.
  - destruct b as [sb|sb| |sb mb eb]; cbn [signed] in Hb.
    + cbn. auto.
    + cbn. exact Hb.
    + contradiction.
    + destruct Hb as [-> _].
      destruct (fadd_finite false m e false mb eb) as (mx' & my' & -> & _).
      apply binary_normalize_signed. cbn [cond_Zopp]. lia.
Qed.

Lemma fltb_one_finite (q : positive) (e2 : Z) :
  e2 < -23 \/ (e2 = -23 /\ q = 8388608%positive) ->
  (one <? S754_finite false q e2)%f32 = false.
Proof.
  rewrite one_eq. intros [H|[-> ->]]; [|vm_compute; reflexivity].
  unfold fltb, SFltb. cbn [SFcompare].
  destruct (Z.compare_spec (-23) e2); [lia | lia | reflexivity].
Qed.

(** Moving down from the unit interval never goes above one. *)
Lemma fadd_unit_down (t b : float) :
  unitT t -> signed true b ->
  is_nan (t + b)%f32 = false /\ valid32 (t + b)%f32 /\
  (one <? t + b)%f32 = false.
Proof.
  intros Ht Hb.
  assert (Hsigned : forall x, signed true x ->
            is_nan x = false /\ valid32 x /\ (one <? x)%f32 = false).
  { intros x Hx. split; [exact (signed_not_nan _ _ Hx)|].
    split; [exact (signed_valid _ _ Hx) | exact (signed_true_upper _ Hx)]. }
  assert (Hself : is_nan t = false /\ valid32 t /\ (one <? t)%f32 = false).
  { destruct Ht as (Hv & H0 & H1). split; [exact (fleb_not_nan_l _ _ H1)|].
    split; [exact Hv | exact (fleb_not_fltb _ _ H1)]. }
  destruct (unitT_cases t Ht) as [(s & ->)|(m & e & -> & Hv & Hsmall)].
  - destruct b as [sb|sb| |sb mb eb]; cbn [signed] in Hb.
    + destruct s, sb; repeat split; reflexivity.
    + apply Hsigned. cbn. exact Hb.
    + contradiction.
    + apply Hsigned. cbn [fadd SFadd signed]. exact Hb.
  - destruct b as [sb|sb| |sb mb eb]; cbn [signed] in Hb.
    + exact Hself.
    + apply Hsigned. cbn. exact Hb.
    + contradiction.
    + destruct Hb as [-> _].
      destruct (fadd_finite false m e true mb eb)
        as (mx' & my' & -> & Hx & Hdx & Hy).
      cbv zeta in *. cbn [cond_Zopp].
      set (ez := Z.min e eb) in *.
      destruct (Zpos mx' + - Zpos my') as [|p|p] eqn:EM.
      * repeat split; reflexivity.
      * (* a positive difference, below [t] *)
        cbn [binary_normalize].
        assert (HD : Zpos (digits2_pos p) + ez <= 0).
        { assert (Hlt : Zpos p < Zpos mx') by lia.
          destruct Hsmall as [Hs|Hone].
          - pose proof (Zdigits2_mono (Zpos p) (Zpos mx') ltac:(lia)) as Hmono.
            cbn [Zdigits2] in Hmono. lia.
          - rewrite one_eq in Hone. injection Hone as -> ->.
            change (Zpos 8388608) with (2 ^ 23) in Hx.
            rewrite <- Z.pow_add_r in Hx by lia.
            rewrite Hx in Hlt.
            pose proof (Zdigits2_lt (Zpos p) (23 + (-23 - ez))
                          ltac:(lia) ltac:(lia) Hlt) as Hd.
            cbn [Zdigits2] in Hd. lia. }
        pose proof (binary_round_shape false p ez) as H. cbv zeta in H.
        destruct (binary_round prec emax false p ez) as [s'|s'| |s' q e2].
        -- repeat split; reflexivity.
        -- exfalso. destruct H as [_ H]. unfold fexp32 in H. lia.
        -- contradiction.
        -- destruct H as (-> & Hc & He & Hsh).
           split; [reflexivity|]. split; [apply valid32_finite; auto|].
           apply fltb_one_finite. unfold fexp32 in Hsh. lia.
      * cbn [binary_normalize]. apply Hsigned, binary_round_signed.
Qed.




Lemma unitT_one : unitT (of_int 1).
Proof. repeat split; vm_compute; reflexivity. Qed.

Lemma unitT_zero : unitT (of_int 0).
Proof. repeat split; vm_compute; reflexivity. Qed.

Lemma updateTarget_eq (dt : float) (s : State) :
  let r := rawT dt s in
  let tg := target s in
  target (updateTarget dt s) =
  if (r >? of_int 1)%f32
  then Target.mk (Target.r tg) (Target.p0 tg) (Target.p1 tg) (Target.p2 tg)
                 (Target.p3 tg) (of_int 1) (-1)
  else if (r <? of_int 0)%f32
       then Target.mk (Target.r tg) (Target.p0 tg) (Target.p1 tg) (Target.p2 tg)
                      (Target.p3 tg) (of_int 0) 1
       else Target.mk (Target.r tg) (Target.p0 tg) (Target.p1 tg) (Target.p2 tg)
                      (Target.p3 tg) r (Target.dir tg).
Proof.
  cbv zeta. unfold updateTarget. fold (rawT dt s).
  destruct (rawT dt s >? of_int 1)%f32.
  - change (of_int 1 <? of_int 0)%f32 with false. reflexivity.
  - destruct (rawT dt s <? of_int 0)%f32; reflexivity.
Qed.

(** One tick of the target updater from a good state. *)
Lemma updateTarget_step (dt : float) (s : State) :
  goodTarget s -> (zero <? dt)%f32 = true ->
  let r := rawT dt s in
  let s' := updateTarget dt s in
  goodTarget s' /\
  ((r >? one)%f32 = true ->
   Target.dir (target s) = 1 /\ Target.dir (target s') = -1 /\
   Target.t_ (target s') = one) /\
  ((r <? zero)%f32 = true ->
   Target.dir (target s) = -1 /\ Target.dir (target s') = 1 /\
   Target.t_ (target s') = zero) /\
  ((r >? one)%f32 = false -> (r <? zero)%f32 = false ->
   Target.dir (target s') = Target.dir (target s) /\
   Target.t_ (target s') = r).
Proof.
  intros (Ht & Hdir) Hdt. cbv zeta.
  pose proof (updateTarget_eq dt s) as Heq. cbv zeta in Heq.
  change (of_int 1) with one in Heq. change (of_int 0) with zero in Heq.
  unfold goodTarget. rewrite Heq. clear Heq.
  assert (Hr : is_nan (rawT dt s) = false /\ valid32 (rawT dt s) /\
               (Target.dir (target s) = 1 -> (rawT dt s <? zero)%f32 = false) /\
               (Target.dir (target s) = -1 -> (one <? rawT dt s)%f32 = false)).
  { unfold rawT. destruct Hdir as [E|E]; rewrite E.
    - rewrite speed_up.
      pose proof (fadd_unit_up _ _ Ht (fmul_speed false dt Hdt)) as H.
      split; [exact (signed_not_nan _ _ H)|].
      split; [exact (signed_valid _ _ H)|].
      split; [intros _; exact (signed_false_lower _ H) | intros Hc; discriminate Hc].
    - rewrite speed_down.
      destruct (fadd_unit_down _ _ Ht (fmul_speed true dt Hdt)) as (Hn & Hv & Hu).
      split; [exact Hn|]. split; [exact Hv|].
      split; [intros Hc; discriminate Hc | intros _; exact Hu]. }
  destruct Hr as (Hnan & Hval & Hlow & Hup).
  unfold fgtb. change (SFltb one (rawT dt s)) with (one <? rawT dt s)%f32.
  destruct (one <? rawT dt s)%f32 eqn:E1.
  - (* the upper bound is hit *)
    assert (Ed : Target.dir (target s) = 1).
    { destruct Hdir as [E|E]; [exact E|]. pose proof (Hup E). congruence. }
    cbn [Target.t_ Target.dir].
    split; [split; [exact unitT_one | right; reflexivity]|].
    split; [intros _; auto|].
    split; [|discriminate].
    intros Hlt. pose proof (Hlow Ed). congruence.
  - destruct (rawT dt s <? zero)%f32 eqn:E0.
    + (* the lower bound is hit *)
      assert (Ed : Target.dir (target s) = -1).
      { destruct Hdir as [E|E]; [|exact E]. pose proof (Hlow E). congruence. }
      cbn [Target.t_ Target.dir].
      split; [split; [exact unitT_zero | left; reflexivity]|].
      split; [discriminate|]. split; [intros _; auto | discriminate].
    + cbn [Target.t_ Target.dir].
      split; [split; [|exact Hdir]|].
      * split; [exact Hval|].
        split; apply not_fltb_fleb; auto.
      * split; [discriminate|]. split; [discriminate|]. auto.
Qed.

Lemma ticks_good (dts : list float) (s : State) :
  Forall (fun dt => (zero <? dt)%f32 = true) dts ->
  goodTarget s -> goodTarget (ticks dts s).
Proof.
  intros Hdts. revert s. induction Hdts as [|dt dts Hdt _ IH]; intros s Hs.
  - exact Hs.
  - cbn [ticks fold_left]. apply IH.
    exact (proj1 (updateTarget_step dt s Hs Hdt)).
Qed.

(** * The claims *)

Lemma playTick_blocked (dt : float) (s : State) :
  playTick s -> landsInObstacle dt s -> tickBlocked dt s = true.
Proof.
  intros ((Hr & _) & _) (o & Hin & Hsq). unfold tickBlocked.
  rewrite tickCandidate_eq in *. apply (inside_blocks _ _ _ o); assumption.
Qed.

(** C1: in a play-phase tick that reaches the movement step, and whose
    candidate position (position plus velocity times dt, clamped to the
    arena) lands inside an obstacle's square footprint, the player's
    position is unchanged; if moreover the clock has reached nextHitTime and
    the player is not shielded, lives drop by exactly 1 and nextHitTime
    becomes now + 0.5 s; and a second such hit before that time costs no
    life.  [playTick] gathers what "reaches the movement step" means: the
    countdown has not run out (the case of C2), the casts of the tick are
    defined, and the state satisfies the invariant of the reachable
    states. *)
Theorem C1_obstacle_hit (atan2f : float -> float -> float)
    (dt : float) (s : State) :
  playTick s -> landsInObstacle dt s ->
  exists s',
    updateGame atan2f dt s = Some s' /\
    Player.x (player s') = Player.x (player s) /\
    Player.y (player s') = Player.y (player s) /\
    ((timeSec s >=? nextHitTime s)%f32 = true ->
     Player.shielded (player s) = false ->
     Player.lives (player s') = Player.lives (player s) - 1 /\
     nextHitTime s' = (timeSec s + lit 1 2)%f32 /\
     forall (dt2 : float) (s2 : State),
       playTick s2 -> landsInObstacle dt2 s2 ->
       nextHitTime s2 = nextHitTime s' ->
       (timeSec s2 <? timeSec s + lit 1 2)%f32 = true ->
       exists s2',
         updateGame atan2f dt2 s2 = Some s2' /\
         Player.x (player s2') = Player.x (player s2) /\
         Player.y (player s2') = Player.y (player s2) /\
         Player.lives (player s2') = Player.lives (player s2)).
Proof.
  intros Hpt Hland.
  pose proof (playTick_blocked dt s Hpt Hland) as Hb.
  destruct Hpt
    as ((Hr & Htr & Hlives) & Hph & (remaining & Hcd & Hrem) & (cur & Htp)).
  specialize (Hlives Hph).
  destruct (blocked_tick atan2f dt s remaining cur Hph Hcd Hrem Htp Hb)
    as (s' & Hu & Hx & Hy & Hl & Hn & _).
  exists s'. split; [exact Hu|]. split; [exact Hx|]. split; [exact Hy|].
  intros Hnow Hsh.
  rewrite (expireShield_unshielded s Hsh), Hnow in Hl, Hn. cbn [negb andb] in Hl, Hn.
  rewrite wrap32_id in Hl by (unfold INT_MIN, INT_MAX, MAX_LIVES in *; lia).
  split; [lia|]. split; [exact Hn|].
  intros dt2 s2 Hpt2 Hland2 Hn2 Hwin.
  pose proof (playTick_blocked dt2 s2 Hpt2 Hland2) as Hb2.
  destruct Hpt2 as (_ & Hph2 & (rem2 & Hcd2 & Hrem2) & (cur2 & Htp2)).
  destruct (blocked_tick atan2f dt2 s2 rem2 cur2 Hph2 Hcd2 Hrem2 Htp2 Hb2)
    as (s2' & Hu2 & Hx2 & Hy2 & Hl2 & _).
  exists s2'. split; [exact Hu2|]. split; [exact Hx2|]. split; [exact Hy2|].
  rewrite Hl2. rewrite <- Hn, <- Hn2 in Hwin.
  unfold fgeb. change (SFleb (nextHitTime s2) (timeSec s2))
    with (nextHitTime s2 <=? timeSec s2)%f32.
  rewrite (fltb_not_fleb _ _ Hwin), andb_false_r. reflexivity.
Qed.

Lemma advance_playTick (nowMs : Z) (s : State) :
  invariant s ->
  phase (advance nowMs s) = PHASE_PLAY ->
  (exists remaining, countdown (advance nowMs s) = Some remaining /\ 0 < remaining) ->
  (exists cur, targetPos (advance nowMs s) = Some cur) ->
  playTick (advance nowMs s).
Proof.
  intros Hinv Hph Hcd Htp. split; [apply advance_invariant, Hinv|].
  split; [exact Hph|]. split; assumption.
Qed.

Lemma hitScene_reachable : reachable libm0 hitScene.
Proof.
  apply (run_reachable libm0
           [EvMouse 0 0 80 640; EvMouse 0 0 500 496;
            EvKeyboard "r"%char 0 0; EvKeyboard "w"%char 0 0; EvTimer 1000]
           (initScene initial)); [apply reach_init | vm_compute; reflexivity].
Qed.

Lemma hitScene2_reachable : reachable libm0 hitScene2.
Proof.
  apply (reach_step libm0 (EvTimer 1110) hitScene); [apply hitScene_reachable|].
  vm_compute. reflexivity.
Qed.

(** The hypotheses of C1 hold in the scenario: the slow frame at 1110 ms
    lands the player inside the obstacle, and so does the one at 1220 ms. *)
Lemma C1_obstacle_hit_witness :
  exists s',
    updateGame libm0 (timerDt 1110 hitScene) (advance 1110 hitScene) = Some s' /\
    Player.lives (player s') = 4 /\
    exists s2',
      updateGame libm0 (timerDt 1220 hitScene2) (advance 1220 hitScene2) = Some s2' /\
      Player.lives (player s2') = 4.
Proof.
  assert (P1 : playTick (advance 1110 hitScene)).
  { apply advance_playTick.
    - apply (reachable_invariant libm0), hitScene_reachable.
    - vm_compute. reflexivity.
    - exists 60. split; [vm_compute; reflexivity | lia].
    - exists (123, 558). vm_compute. reflexivity. }
  assert (L1 : landsInObstacle (timerDt 1110 hitScene) (advance 1110 hitScene)).
  { exists (Obj.mk (of_int 500) (of_int 204) (of_int 18) OBJ_OBSTACLE).
    vm_compute. split; [left; reflexivity | reflexivity]. }
  destruct (C1_obstacle_hit libm0 _ _ P1 L1) as (s' & Hu & _ & _ & Hhit).
  destruct Hhit as (Hl & Hn & Hsecond);
    [vm_compute; reflexivity | vm_compute; reflexivity |].
  exists s'. split; [exact Hu|].
  split; [rewrite Hl; vm_compute; reflexivity|].
  assert (E : Some s' = Some hitScene2).
  { rewrite <- Hu. vm_compute. reflexivity. }
  apply Some_inj in E.
  assert (P2 : playTick (advance 1220 hitScene2)).
  { apply advance_playTick.
    - apply (reachable_invariant libm0), hitScene2_reachable.
    - vm_compute. reflexivity.
    - exists 60. split; [vm_compute; reflexivity | lia].
    - vm_compute. eexists. reflexivity. }
  assert (L2 : landsInObstacle (timerDt 1220 hitScene2) (advance 1220 hitScene2)).
  { exists (Obj.mk (of_int 500) (of_int 204) (of_int 18) OBJ_OBSTACLE).
    vm_compute. split; [left; reflexivity | reflexivity]. }
  destruct (Hsecond _ _ P2 L2) as (s2' & Hu2 & _ & _ & Hl2).
  - rewrite E. vm_compute. reflexivity.
  - vm_compute. reflexivity.
  - exists s2'. split; [exact Hu2|]. rewrite Hl2. vm_compute. reflexivity.
Defined.

(** C2: a play-phase tick first computes the remaining time as ROUND_TIME
    minus the floor of (now - roundStart), not below 0; when that is 0 the
    tick sets the phase to Lose and does nothing else, and otherwise it goes
    on with the stored countdown.  The elapsed time is taken non-negative
    and within the range of an int, where the cast of the code is its
    floor. *)
Theorem C2_countdown (atan2f : float -> float -> float)
    (dt : float) (s : State) (n : Z) :
  phase s = PHASE_PLAY ->
  ffloor (timeSec s - roundStart s)%f32 = Some n -> 0 <= n <= INT_MAX ->
  let remaining := Z.max 0 (ROUND_TIME_SEC - n) in
  countdown s = Some remaining /\
  (remaining = 0 ->
   updateGame atan2f dt s = Some (set_phase PHASE_LOSE (set_timeLeft 0 s))) /\
  (0 < remaining ->
   updateGame atan2f dt s = playStep atan2f dt (set_timeLeft remaining s)).
Proof.
  intros Hph Hfl Hn remaining.
  assert (Hcd : countdown s = Some remaining).
  { unfold countdown. rewrite (ffloor_f2i _ _ Hfl Hn).
    rewrite wrap32_id by (unfold INT_MIN, INT_MAX, ROUND_TIME_SEC in *; lia).
    unfold remaining. f_equal.
    destruct (Z.gtb_spec (ROUND_TIME_SEC - n) 0); lia. }
  split; [exact Hcd|].
  unfold updateGame. rewrite Hph, Hcd. cbn [Phase_eqb negb timeLeft set_timeLeft].
  split; intros Hr.
  - rewrite Hr. reflexivity.
  - destruct (Z.leb_spec remaining 0); [lia | reflexivity].
Qed.

(** The countdown of [hitScene] driven to exactly 0 by a 60 s frame: the
    phase goes from Play to Lose with 5 lives left. *)
Lemma C2_countdown_witness :
  updateGame libm0 (timerDt 61000 hitScene) (advance 61000 hitScene)
  = Some (set_phase PHASE_LOSE (set_timeLeft 0 (advance 61000 hitScene))).
Proof.
  refine (proj1 (proj2 (C2_countdown libm0 (timerDt 61000 hitScene)
                          (advance 61000 hitScene) 60 _ _ _)) _).
  - vm_compute. reflexivity.
  - vm_compute. reflexivity.
  - unfold INT_MAX. lia.
  - reflexivity.
Defined.

(** C3: in a play-phase tick that reaches the pick-up step, in which the
    player's circle, where the movement step left it, overlaps N
    collectibles, the score grows by exactly 5 N (short of int overflow)
    and exactly those N collectibles leave the collection, in order, none
    skipped and none removed twice. *)
Theorem C3_collect (atan2f : float -> float -> float)
    (dt : float) (s : State) :
  liveTick s ->
  let p1 := player (moveStep atan2f dt s) in
  let N := length (filter (touches p1) (collectibles s)) in
  INT_MIN <= Player.score (player s) ->
  Player.score (player s) + 5 * Z.of_nat N <= INT_MAX ->
  exists s',
    updateGame atan2f dt s = Some s' /\
    Player.score (player s') = Player.score (player s) + 5 * Z.of_nat N /\
    collectibles s' = filter (fun c => negb (touches p1 c)) (collectibles s) /\
    (length (collectibles s') + N = length (collectibles s))%nat.
Proof.
  intros (Hph & (remaining & Hcd & Hrem) & (cur & Htp)) p1 N Hlo Hhi.
  destruct (updateGame_play atan2f dt s remaining cur Hph Hcd Hrem Htp)
    as (s' & Hu & H'). cbv zeta in H'.
  destruct H' as (_ & _ & _ & _ & _ & _ & _ & _ & _ & Hc & Hs & _).
  rewrite moveStep_timeLeft in Hc, Hs.
  change (player (set_timeLeft remaining (moveStep atan2f dt s))) with p1 in Hc, Hs.
  fold N in Hs.
  exists s'. split; [exact Hu|].
  split; [rewrite Hs; apply iter_bump; assumption|].
  split; [exact Hc|].
  rewrite Hc. unfold N. clear.
  induction (collectibles s) as [|c cs IH]; simpl; [reflexivity|].
  destruct (touches p1 c); simpl; lia.
Qed.

Lemma collectScene_liveTick : liveTick (advance 1166 collectScene).
Proof.
  split; [vm_compute; reflexivity|]. split.
  - exists 60. split; [vm_compute; reflexivity | lia].
  - exists (136, 561). vm_compute. reflexivity.
Qed.

(** In [collectScene] the next frame puts the player between the two
    neighbouring collectibles: both go, the third stays, the score is 10. *)
Lemma C3_collect_witness :
  exists s',
    updateGame libm0 (timerDt 1166 collectScene) (advance 1166 collectScene)
    = Some s' /\
    Player.score (player s') = 10 /\ length (collectibles s') = 1%nat.
Proof.
  destruct (C3_collect libm0 (timerDt 1166 collectScene)
              (advance 1166 collectScene) collectScene_liveTick)
    as (s' & Hu & Hs & Hc & _).
  - vm_compute. discriminate.
  - vm_compute. discriminate.
  - exists s'. split; [exact Hu|].
    split; [rewrite Hs | rewrite Hc]; vm_compute; reflexivity.
Defined.

(** C4: after any run of target-updater ticks with positive dt, from a
    parameter in [0, 1] and a direction of +1 or -1, the parameter is in
    [0, 1] after the next update as well; the direction goes from +1 to -1
    exactly when that update exceeds the upper bound 1 and from -1 to +1
    exactly when it falls below the lower bound 0, the parameter being
    clamped to the bound. *)
Theorem C4_ping_pong (dts : list float) (dt : float) (s : State) :
  Forall (fun d => (zero <? d)%f32 = true) dts -> (zero <? dt)%f32 = true ->
  goodTarget s ->
  let s1 := ticks dts s in
  let r := rawT dt s1 in
  let s2 := updateTarget dt s1 in
  (zero <=? Target.t_ (target s2))%f32 = true /\
  (Target.t_ (target s2) <=? one)%f32 = true /\
  (Target.dir (target s2) = 1 \/ Target.dir (target s2) = -1) /\
  (Target.dir (target s1) = 1 /\ Target.dir (target s2) = -1
   <-> (r >? one)%f32 = true) /\
  (Target.dir (target s1) = -1 /\ Target.dir (target s2) = 1
   <-> (r <? zero)%f32 = true) /\
  ((r >? one)%f32 = true -> Target.t_ (target s2) = one) /\
  ((r <? zero)%f32 = true -> Target.t_ (target s2) = zero).
Proof.
  intros Hdts Hdt Hs. cbv zeta.
  pose proof (ticks_good dts s Hdts Hs) as H1.
  destruct (updateTarget_step dt (ticks dts s) H1 Hdt)
    as (((_ & Hlo & Hhi) & Hd2) & Hup & Hdown & Hmid).
  cbv zeta in Hup, Hdown, Hmid.
  split; [exact Hlo|]. split; [exact Hhi|]. split; [exact Hd2|].
  destruct (rawT dt (ticks dts s) >? one)%f32 eqn:E1;
    destruct (rawT dt (ticks dts s) <? zero)%f32 eqn:E0.
  - destruct (Hup eq_refl) as (Ha & _). destruct (Hdown eq_refl) as (Hb & _).
    rewrite Ha in Hb. discriminate Hb.
  - destruct (Hup eq_refl) as (Ha & Hb & Hc).
    repeat split; auto; try discriminate.
    intros [Hx _]. rewrite Ha in Hx. discriminate Hx.
  - destruct (Hdown eq_refl) as (Ha & Hb & Hc).
    repeat split; auto; try discriminate.
    intros [Hx _]. rewrite Ha in Hx. discriminate Hx.
  - destruct (Hmid eq_refl eq_refl) as (Ha & _).
    repeat split; try discriminate.
    + intros [Hx Hy]. rewrite Ha, Hx in Hy. discriminate Hy.
    + intros [Hx Hy]. rewrite Ha, Hx in Hy. discriminate Hy.
Qed.

(** Three ticks take the target of [hitScene] from 0 to 0.875; a fourth of
    one second exceeds 1, and the direction turns. *)
Lemma C4_ping_pong_witness :
  let s1 := ticks [lit 1 2; of_int 1; of_int 1] hitScene in
  Target.dir (target s1) = 1 /\
  Target.dir (target (updateTarget (of_int 1) s1)) = -1.
Proof.
  cbv zeta.
  refine (proj2 (proj1 (proj2 (proj2 (proj2
            (C4_ping_pong [lit 1 2; of_int 1; of_int 1] (of_int 1) hitScene
               _ _ _))))) _).
  - repeat constructor.
  - vm_compute. reflexivity.
  - split; [|left; vm_compute; reflexivity].
    repeat split; vm_compute; reflexivity.
  - vm_compute. reflexivity.
Defined.

Lemma existsb_map {A B : Type} (f : B -> bool) (g : A -> B) (l : list A) :
  existsb f (map g l) = existsb (fun a => f (g a)) l.
Proof. induction l as [|a l IH]; simpl; [reflexivity | rewrite IH; reflexivity]. Qed.

(** overlapsAny answers before it looks at the target when a placed object
    or the player is too near. *)
Lemma overlapsAny_bodies (o : Obj.t) (s : State) :
  existsb (near o) (bodies s) = true ->
  overlapsAny (Obj.x o) (Obj.y o) (Obj.r o) s = Some true.
Proof.
  unfold overlapsAny, bodies, nearAny.
  rewrite existsb_app, existsb_map, !existsb_app. cbn [existsb fst snd].
  unfold near, minDist2. cbn [fst snd]. intros H.
  repeat match goal with
         | |- context [if ?c then _ else _] =>
             destruct c eqn:?; cbn [orb] in H; try reflexivity
         end.
  discriminate H.
Qed.

(** overlapsAny is the disjunction of the distance test over the entities,
    when the target's position is defined. *)
Lemma overlapsAny_spec (o : Obj.t) (s : State) (cur : Z * Z) :
  targetPos s = Some cur ->
  overlapsAny (Obj.x o) (Obj.y o) (Obj.r o) s
  = Some (existsb (near o) (entities s cur)).
Proof.
  intros Htp. unfold overlapsAny, entities, bodies, nearAny.
  unfold targetPos in Htp. rewrite Htp.
  rewrite !existsb_app, existsb_map, !existsb_app. cbn [existsb fst snd].
  unfold near, minDist2. cbn [fst snd].
  repeat match goal with
         | |- context [if ?c then _ else _] => destruct c; cbn [orb]
         end;
    rewrite ?orb_true_r; reflexivity.
Qed.

(** What Mouse does with an attempted placement. *)
Lemma Mouse_attempt (x y : Z) (s : State) (o : Obj.t) :
  attempt x y s o ->
  Mouse GLUT_LEFT_BUTTON GLUT_DOWN x y s
  = match overlapsAny (Obj.x o) (Obj.y o) (Obj.r o) s with
    | None => None
    | Some true => Some s
    | Some false => Some (push o s)
    end.
Proof.
  intros (Hy & Hph & Hin & Hobj). cbv zeta in *.
  unfold Mouse. cbn [GLUT_DOWN GLUT_LEFT_BUTTON Z.eqb negb orb].
  destruct (Z.leb_spec (wrap32 (H - y)) BOT_H); [lia|].
  rewrite Hph, Hin, Hobj. reflexivity.
Qed.

(** C5: an attempted placement is rejected when the candidate lies within
    (its radius + the separation) of a placed object, of the player or of
    the target's derived position, and succeeds, appending the object to the
    collection of its kind, when it lies within that distance of none. *)
Theorem C5_placement (x y : Z) (s : State) (o : Obj.t) :
  attempt x y s o ->
  ((exists e, In e (bodies s) /\ near o e = true) ->
   Mouse GLUT_LEFT_BUTTON GLUT_DOWN x y s = Some s) /\
  forall cur : Z * Z, targetPos s = Some cur ->
    ((exists e, In e (entities s cur) /\ near o e = true) ->
     Mouse GLUT_LEFT_BUTTON GLUT_DOWN x y s = Some s) /\
    ((forall e, In e (entities s cur) -> near o e = false) ->
     Mouse GLUT_LEFT_BUTTON GLUT_DOWN x y s
     = Some (match placeMode s with
             | PLACE_OBS => set_obstacles (obstacles s ++ [o]) s
             | PLACE_COL => set_collectibles (collectibles s ++ [o]) s
             | _ => set_powerups (powerups s ++ [o]) s
             end)).
Proof.
  intros Hatt. rewrite (Mouse_attempt x y s o Hatt).
  split; [|intros cur Htp; split].
  - intros Hex. rewrite overlapsAny_bodies; [reflexivity|].
    apply existsb_exists. exact Hex.
  - intros Hex. rewrite (overlapsAny_spec o s cur Htp).
    replace (existsb (near o) (entities s cur)) with true; [reflexivity|].
    symmetry. apply existsb_exists. exact Hex.
  - intros Hall. rewrite (overlapsAny_spec o s cur Htp).
    replace (existsb (near o) (entities s cur)) with false.
    + unfold push. f_equal. destruct Hatt as (_ & _ & _ & Hobj).
      cbv zeta in Hobj.
      destruct (placeMode s); cbn in Hobj; try discriminate;
        injection Hobj as <-; reflexivity.
    + symmetry. apply not_true_is_false. intros Hex.
      apply existsb_exists in Hex as (e & He & Hn).
      rewrite (Hall e He) in Hn. discriminate.
Qed.

Lemma editScene_attempt (x y : Z) (o : Obj.t) :
  (BOT_H <? wrap32 (H - y)) = true ->
  inGameArea (of_int x) (of_int (wrap32 (H - y))) = true ->
  placedObj PLACE_OBS x (wrap32 (H - y)) = Some o ->
  attempt x y editScene o.
Proof.
  intros Hy Hin Hobj. unfold attempt. cbv zeta.
  split; [apply Z.ltb_lt, Hy|]. split; [vm_compute; reflexivity|].
  split; [exact Hin|]. exact Hobj.
Qed.

(** In [editScene] a click 20 px beside the obstacle is rejected, and a
    click at (700, 300), far from everything, places a second obstacle. *)
Lemma C5_placement_witness :
  Mouse GLUT_LEFT_BUTTON GLUT_DOWN 520 496 editScene = Some editScene /\
  option_map (fun s => length (obstacles s))
             (Mouse GLUT_LEFT_BUTTON GLUT_DOWN 700 400 editScene) = Some 2%nat.
Proof.
  split.
  - refine (proj1 (C5_placement 520 496 editScene
                     (Obj.mk (of_int 520) (of_int 204) (of_int 18) OBJ_OBSTACLE)
                     _) _).
    + apply editScene_attempt; vm_compute; reflexivity.
    + exists (of_int 500, of_int 204). vm_compute.
      split; [left; reflexivity | reflexivity].
  - assert (Hatt : attempt 700 400 editScene
                     (Obj.mk (of_int 700) (of_int 300) (of_int 18) OBJ_OBSTACLE))
      by (apply editScene_attempt; vm_compute; reflexivity).
    assert (Htp : targetPos editScene = Some (0, 0))
      by (vm_compute; reflexivity).
    rewrite (proj2 (proj2 (C5_placement 700 400 editScene _ Hatt) (0, 0) Htp)).
    + vm_compute. reflexivity.
    + intros e He. vm_compute in He.
      destruct He as [<-|[<-|[<-|[]]]]; vm_compute; reflexivity.
Defined.

(** C6, as stated, fails: an int control point above 2^24 is rounded when
    it is converted to float, and the evaluator at t = 0 returns its
    neighbour. *)
Lemma C6_inexact_control_point :
  bezierPoint (of_int 0) (16777217, 0) (0, 0) (0, 0) (0, 0)
  <> Some (16777217, 0).
Proof. vm_compute. intros E. inversion E. Qed.

(** C6, amended: for int control points, the evaluator returns exactly p0
    at t = 0 when the coordinates of p0 have magnitude at most 2^24, and
    exactly p3 at t = 1 when those of p3 do. *)
Theorem C6_bezier_endpoints (p0 p1 p2 p3 : Z * Z) :
  intPoint p0 -> intPoint p1 -> intPoint p2 -> intPoint p3 ->
  (exactPoint p0 -> bezierPoint (of_int 0) p0 p1 p2 p3 = Some p0) /\
  (exactPoint p3 -> bezierPoint (of_int 1) p0 p1 p2 p3 = Some p3).
Proof.
  intros [H0x H0y] [H1x H1y] [H2x H2y] [H3x H3y]. split.
  - intros [Ex Ey]. unfold bezierPoint.
    rewrite (bezierAxis_0 _ _ _ _ Ex H1x H2x H3x).
    rewrite (bezierAxis_0 _ _ _ _ Ey H1y H2y H3y).
    destruct p0; reflexivity.
  - intros [Ex Ey]. unfold bezierPoint.
    rewrite (bezierAxis_1 _ _ _ _ H0x H1x H2x Ex).
    rewrite (bezierAxis_1 _ _ _ _ H0y H1y H2y Ey).
    destruct p3; reflexivity.
Qed.

(** The control points startRound sets. *)
Lemma C6_bezier_endpoints_witness :
  bezierPoint (of_int 0) (100, 550) (300, 630) (700, 470) (900, 550)
  = Some (100, 550) /\
  bezierPoint (of_int 1) (100, 550) (300, 630) (700, 470) (900, 550)
  = Some (900, 550).
Proof.
  assert (I32 : forall z, -1000 <= z <= 1000 -> int32 z)
    by (unfold int32, INT_MIN, INT_MAX; intros; lia).
  assert (E24 : forall z, -1000 <= z <= 1000 -> exact24 z)
    by (unfold exact24; intros; lia).
  destruct (C6_bezier_endpoints (100, 550) (300, 630) (700, 470) (900, 550))
    as [Hfirst Hlast];
    try (split; apply I32; cbn [fst snd]; lia).
  split; [apply Hfirst | apply Hlast]; split; apply E24; cbn [fst snd]; lia.
Defined.

(** startRound in full: what it resets and what it leaves. *)
Lemma startRound_spec (s : State) :
  let s' := startRound s in
  Player.lives (player s') = MAX_LIVES /\ Player.score (player s') = 0 /\
  phase s' = PHASE_PLAY /\ timeLeft s' = ROUND_TIME_SEC /\
  roundStart s' = timeSec s /\ timeSec s' = timeSec s /\
  obstacles s' = obstacles s /\ collectibles s' = collectibles s /\
  powerups s' = powerups s /\ nextHitTime s' = nextHitTime s.
Proof. cbv zeta. unfold startRound. cbn. repeat split. Qed.

(** C7: after a Win or a Lose, the round-start action (the r key) sets
    lives to MAX_LIVES, the score to 0, the phase to Play and the countdown
    to the full round, and leaves the three collections as they are. *)
Theorem C7_round_reset (x y : Z) (s : State) :
  phase s = PHASE_WIN \/ phase s = PHASE_LOSE ->
  let s' := Keyboard "r" x y s in
  s' = startRound s /\
  Player.lives (player s') = MAX_LIVES /\ Player.score (player s') = 0 /\
  phase s' = PHASE_PLAY /\
  timeLeft s' = ROUND_TIME_SEC /\ roundStart s' = timeSec s' /\
  obstacles s' = obstacles s /\ collectibles s' = collectibles s /\
  powerups s' = powerups s.
Proof.
  intros _. cbv zeta.
  change (Keyboard "r" x y s) with (startRound s).
  destruct (startRound_spec s)
    as (Hl & Hs & Hp & Htl & Hrs & Hts & Ho & Hc & Hpu & _).
  cbv zeta in *. rewrite Hts. repeat split; assumption.
Qed.

(** The round lost on the clock in the C2 scenario, restarted: five lives,
    the obstacle still there. *)
Lemma C7_round_reset_witness :
  let s := set_phase PHASE_LOSE (set_timeLeft 0 (advance 61000 hitScene)) in
  phase (Keyboard "r" 0 0 s) = PHASE_PLAY /\
  obstacles (Keyboard "r" 0 0 s) = obstacles s.
Proof.
  cbv zeta.
  destruct (C7_round_reset 0 0
              (set_phase PHASE_LOSE (set_timeLeft 0 (advance 61000 hitScene))))
    as (_ & _ & _ & Hp & _ & _ & Ho & _).
  - right. reflexivity.
  - split; [exact Hp | exact Ho].
Defined.

(** A click outside the edit phase returns and creates nothing. *)
Lemma Mouse_outside_edit (button state x y : Z) (s : State) :
  phase s <> PHASE_EDIT ->
  exists s',
    Mouse button state x y s = Some s' /\
    obstacles s' = obstacles s /\ collectibles s' = collectibles s /\
    powerups s' = powerups s.
Proof.
  intros Hph. unfold Mouse.
  destruct (_ || _); [exists s; auto|].
  destruct (_ <=? BOT_H); [eexists; split; [reflexivity|]; auto|].
  destruct (Phase_eqb (phase s) PHASE_EDIT) eqn:E.
  - apply Phase_eqb_eq in E. contradiction.
  - exists s. auto.
Qed.

(** C8, as stated, fails: no click outside the edit phase creates an
    object, whatever the selected kind and wherever it falls. *)
Lemma C8_creation_outside_edit_refuted :
  ~ exists (button state x y : Z) (s s' : State),
      phase s <> PHASE_EDIT /\ placeMode s <> PLACE_NONE /\
      Mouse button state x y s = Some s' /\
      (obstacles s' <> obstacles s \/ collectibles s' <> collectibles s \/
       powerups s' <> powerups s).
Proof.
  intros (button & state & x & y & s & s' & Hph & _ & Hm & Hne).
  destruct (Mouse_outside_edit button state x y s Hph)
    as (s'' & Hm' & Ho & Hc & Hp).
  rewrite Hm in Hm'. apply Some_inj in Hm'. subst s''.
  destruct Hne as [Hne|[Hne|Hne]]; contradiction.
Qed.

(** C8, amended: a click made while the phase is not Edit creates no
    object, so that the placement subsystem creates objects in the edit
    phase only. *)
Theorem C8_placement_only_in_edit (button state x y : Z) (s s' : State) :
  Mouse button state x y s = Some s' ->
  (phase s <> PHASE_EDIT ->
   obstacles s' = obstacles s /\ collectibles s' = collectibles s /\
   powerups s' = powerups s) /\
  (obstacles s' <> obstacles s \/ collectibles s' <> collectibles s \/
   powerups s' <> powerups s -> phase s = PHASE_EDIT).
Proof.
  intros Hm.
  assert (Hout : phase s <> PHASE_EDIT ->
                 obstacles s' = obstacles s /\ collectibles s' = collectibles s /\
                 powerups s' = powerups s).
  { intros Hph.
    destruct (Mouse_outside_edit button state x y s Hph)
      as (s'' & Hm' & Hsame).
    rewrite Hm in Hm'. apply Some_inj in Hm'. subst s''. exact Hsame. }
  split; [exact Hout|].
  intros Hne. destruct (phase s) eqn:E; [reflexivity| | |];
    (destruct Hout as (Ho & Hc & Hp); [discriminate|];
     destruct Hne as [Hne|[Hne|Hne]]; contradiction).
Qed.

(** An arena click in [hitScene], in play with the obstacle kind selected:
    the click is taken and nothing is placed. *)
Lemma C8_placement_only_in_edit_witness :
  obstacles (unwrap (Mouse 0 0 700 400 hitScene)) = obstacles hitScene.
Proof.
  refine (proj1 (proj1 (C8_placement_only_in_edit 0 0 700 400 hitScene
                          (unwrap (Mouse 0 0 700 400 hitScene)) _) _)).
  - vm_compute. reflexivity.
  - vm_compute. discriminate.
Defined.

(** A blocked tick inside the invulnerability window costs no life. *)
Lemma blocked_in_window (atan2f : float -> float -> float)
    (dt : float) (s : State) :
  liveTick s -> tickBlocked dt s = true ->
  (timeSec s <? nextHitTime s)%f32 = true ->
  exists s',
    updateGame atan2f dt s = Some s' /\
    Player.lives (player s') = Player.lives (player s).
Proof.
  intros (Hph & (remaining & Hcd & Hrem) & (cur & Htp)) Hb Hwin.
  destruct (blocked_tick atan2f dt s remaining cur Hph Hcd Hrem Htp Hb)
    as (s' & Hu & _ & _ & Hl & _).
  exists s'. split; [exact Hu|]. rewrite Hl.
  unfold fgeb. change (SFleb (nextHitTime s) (timeSec s))
    with (nextHitTime s <=? timeSec s)%f32.
  rewrite (fltb_not_fleb _ _ Hwin), andb_false_r. reflexivity.
Qed.

(** C9: startRound does not reset nextHitTime.  When the round is restarted
    while the window of an earlier hit is still open, the window carries
    over: the new round starts inside it, and an obstacle collision in the
    new round before nextHitTime costs no life. *)
Theorem C9_window_survives_restart (atan2f : float -> float -> float)
    (s : State) :
  (timeSec s <? nextHitTime s)%f32 = true ->
  let s1 := startRound s in
  nextHitTime s1 = nextHitTime s /\
  (timeSec s1 <? nextHitTime s1)%f32 = true /\
  Player.lives (player s1) = MAX_LIVES /\
  forall (dt : float) (s2 : State),
    liveTick s2 -> tickBlocked dt s2 = true ->
    nextHitTime s2 = nextHitTime s1 ->
    (timeSec s2 <? nextHitTime s2)%f32 = true ->
    exists s2',
      updateGame atan2f dt s2 = Some s2' /\
      Player.lives (player s2') = Player.lives (player s2).
Proof.
  intros Hopen. cbv zeta.
  destruct (startRound_spec s) as (Hl & _ & _ & _ & _ & Hts & _ & _ & _ & Hn).
  cbv zeta in *. rewrite Hn, Hts.
  split; [reflexivity|]. split; [exact Hopen|]. split; [exact Hl|].
  intros dt s2 Hlive Hb _ Hwin. exact (blocked_in_window atan2f dt s2 Hlive Hb Hwin).
Qed.

(** [hitScene2] was hit at 0.11 s; restarted at once, the player runs into
    the obstacle again at 0.22 s and keeps all five lives. *)
Lemma C9_window_survives_restart_witness :
  let s2 := advance 1220 (startRound hitScene2) in
  exists s2',
    updateGame libm0 (timerDt 1220 (startRound hitScene2)) s2 = Some s2' /\
    Player.lives (player s2') = 5.
Proof.
  cbv zeta.
  destruct (C9_window_survives_restart libm0 hitScene2) as (_ & _ & _ & Hnew).
  - vm_compute. reflexivity.
  - destruct (Hnew (timerDt 1220 (startRound hitScene2))
                   (advance 1220 (startRound hitScene2)))
      as (s2' & Hu & Hl).
    + split; [vm_compute; reflexivity|]. split.
      * exists 60. split; [vm_compute; reflexivity | lia].
      * exists (123, 558). vm_compute. reflexivity.
    + vm_compute. reflexivity.
    + vm_compute. reflexivity.
    + vm_compute. reflexivity.
    + exists s2'. split; [exact Hu|]. rewrite Hl. vm_compute. reflexivity.
Defined.

(** C10: in a play-phase tick in which the blocked-movement check takes
    the last life, setting the phase to Lose, while the player's circle
    overlaps the target's current position, the tick ends in Win. *)
Theorem C10_win_overwrites_lose (atan2f : float -> float -> float)
    (dt : float) (s : State) (cur : Z * Z) :
  liveTick s -> targetPos s = Some cur ->
  tickBlocked dt s = true ->
  Player.shielded (player s) = false ->
  (timeSec s >=? nextHitTime s)%f32 = true ->
  Player.lives (player s) = 1 ->
  intersectCircleCircle (Player.x (player s)) (Player.y (player s))
    (Player.r (player s)) (of_int (fst cur)) (of_int (snd cur))
    (Target.r (target s)) = true ->
  Player.lives (player (moveStep atan2f dt s)) = 0 /\
  phase (moveStep atan2f dt s) = PHASE_LOSE /\
  exists s',
    updateGame atan2f dt s = Some s' /\
    Player.lives (player s') = 0 /\ phase s' = PHASE_WIN.
Proof.
  intros (Hph & (remaining & Hcd & Hrem) & _) Htp Hb Hsh Hnow Hl1 Hhit.
  destruct (moveStep_blocked atan2f dt s Hb) as (_ & _ & Hlm & _ & Hpm).
  cbv zeta in Hlm, Hpm.
  rewrite (expireShield_unshielded s Hsh), Hnow, Hl1 in Hlm.
  cbn [negb andb] in Hlm. change (Z.max 0 (wrap32 (1 - 1))) with 0 in Hlm.
  rewrite (expireShield_unshielded s Hsh), Hnow, Hlm in Hpm.
  cbn [negb andb Z.eqb] in Hpm.
  split; [exact Hlm|]. split; [exact Hpm|].
  destruct (blocked_tick atan2f dt s remaining cur Hph Hcd Hrem Htp Hb)
    as (s' & Hu & _ & _ & Hl & _ & Hp).
  rewrite (expireShield_unshielded s Hsh), Hnow, Hl1 in Hl.
  cbn [negb andb] in Hl. change (Z.max 0 (wrap32 (1 - 1))) with 0 in Hl.
  rewrite Hhit in Hp.
  exists s'. split; [exact Hu|]. split; [exact Hl | exact Hp].
Qed.

(** The last frame of [winScene]: the player, on its last life, runs into
    the obstacle while the target is on it, and the round is won. *)
Lemma C10_win_overwrites_lose_witness :
  phase (moveStep libm0 (timerDt 4667 winScene) (advance 4667 winScene))
  = PHASE_LOSE /\
  exists s',
    updateGame libm0 (timerDt 4667 winScene) (advance 4667 winScene) = Some s' /\
    phase s' = PHASE_WIN.
Proof.
  destruct (C10_win_overwrites_lose libm0 (timerDt 4667 winScene)
              (advance 4667 winScene) (735, 527))
    as (_ & Hlose & s' & Hu & _ & Hwin).
  - split; [vm_compute; reflexivity|]. split.
    + exists 57. split; [vm_compute; reflexivity | lia].
    + exists (735, 527). vm_compute. reflexivity.
  - vm_compute. reflexivity.
  - vm_compute. reflexivity.
  - vm_compute. reflexivity.
  - vm_compute. reflexivity.
  - vm_compute. reflexivity.
  - vm_compute. reflexivity.
  - split; [exact Hlose|]. exists s'. split; [exact Hu | exact Hwin].
Defined.

(** * Further lemmas *)

Lemma SFcompare_refl (x : float) : is_nan x = false -> SFcompare x x = Some Eq.
Proof.
  destruct x as [s|s| |s m e]; cbn; try discriminate; intros _.
  - reflexivity.
  - destruct s; reflexivity.
  - rewrite Z.compare_refl.
    change (Pos.compare_cont Eq m m) with (Pos.compare m m).
    rewrite Pos.compare_refl. destruct s; reflexivity.
Qed.

Lemma fleb_refl (x : float) : is_nan x = false -> (x <=? x)%f32 = true.
Proof. intros H. unfold fleb, SFleb. rewrite (SFcompare_refl x H). reflexivity. Qed.

Lemma clampf_between (v lo hi : float) :
  (lo <=? hi)%f32 = true -> is_nan v = false -> between lo hi (clampf v lo hi).
Proof.
  intros Hlh Hv. unfold clampf, between.
  pose proof (fleb_not_nan_l _ _ Hlh) as Hlo.
  pose proof (fleb_not_nan_r _ _ Hlh) as Hhi.
  destruct (v <? lo)%f32 eqn:E1.
  - split; [apply fleb_refl, Hlo | exact Hlh].
  - unfold fgtb. change (SFltb hi v) with (hi <? v)%f32.
    destruct (hi <? v)%f32 eqn:E2.
    + split; [exact Hlh | apply fleb_refl, Hhi].
    + split; apply not_fltb_fleb; auto.
Qed.

Lemma clampf_nan (lo hi : float) : clampf S754_nan lo hi = S754_nan.
Proof. unfold clampf, fgtb. cbn. destruct hi; reflexivity. Qed.

(** ** Results that are never a NaN *)

Lemma binary_round_aux_not_nan (s : bool) (m e : Z) (l : location) :
  0 <= m -> is_nan (binary_round_aux prec emax s m e l) = false.
Proof.
  intros Hm. destruct (binary_round_aux_spec s m e l Hm) as (mr & H).
  cbv zeta in H. destruct H as (Hmr & ->).
  assert (H1 : 0 <= m / 2 ^ (Z.max e (fexp32 (Zdigits2 m + e)) - e)).
  { apply Z.div_pos; [exact Hm|]. apply Z.pow_pos_nonneg; lia. }
  assert (Hmr0 : 0 <= mr) by (destruct Hmr; lia).
  match goal with |- context [match ?q / ?d with _ => _ end] =>
    assert (Hq : 0 <= q / d) by (apply Z.div_pos; [exact Hmr0|apply Z.pow_pos_nonneg; lia]);
    revert Hq; generalize (q / d) end.
  intros q Hq. destruct q; [reflexivity| |lia].
  destruct (_ <=? 104); reflexivity.
Qed.

Lemma fmul_not_nan (a b : float) :
  is_finite a = true -> is_finite b = true -> is_nan (a * b)%f32 = false.
Proof.
  destruct a as [sa|sa| |sa ma ea], b as [sb|sb| |sb mb eb]; cbn [is_finite];
    try discriminate; intros _ _; try reflexivity.
  unfold fmul, SFmul. apply binary_round_aux_not_nan. lia.
Qed.

Lemma binary_normalize_not_nan (z e : Z) :
  is_nan (binary_normalize prec emax z e false) = false.
Proof.
  destruct (Z.le_ge_cases 0 z) as [H|H].
  - apply (signed_not_nan false), binary_normalize_signed. exact H.
  - apply (signed_not_nan true), binary_normalize_signed. exact H.
Qed.

Lemma fadd_not_nan (a b : float) :
  is_finite a = true -> is_nan b = false -> is_nan (a + b)%f32 = false.
Proof.
  destruct a as [sa|sa| |sa ma ea], b as [sb|sb| |sb mb eb]; cbn [is_finite is_nan];
    try discriminate; intros _ _; try reflexivity;
    try (destruct sa, sb; reflexivity).
  destruct (fadd_finite sa ma ea sb mb eb) as (mx' & my' & -> & _).
  apply binary_normalize_not_nan.
Qed.

Lemma Zdigits2_0 : Zdigits2 0 = 0.
Proof. reflexivity. Qed.

(** The bit length of a quotient by a power of two, cut at zero. *)
Lemma Zdigits2_div_le (m k : Z) :
  0 <= m -> 0 <= k -> Zdigits2 (m / 2 ^ k) <= Z.max 0 (Zdigits2 m - k).
Proof.
  intros Hm Hk. destruct (Z.eq_dec m 0) as [->|Hm0].
  - rewrite Z.div_0_l by (apply Z.pow_nonzero; lia). cbn. lia.
  - destruct (Z_lt_le_dec k (Zdigits2 m)) as [Hlt|Hge].
    + rewrite Zdigits2_div_pow2 by lia. lia.
    + rewrite div_pow2_small by lia. cbn. lia.
Qed.

Lemma Zdigits2_succ_le (m : Z) : 0 <= m -> Zdigits2 (m + 1) <= Zdigits2 m + 1.
Proof.
  intros Hm. destruct (Z.eq_dec m 0) as [->|Hm0]; [cbn; lia|].
  destruct (Zdigits2_succ m ltac:(lia)) as [E|[_ E]]; lia.
Qed.

(** Rounding a value of moderate size never overflows. *)
Lemma binary_round_aux_finite (s : bool) (m e : Z) (l : location) :
  0 <= m -> e <= 100 -> Zdigits2 m + e <= 100 ->
  is_finite (binary_round_aux prec emax s m e l) = true.
Proof.
  intros Hm He HD. destruct (binary_round_aux_spec s m e l Hm) as (mr & H).
  cbv zeta in H. destruct H as (Hmr & ->).
  set (e1 := Z.max e (fexp32 (Zdigits2 m + e))) in *.
  assert (He1 : e <= e1 <= 100) by (unfold e1, fexp32; lia).
  pose proof (Zdigits2_div_le m (e1 - e) Hm ltac:(lia)) as Hd1.
  assert (H1 : 0 <= m / 2 ^ (e1 - e)).
  { apply Z.div_pos; [exact Hm|]. apply Z.pow_pos_nonneg; lia. }
  assert (Hdr : Zdigits2 mr <= Z.max 0 (Zdigits2 m - (e1 - e)) + 1).
  { destruct Hmr as [->| ->].
    - lia.
    - pose proof (Zdigits2_succ_le _ H1). lia. }
  assert (Hmr0 : 0 <= mr) by (destruct Hmr; lia).
  set (e2 := Z.max e1 (fexp32 (Zdigits2 mr + e1))).
  assert (He2 : e2 <= 104).
  { unfold e2, fexp32. revert Hdr. generalize (Zdigits2 mr).
    revert HD Hd1. generalize (Zdigits2 m). intros; lia. }
  assert (Hq : 0 <= mr / 2 ^ (e2 - e1)).
  { apply Z.div_pos; [exact Hmr0|]. apply Z.pow_pos_nonneg; lia. }
  destruct (mr / 2 ^ (e2 - e1)); [reflexivity| |lia].
  destruct (Z.leb_spec e2 104); [reflexivity|lia].
Qed.

Lemma Zdigits2_shiftl (p : positive) (k : Z) :
  0 <= k -> Zdigits2 (Z.shiftl (Zpos p) k) = Zpos (digits2_pos p) + k.
Proof.
  intros Hk. rewrite Z.shiftl_mul_pow2 by lia.
  destruct (Zdigits2_bounds p) as [Hlo Hhi].
  apply Zdigits2_unique; [lia|].
  replace (Zpos (digits2_pos p) + k - 1) with ((Zpos (digits2_pos p) - 1) + k) by lia.
  rewrite !Z.pow_add_r by lia.
  assert (0 < 2 ^ k) by (apply Z.pow_pos_nonneg; lia).
  split; nia.
Qed.

(** A quotient of moderate size is finite. *)
Lemma fdiv_finite (sx : bool) (mx : positive) (ex : Z)
                  (sy : bool) (my : positive) (ey : Z) :
  ex - ey <= 100 -> Zpos (digits2_pos mx) + ex - ey <= 100 ->
  is_finite (S754_finite sx mx ex / S754_finite sy my ey)%f32 = true.
Proof.
  intros He HD. unfold fdiv, SFdiv, SFdiv_core_binary.
  change (fexp prec emax) with fexp32.
  set (e' := Z.min (fexp32 (Zdigits2 (Zpos mx) + ex - (Zdigits2 (Zpos my) + ey)))
                   (ex - ey)).
  set (sh := ex - ey - e').
  assert (Hsh : 0 <= sh) by (unfold sh, e'; lia).
  set (m' := match sh with Zpos _ => Z.shiftl (Zpos mx) sh | 0 => Zpos mx | Zneg _ => 0 end).
  assert (Hm' : 0 <= m' /\ Zdigits2 m' = Zpos (digits2_pos mx) + sh).
  { unfold m'. destruct sh eqn:E.
    - cbn. lia.
    - rewrite Zdigits2_shiftl by lia. split; [|reflexivity].
      apply Z.shiftl_nonneg. lia.
    - lia. }
  destruct Hm' as [Hm0 Hmd].
  destruct (Z.div_eucl m' (Zpos my)) as [q r] eqn:E.
  assert (Hq : q = m' / Zpos my) by (unfold Z.div; rewrite E; reflexivity).
  assert (Hq0 : 0 <= q <= m').
  { subst q. split; [apply Z.div_pos; lia|].
    apply Z.div_le_upper_bound; [lia|]. nia. }
  pose proof (Zdigits2_mono q m' Hq0) as Hmono.
  apply binary_round_aux_finite; [lia| unfold e'; lia |].
  unfold sh in Hmd. lia.
Qed.

Lemma of_int_1000 : of_int 1000 = S754_finite false 16384000 (-14).
Proof. vm_compute. reflexivity. Qed.

(** The conversion of an int: a zero, or a float of at most 24 bits whose
    exponent is at most 9. *)
Lemma of_int_shape (z : Z) :
  int32 z ->
  of_int z = zero \/
  exists (s : bool) (q : positive) (e : Z),
    of_int z = S754_finite s q e /\ valid32 (of_int z) /\
    Zpos (digits2_pos q) <= 24 /\ e <= 9.
Proof.
  intros Hz. unfold of_int.
  assert (Hshape : forall s p, Zpos p <= 2 ^ 31 ->
    exists q e, binary_round prec emax s p 0 = S754_finite s q e /\
      valid32 (S754_finite s q e) /\ Zpos (digits2_pos q) <= 24 /\ e <= 9).
  { intros s p Hp. pose proof (binary_round_shape s p 0) as H. cbv zeta in H.
    assert (Hd : Zpos (digits2_pos p) <= 32).
    { change (Zpos (digits2_pos p)) with (Zdigits2 (Zpos p)).
      apply Zdigits2_lt; lia. }
    assert (Hd0 : 0 < Zpos (digits2_pos p)) by lia.
    destruct (binary_round prec emax s p 0) as [s'|s'| |s' q e2].
    - exfalso. destruct H as [_ H]. unfold fexp32 in H. lia.
    - exfalso. destruct H as [_ H]. unfold fexp32 in H. lia.
    - contradiction.
    - destruct H as (-> & Hc & He & Hsh). exists q, e2.
      split; [reflexivity|]. split; [apply valid32_finite; auto|].
      unfold fexp32 in *. lia. }
  unfold int32, INT_MIN, INT_MAX in Hz.
  destruct z as [|p|p]; cbn [binary_normalize].
  - left. reflexivity.
  - right. destruct (Hshape false p ltac:(lia)) as (q & e & E & Hv & Hq & He).
    exists false, q, e. rewrite E. auto.
  - right. destruct (Hshape true p ltac:(lia)) as (q & e & E & Hv & Hq & He).
    exists true, q, e. rewrite E. auto.
Qed.

(** The [dt] of a timer tick is a finite float, whatever the clock reads. *)
Lemma timerDt_finite (nowMs : Z) (s : State) :
  is_finite (timerDt nowMs s) = true.
Proof.
  unfold timerDt. rewrite of_int_1000.
  set (z := wrap32 _).
  assert (Hz : int32 z).
  { unfold z, wrap32, int32, INT_MIN, INT_MAX.
    match goal with |- context [?a mod ?b] =>
      pose proof (Z.mod_pos_bound a b ltac:(lia)) end. lia. }
  destruct (of_int_shape z Hz) as [->|(sg & q & e & -> & _ & Hq & He)].
  - reflexivity.
  - apply fdiv_finite; lia.
Qed.

(** The step [dir * speedT * dt] for any [dt] but a NaN: of one sign or the
    other. *)
Lemma fmul_speed_signed (sA : bool) (dt : float) :
  is_nan dt = false ->
  exists sg, signed sg (S754_finite sA 11744051 (-25) * dt)%f32.
Proof.
  destruct dt as [s|s| |s md ed]; try discriminate; intros _.
  - exists false. exact I.
  - exists (xorb sA s). reflexivity.
  - exists (xorb sA s). unfold fmul, SFmul.
    assert (Hm : 2 ^ 23 <= Zpos (11744051 * md)).
    { rewrite Pos2Z.inj_mul. change (2 ^ 23) with 8388608. lia. }
    pose proof (Zdigits2_ge _ 23 ltac:(lia) Hm) as Hd.
    pose proof (binary_round_aux_aligned (xorb sA s) (Zpos (11744051 * md)) (-25 + ed)
                  loc_Exact ltac:(lia)) as H.
    cbv zeta in H.
    assert (Hal : -25 + ed <= fexp32 (Zdigits2 (Zpos (11744051 * md)) + (-25 + ed))).
    { revert Hd. generalize (Zdigits2 (Zpos (11744051 * md))).
      unfold fexp32. intros; lia. }
    specialize (H Hal).
    destruct (binary_round_aux prec emax (xorb sA s) (Zpos (11744051 * md)) (-25 + ed) loc_Exact);
      cbn [signed]; auto; try tauto.
    destruct H as (Hs & Hc & He & _). split; [exact Hs|].
    apply valid32_finite. auto.
Qed.

(** The target updater keeps the parameter in [0, 1] and the direction a
    unit, for every [dt] but a NaN. *)
Lemma updateTarget_good (dt : float) (s : State) :
  goodTarget s -> is_nan dt = false -> goodTarget (updateTarget dt s).
Proof.
  intros (Ht & Hdir) Hdt.
  pose proof (updateTarget_eq dt s) as Heq. cbv zeta in Heq.
  change (of_int 1) with one in Heq. change (of_int 0) with zero in Heq.
  unfold goodTarget. rewrite Heq. clear Heq.
  assert (Hr : is_nan (rawT dt s) = false /\ valid32 (rawT dt s)).
  { assert (Hb : exists sg, signed sg (of_int (Target.dir (target s)) * lit 35 100 * dt)%f32).
    { destruct Hdir as [E|E]; rewrite E.
      - rewrite speed_up. apply fmul_speed_signed, Hdt.
      - rewrite speed_down. apply fmul_speed_signed, Hdt. }
    destruct Hb as ([|] & Hb); unfold rawT.
    + destruct (fadd_unit_down _ _ Ht Hb) as (Hn & Hv & _). auto.
    + pose proof (fadd_unit_up _ _ Ht Hb) as H.
      split; [exact (signed_not_nan _ _ H) | exact (signed_valid _ _ H)]. }
  destruct Hr as [Hnan Hval].
  unfold fgtb. change (SFltb one (rawT dt s)) with (one <? rawT dt s)%f32.
  destruct (one <? rawT dt s)%f32 eqn:E1.
  - cbn [Target.t_ Target.dir]. split; [exact unitT_one | right; reflexivity].
  - destruct (rawT dt s <? zero)%f32 eqn:E0; cbn [Target.t_ Target.dir].
    + split; [exact unitT_zero | left; reflexivity].
    + split; [|exact Hdir]. split; [exact Hval|].
      split; apply not_fltb_fleb; auto.
Qed.

Lemma below_mono (k k' : Z) (x : float) : k <= k' -> below k x -> below k' x.
Proof.
  intros Hk. destruct x as [s|s| |[|] m e]; cbn [below]; auto.
  intros [Hv Hd]. split; [exact Hv | lia].
Qed.

(** Rounding a positive value below [2^k] gives a value of at most [2^k]. *)
Lemma shape_below (q : positive) (e2 D k : Z) :
  fexp32 (Zpos (digits2_pos q) + e2) = e2 -> e2 <= 104 ->
  e2 = fexp32 D \/ (e2 = fexp32 D + 1 /\ q = 8388608%positive) ->
  D <= k -> -125 <= k ->
  below (k + 1) (S754_finite false q e2).
Proof.
  intros Hc He Hsh HD Hk. cbn [below]. split; [apply valid32_finite; auto|].
  destruct Hsh as [E|[E ->]].
  - unfold fexp32 in *. lia.
  - change (Zpos (digits2_pos 8388608)) with 24 in *. unfold fexp32 in *. lia.
Qed.

Lemma binary_round_below (p : positive) (e k : Z) :
  Zpos (digits2_pos p) + e <= k -> -125 <= k <= 127 ->
  below (k + 1) (binary_round prec emax false p e).
Proof.
  intros HD Hk. pose proof (binary_round_shape false p e) as H. cbv zeta in H.
  destruct (binary_round prec emax false p e) as [s'|s'| |s' q e2].
  - exact I.
  - destruct H as [_ H]. unfold fexp32 in H. lia.
  - contradiction.
  - destruct H as (-> & Hc & He & Hsh).
    apply (shape_below q e2 (Zpos (digits2_pos p) + e) k); auto. lia.
Qed.

Lemma binary_round_aux_below (m e k : Z) :
  0 < m -> e <= fexp32 (Zdigits2 m + e) ->
  Zdigits2 m + e <= k -> -125 <= k <= 127 ->
  below (k + 1) (binary_round_aux prec emax false m e loc_Exact).
Proof.
  intros Hm Hal HD Hk.
  pose proof (binary_round_aux_aligned false m e loc_Exact Hm Hal) as H.
  cbv zeta in H.
  destruct (binary_round_aux prec emax false m e loc_Exact) as [s'|s'| |s' q e2].
  - exact I.
  - destruct H as [_ H]. unfold fexp32 in H. lia.
  - contradiction.
  - destruct H as (-> & Hc & He & Hsh).
    apply (shape_below q e2 (Zdigits2 m + e) k); auto. lia.
Qed.

Lemma Zdigits2_mul_le (a b : positive) :
  Zpos (digits2_pos (a * b)) <= Zpos (digits2_pos a) + Zpos (digits2_pos b).
Proof.
  destruct (Zdigits2_bounds a) as [_ Ha]. destruct (Zdigits2_bounds b) as [_ Hb].
  change (Zpos (digits2_pos (a * b))) with (Zdigits2 (Zpos (a * b))).
  apply Zdigits2_lt; [lia | lia |].
  rewrite Pos2Z.inj_mul, Z.pow_add_r by lia. nia.
Qed.

Lemma Zdigits2_mul_ge (a b : positive) :
  Zpos (digits2_pos a) <= Zpos (digits2_pos (a * b)).
Proof.
  change (Zpos (digits2_pos a)) with (Zdigits2 (Zpos a)).
  change (Zpos (digits2_pos (a * b))) with (Zdigits2 (Zpos (a * b))).
  apply Zdigits2_mono. nia.
Qed.

(** The product of two valid floats is rounded from an aligned mantissa. *)
Lemma fmul_aligned (mx : positive) (ex : Z) (my : positive) (ey : Z) (sx sy : bool) :
  valid32 (S754_finite sx mx ex) -> valid32 (S754_finite sy my ey) ->
  ex + ey <= fexp32 (Zdigits2 (Zpos (mx * my)) + (ex + ey)).
Proof.
  intros Hx Hy. apply valid32_finite in Hx as [Hcx _].
  apply valid32_finite in Hy as [Hcy _].
  pose proof (Zdigits2_mul_ge mx my) as H1.
  pose proof (Zdigits2_mul_ge my mx) as H2. rewrite (Pos.mul_comm my mx) in H2.
  cbn [Zdigits2]. revert H1 H2. generalize (Zpos (digits2_pos (mx * my))).
  revert Hcx Hcy. generalize (Zpos (digits2_pos mx)) (Zpos (digits2_pos my)).
  unfold fexp32. intros; lia.
Qed.

Lemma fmul_below (a b : Z) (x y : float) :
  below a x -> below b y -> -125 <= a + b <= 127 ->
  below (a + b + 1) (x * y)%f32.
Proof.
  destruct x as [sx|sx| |[|] mx ex]; cbn [below]; try contradiction;
    destruct y as [sy|sy| |[|] my ey]; cbn [below]; try contradiction;
    intros Hx Hy Hk; try exact I.
  destruct Hx as [Hvx Hdx], Hy as [Hvy Hdy].
  unfold fmul, SFmul. cbn [xorb].
  apply binary_round_aux_below; [lia | | | lia].
  - exact (fmul_aligned mx ex my ey false false Hvx Hvy).
  - pose proof (Zdigits2_mul_le mx my). cbn [Zdigits2]. lia.
Qed.

Lemma fadd_below (a b : Z) (x y : float) :
  below a x -> below b y -> -125 <= Z.max a b -> Z.max a b <= 126 ->
  below (Z.max a b + 2) (x + y)%f32.
Proof.
  destruct x as [sx|sx| |[|] mx ex]; cbn [below]; try contradiction;
    destruct y as [sy|sy| |[|] my ey]; cbn [below]; try contradiction;
    intros Hx Hy Hk Hk'.
  - destruct sx, sy; exact I.
  - cbn [fadd SFadd below]. split; [tauto|lia].
  - cbn [fadd SFadd below]. split; [tauto|lia].
  - destruct Hx as [Hvx Hdx], Hy as [Hvy Hdy].
    destruct (fadd_finite false mx ex false my ey)
      as (mx' & my' & -> & Hx & Hdx' & Hy).
    cbv zeta in *. cbn [cond_Zopp]. set (ez := Z.min ex ey) in *.
    change (Zpos mx' + Zpos my') with (Zpos (mx' + my')).
    cbn [binary_normalize].
    replace (Z.max a b + 2) with ((Z.max a b + 1) + 1) by lia.
    apply binary_round_below; [|lia].
    destruct (Zdigits2_bounds mx) as [_ Hbx]. destruct (Zdigits2_bounds my) as [_ Hby].
    assert (Hpx : Zpos mx' < 2 ^ (Z.max a b - ez)).
    { rewrite Hx. apply Z.lt_le_trans with (2 ^ (Zpos (digits2_pos mx)) * 2 ^ (ex - ez)).
      - apply Z.mul_lt_mono_pos_r; [apply Z.pow_pos_nonneg; lia | exact Hbx].
      - rewrite <- Z.pow_add_r by lia. apply Z.pow_le_mono_r; lia. }
    assert (Hpy : Zpos my' < 2 ^ (Z.max a b - ez)).
    { rewrite Hy. apply Z.lt_le_trans with (2 ^ (Zpos (digits2_pos my)) * 2 ^ (ey - ez)).
      - apply Z.mul_lt_mono_pos_r; [apply Z.pow_pos_nonneg; lia | exact Hby].
      - rewrite <- Z.pow_add_r by lia. apply Z.pow_le_mono_r; lia. }
    assert (Hsum : Zpos (mx' + my') < 2 ^ (Z.max a b - ez + 1)).
    { rewrite Z.pow_add_r by lia. lia. }
    pose proof (Zdigits2_lt (Zpos (mx' + my')) (Z.max a b - ez + 1)
                  ltac:(lia) ltac:(lia) Hsum) as Hd.
    cbn [Zdigits2] in Hd. lia.
Qed.

Lemma unitT_below (t : float) : unitT t -> below 1 t.
Proof.
  intros Ht. destruct (unitT_cases t Ht) as [(s & ->)|(m & e & -> & Hv & Hs)].
  - exact I.
  - cbn [below]. split; [exact Hv|]. destruct Hs as [Hs|Hone]; [lia|].
    rewrite one_eq in Hone. injection Hone as -> ->. cbn. lia.
Qed.

(** A subtraction of finite floats is the addition of the opposite. *)
Lemma fsub_finite (sx : bool) (mx : positive) (ex : Z)
                  (sy : bool) (my : positive) (ey : Z) :
  (S754_finite sx mx ex - S754_finite sy my ey)%f32
  = (S754_finite sx mx ex + S754_finite (negb sy) my ey)%f32.
Proof.
  unfold fsub, fadd, SFsub, SFadd. f_equal.
  destruct sy; cbn [negb cond_Zopp]; lia.
Qed.

(** [1 - t] stays in the unit interval with [t]. *)
Lemma unitT_complement (t : float) : unitT t -> unitT (one - t)%f32.
Proof.
  intros Ht. destruct (unitT_cases t Ht) as [(s & ->)|(m & e & -> & Hv & Hs)].
  - rewrite one_eq. cbn. rewrite <- one_eq. exact unitT_one.
  - rewrite one_eq, fsub_finite, <- one_eq. cbn [negb].
    assert (Hb : signed true (S754_finite true m e)) by (split; [reflexivity|exact Hv]).
    destruct (fadd_unit_down one _ unitT_one Hb) as (Hn & Hval & Hup).
    split; [exact Hval|]. split; [|apply not_fltb_fleb; auto].
    (* the difference is not negative *)
    rewrite one_eq in *.
    destruct (fadd_finite false 8388608 (-23) true m e)
      as (mx' & my' & E & Hx & _ & Hy).
    cbv zeta in *. rewrite E. cbn [cond_Zopp].
    assert (Hle : Zpos my' <= Zpos mx').
    { rewrite Hx, Hy. set (ez := Z.min (-23) e).
      change (Zpos 8388608) with (2 ^ 23). rewrite <- Z.pow_add_r by lia.
      destruct Hs as [Hs|Hone].
      - destruct (Zdigits2_bounds m) as [_ Hm].
        apply Z.le_trans with (2 ^ Zpos (digits2_pos m) * 2 ^ (e - ez)).
        + apply Z.mul_le_mono_nonneg_r; [apply Z.pow_nonneg; lia | lia].
        + rewrite <- Z.pow_add_r by lia. apply Z.pow_le_mono_r; lia.
      - injection Hone as -> ->. unfold ez.
        change (Zpos 8388608) with (2 ^ 23). rewrite <- Z.pow_add_r by lia.
        reflexivity. }
    apply not_fltb_fleb; [reflexivity | apply binary_normalize_not_nan |].
    apply signed_false_lower, binary_normalize_signed. lia.
Qed.

(** The conversion of a small non-negative int. *)
Lemma of_int_below (c k : Z) :
  0 <= c < 2 ^ k -> 0 <= k <= 24 -> below k (of_int c).
Proof.
  intros Hc Hk.
  assert (Hex : exact24 c).
  { unfold exact24. pose proof (Z.pow_le_mono_r 2 k 24 ltac:(lia) ltac:(lia)). lia. }
  destruct (Z.eq_dec c 0) as [->|Hc0]; [exact I|].
  destruct (of_int_exact c Hex) as [[E _]|(s & m & e & -> & Hd & He & Hf)];
    [contradiction|].
  cbn [f2i] in Hf.
  destruct (in_int_range _); [|discriminate]. injection Hf as Hf.
  assert (Hmag : 0 <= Z.shiftl (Z.pos m) e) by (apply Z.shiftl_nonneg; lia).
  destruct (Zdigits2_bounds m) as [Hlo _]. rewrite Hd in Hlo.
  change (2 ^ (24 - 1)) with (2 ^ 23) in Hlo.
  destruct s; [exfalso; lia|].
  cbn [below]. split.
  - apply valid32_finite. rewrite Hd. unfold fexp32. lia.
  - rewrite Hd. destruct (Z_le_gt_dec (24 + e) k) as [Hle|Hgt]; [exact Hle|].
      exfalso.
      destruct (Z_le_gt_dec 0 e) as [He0|He0].
      * rewrite Z.shiftl_mul_pow2 in Hf by lia.
        assert (Hpw : 2 ^ k <= 2 ^ (23 + e)) by (apply Z.pow_le_mono_r; lia).
        rewrite Z.pow_add_r in Hpw by lia. nia.
      * rewrite Z.shiftl_div_pow2 in Hf by lia.
        assert (2 ^ k <= 2 ^ (23 + e)) by (apply Z.pow_le_mono_r; lia).
        assert (2 ^ (23 + e) <= Zpos m / 2 ^ (- e)).
        { apply Z.div_le_lower_bound; [apply Z.pow_pos_nonneg; lia|].
          rewrite <- Z.pow_add_r by lia.
          replace (- e + (23 + e)) with 23 by lia. exact Hlo. }
        lia.
Qed.

(** Casting a value below [2^31] is defined. *)
Lemma f2i_below (k : Z) (x : float) :
  below k x -> 0 <= k <= 31 -> exists n, f2i x = Some n /\ 0 <= n < 2 ^ k.
Proof.
  intros Hx Hk.
  assert (Hpow : 0 < 2 ^ k) by (apply Z.pow_pos_nonneg; lia).
  destruct x as [s|s| |[|] m e]; cbn [below] in Hx; try contradiction.
  - exists 0. split; [reflexivity | lia].
  - destruct Hx as [_ Hd]. cbn [f2i].
    assert (Hm : 0 <= Z.shiftl (Zpos m) e < 2 ^ k).
    { split; [apply Z.shiftl_nonneg; lia|].
      destruct (Zdigits2_bounds m) as [_ Hhi].
      destruct (Z_le_gt_dec 0 e) as [He0|He0].
      - rewrite Z.shiftl_mul_pow2 by lia.
        apply Z.lt_le_trans with (2 ^ Zpos (digits2_pos m) * 2 ^ e).
        + apply Z.mul_lt_mono_pos_r; [apply Z.pow_pos_nonneg; lia | exact Hhi].
        + rewrite <- Z.pow_add_r by lia. apply Z.pow_le_mono_r; lia.
      - rewrite Z.shiftl_div_pow2 by lia.
        apply Z.div_lt_upper_bound; [apply Z.pow_pos_nonneg; lia|].
        apply Z.lt_le_trans with (2 ^ Zpos (digits2_pos m)); [exact Hhi|].
        rewrite <- Z.pow_add_r by lia. apply Z.pow_le_mono_r; lia. }
    assert (Hr : in_int_range (Z.shiftl (Zpos m) e) = true).
    { unfold in_int_range, INT_MIN, INT_MAX. apply andb_true_intro.
      assert (2 ^ k <= 2 ^ 31) by (apply Z.pow_le_mono_r; lia).
      split; apply Z.leb_le; lia. }
    rewrite Hr. eexists; split; [reflexivity | exact Hm].
Qed.

Lemma bezierAxis_below (t : float) (c0 c1 c2 c3 : Z) :
  unitT t -> pixel c0 -> pixel c1 -> pixel c2 -> pixel c3 ->
  below 25 (bezierAxis t c0 c1 c2 c3).
Proof.
  intros Ht H0 H1 H2 H3. unfold bezierAxis, pixel in *.
  pose proof (unitT_below _ Ht) as Bt.
  pose proof (unitT_below _ (unitT_complement _ Ht)) as Bu.
  set (u := (one - t)%f32) in *.
  assert (B3 : below 2 (of_int 3)) by (apply of_int_below; lia).
  assert (P0 : below 10 (of_int c0)) by (apply of_int_below; lia).
  assert (P1 : below 10 (of_int c1)) by (apply of_int_below; lia).
  assert (P2 : below 10 (of_int c2)) by (apply of_int_below; lia).
  assert (P3 : below 10 (of_int c3)) by (apply of_int_below; lia).
  pose proof (fmul_below 1 1 _ _ Bu Bu ltac:(lia)) as Buu.
  pose proof (fmul_below 1 1 _ _ Bt Bt ltac:(lia)) as Btt.
  pose proof (fmul_below _ 1 _ _ Buu Bu ltac:(lia)) as Buuu.
  pose proof (fmul_below _ 1 _ _ Btt Bt ltac:(lia)) as Bttt.
  pose proof (fmul_below _ _ _ _ Buuu P0 ltac:(lia)) as T0.
  pose proof (fmul_below _ _ _ _ B3 Bu ltac:(lia)) as B3u.
  pose proof (fmul_below _ _ _ _ B3u Bu ltac:(lia)) as B3uu.
  pose proof (fmul_below _ _ _ _ B3uu Bt ltac:(lia)) as B3uut.
  pose proof (fmul_below _ _ _ _ B3uut P1 ltac:(lia)) as T1.
  pose proof (fmul_below _ _ _ _ B3u Btt ltac:(lia)) as B3utt.
  pose proof (fmul_below _ _ _ _ B3utt P2 ltac:(lia)) as T2.
  pose proof (fmul_below _ _ _ _ Bttt P3 ltac:(lia)) as T3.
  pose proof (fadd_below _ _ _ _ T0 T1 ltac:(lia) ltac:(lia)) as S1.
  pose proof (fadd_below _ _ _ _ S1 T2 ltac:(lia) ltac:(lia)) as S2.
  pose proof (fadd_below _ _ _ _ S2 T3 ltac:(lia) ltac:(lia)) as S3.
  revert S3. apply below_mono. lia.
Qed.

(** For a parameter in [0, 1] and control points inside the window, the
    casts of bezierPoint are defined. *)
Lemma bezierPoint_defined (t : float) (p0 p1 p2 p3 : Z * Z) :
  unitT t ->
  pixel (fst p0) -> pixel (snd p0) -> pixel (fst p1) -> pixel (snd p1) ->
  pixel (fst p2) -> pixel (snd p2) -> pixel (fst p3) -> pixel (snd p3) ->
  exists cur, bezierPoint t p0 p1 p2 p3 = Some cur /\
              0 <= fst cur < 2 ^ 25 /\ 0 <= snd cur < 2 ^ 25.
Proof.
  intros Ht X0 Y0 X1 Y1 X2 Y2 X3 Y3. unfold bezierPoint.
  destruct (f2i_below 25 _ (bezierAxis_below t _ _ _ _ Ht X0 X1 X2 X3) ltac:(lia))
    as (ix & -> & Hix).
  destruct (f2i_below 25 _ (bezierAxis_below t _ _ _ _ Ht Y0 Y1 Y2 Y3) ltac:(lia))
    as (iy & -> & Hiy).
  exists (ix, iy). auto.
Qed.

(** ** Exact arithmetic on small integers *)

Lemma shr_1_double (q : positive) :
  shr_1 (Build_shr_record (Zpos q~0) false false) = Build_shr_record (Zpos q) false false.
Proof. reflexivity. Qed.

Lemma iter_shr_pow2 (k : nat) (m : positive) :
  Nat.iter k shr_1 (Build_shr_record (Zpos m * 2 ^ Z.of_nat k) false false)
  = Build_shr_record (Zpos m) false false.
Proof.
  induction k as [|k IH].
  - cbn [Nat.iter]. change (2 ^ Z.of_nat 0) with 1. rewrite Z.mul_1_r. reflexivity.
  - rewrite Nat.iter_succ_r.
    replace (Zpos m * 2 ^ Z.of_nat (S k)) with (2 * (Zpos m * 2 ^ Z.of_nat k)).
    2:{ rewrite Nat2Z.inj_succ, Z.pow_succ_r by lia. lia. }
    assert (H : 0 < Zpos m * 2 ^ Z.of_nat k).
    { apply Z.mul_pos_pos; [lia | apply Z.pow_pos_nonneg; lia]. }
    destruct (Zpos m * 2 ^ Z.of_nat k) as [|q|q] eqn:E; try lia.
    change (2 * Zpos q) with (Zpos q~0). rewrite shr_1_double. exact IH.
Qed.

(** Shifting out the zeros a mantissa ends with loses nothing. *)
Lemma shr_rescale (m : positive) (e k n : Z) :
  0 <= k -> 0 <= n ->
  shr (Build_shr_record (Zpos m * 2 ^ k) false false) e (n + k)
  = shr (Build_shr_record (Zpos m) false false) (e + k) n.
Proof.
  intros Hk Hn. unfold shr.
  destruct (Z.eq_dec k 0) as [->|Hk0].
  - rewrite Z.add_0_r, Z.add_0_r. change (2 ^ 0) with 1. rewrite Z.mul_1_r.
    reflexivity.
  - destruct (n + k) as [|p|p] eqn:E; try lia.
    rewrite iter_pos_nat.
    replace (Pos.to_nat p) with (Z.to_nat n + Z.to_nat k)%nat by lia.
    rewrite Nat.iter_add.
    pose proof (iter_shr_pow2 (Z.to_nat k) m) as Hit.
    rewrite Z2Nat.id in Hit by lia. rewrite Hit.
    destruct n as [|pn|pn]; try lia.
    + cbn [Z.to_nat Nat.iter]. f_equal. lia.
    + rewrite iter_pos_nat. f_equal. lia.
Qed.

Lemma Zdigits2_mul_pow2 (m : positive) (k : Z) :
  0 <= k -> Zdigits2 (Zpos m * 2 ^ k) = Zpos (digits2_pos m) + k.
Proof.
  intros Hk. rewrite <- Z.shiftl_mul_pow2 by lia. apply Zdigits2_shiftl, Hk.
Qed.

(** Rounding is blind to zeros traded between mantissa and exponent. *)
Lemma binary_round_aux_rescale (s : bool) (m : positive) (e k : Z) :
  0 <= k -> e + k <= fexp32 (Zpos (digits2_pos m) + (e + k)) ->
  binary_round_aux prec emax s (Zpos m * 2 ^ k) e loc_Exact
  = binary_round_aux prec emax s (Zpos m) (e + k) loc_Exact.
Proof.
  intros Hk Hal. unfold binary_round_aux.
  assert (E : shr_fexp prec emax (Zpos m * 2 ^ k) e loc_Exact
              = shr_fexp prec emax (Zpos m) (e + k) loc_Exact).
  { unfold shr_fexp. change (fexp prec emax) with fexp32.
    rewrite Zdigits2_mul_pow2 by lia. cbn [shr_record_of_loc Zdigits2].
    replace (Zpos (digits2_pos m) + k + e) with (Zpos (digits2_pos m) + (e + k)) by lia.
    set (c := fexp32 (Zpos (digits2_pos m) + (e + k))) in *.
    replace (c - e) with ((c - (e + k)) + k) by lia.
    apply shr_rescale; lia. }
  rewrite E. reflexivity.
Qed.

(** The canonical form of a small integer. *)
Lemma binary_round_int (s : bool) (p : positive) :
  Zpos p < 2 ^ 24 ->
  exists mz : positive,
    binary_round prec emax s p 0
    = S754_finite s mz (Zpos (digits2_pos p) - 24) /\
    Zpos mz = Zpos p * 2 ^ (24 - Zpos (digits2_pos p)) /\
    Zpos (digits2_pos mz) = 24.
Proof.
  intros Hp.
  assert (Hd : Zpos (digits2_pos p) <= 24).
  { change (Zpos (digits2_pos p)) with (Zdigits2 (Zpos p)). apply Zdigits2_lt; lia. }
  unfold binary_round. change (fexp prec emax) with fexp32.
  destruct (shl_align_spec p 0 (fexp32 (Zpos (digits2_pos p) + 0))) as (He & Hm & Hdm).
  cbv zeta in *.
  destruct (shl_align p 0 (fexp32 (Zpos (digits2_pos p) + 0))) as [mz ez].
  cbn [fst snd] in *.
  assert (Hmin : Z.min 0 (fexp32 (Zpos (digits2_pos p) + 0))
                 = Zpos (digits2_pos p) - 24) by (unfold fexp32; lia).
  rewrite Hmin in He, Hm, Hdm. subst ez. exists mz.
  assert (Hd24 : Zpos (digits2_pos mz) = 24) by lia.
  split; [apply binary_round_aux_exact; [exact Hd24 | lia]|].
  split; [|exact Hd24].
  rewrite Hm. f_equal. f_equal. lia.
Qed.

(** Rounding an integer scaled by a power of two. *)
Lemma binary_round_scaled (s : bool) (q p : positive) (k : Z) :
  Zpos p < 2 ^ 24 -> 0 <= k -> Zpos q = Zpos p * 2 ^ k ->
  binary_round prec emax s q (- k) = binary_round prec emax s p 0.
Proof.
  intros Hp Hk Hq.
  destruct (binary_round_int s p Hp) as (mz & -> & Hmz & Hd24).
  assert (Hd : Zpos (digits2_pos p) <= 24).
  { change (Zpos (digits2_pos p)) with (Zdigits2 (Zpos p)). apply Zdigits2_lt; lia. }
  assert (Hdq : Zpos (digits2_pos q) = Zpos (digits2_pos p) + k).
  { change (Zpos (digits2_pos q)) with (Zdigits2 (Zpos q)).
    rewrite Hq. apply Zdigits2_mul_pow2, Hk. }
  set (c := Zpos (digits2_pos p) - 24) in *.
  unfold binary_round. change (fexp prec emax) with fexp32.
  destruct (shl_align_spec q (- k) (fexp32 (Zpos (digits2_pos q) + - k)))
    as (He & Hm & Hdm).
  cbv zeta in *.
  destruct (shl_align q (- k) (fexp32 (Zpos (digits2_pos q) + - k))) as [m' e'].
  cbn [fst snd] in *.
  assert (Hc : fexp32 (Zpos (digits2_pos q) + - k) = c).
  { rewrite Hdq. unfold fexp32, c. lia. }
  rewrite Hc in *.
  destruct (Z_le_gt_dec c (- k)) as [Hle|Hgt].
  - (* aligned to the left: the canonical mantissa itself *)
    assert (Hmin : Z.min (- k) c = c) by lia.
    rewrite Hmin in He, Hm, Hdm. subst e'.
    assert (m' = mz).
    { apply Pos2Z.inj. rewrite Hm, Hmz, Hq.
      rewrite <- Z.mul_assoc, <- Z.pow_add_r by lia. f_equal. f_equal.
      unfold c. lia. }
    subst m'. apply binary_round_aux_exact; [exact Hd24 | unfold c; lia].
  - (* zeros to shift out *)
    assert (Hmin : Z.min (- k) c = - k) by lia.
    rewrite Hmin in He, Hm, Hdm. subst e'.
    assert (Hm' : Zpos m' = Zpos mz * 2 ^ (c + k)).
    { rewrite Hm, Hmz, Hq. replace (- k - - k) with 0 by lia.
      change (2 ^ 0) with 1. rewrite Z.mul_1_r.
      rewrite <- Z.mul_assoc, <- Z.pow_add_r by (unfold c; lia).
      f_equal. f_equal. unfold c. lia. }
    rewrite Hm'. rewrite binary_round_aux_rescale.
    + replace (- k + (c + k)) with c by lia.
      apply binary_round_aux_exact; [exact Hd24 | unfold c; lia].
    + lia.
    + rewrite Hd24. unfold fexp32, c. lia.
Qed.

Lemma binary_normalize_scaled (v k : Z) :
  small v -> 0 <= k ->
  binary_normalize prec emax (v * 2 ^ k) (- k) false = of_int v.
Proof.
  intros Hv Hk. unfold of_int, small in *.
  assert (Hpow : 0 < 2 ^ k) by (apply Z.pow_pos_nonneg; lia).
  destruct v as [|p|p].
  - reflexivity.
  - destruct (Zpos p * 2 ^ k) as [|q|q] eqn:E; try lia.
    cbn [binary_normalize]. apply binary_round_scaled; [lia | exact Hk | symmetry; exact E].
  - destruct (Zneg p * 2 ^ k) as [|q|q] eqn:E; try lia.
    cbn [binary_normalize]. apply binary_round_scaled; [lia | exact Hk | lia].
Qed.

(** The conversion of a small integer, as mantissa and exponent. *)
Lemma of_int_small (v : Z) :
  small v -> v <> 0 ->
  exists (mz : positive) (ez : Z),
    of_int v = S754_finite (v <? 0) mz ez /\
    Zpos mz = Z.abs v * 2 ^ (- ez) /\ -23 <= ez <= 0 /\
    ez = Zdigits2 (Z.abs v) - 24 /\ Zpos (digits2_pos mz) = 24.
Proof.
  intros Hv Hv0. unfold small, of_int in *.
  assert (Hd : forall p, Zpos p < 2 ^ 24 -> 0 < Zpos (digits2_pos p) <= 24).
  { intros p Hp. split; [lia|].
    change (Zpos (digits2_pos p)) with (Zdigits2 (Zpos p)). apply Zdigits2_lt; lia. }
  destruct v as [|p|p]; [contradiction| |]; cbn [binary_normalize Z.ltb Z.compare Z.abs].
  - destruct (binary_round_int false p ltac:(lia)) as (mz & -> & Hmz & Hd24).
    exists mz, (Zpos (digits2_pos p) - 24). specialize (Hd p ltac:(lia)).
    split; [reflexivity|]. split; [rewrite Hmz; f_equal; f_equal; lia|].
    split; [lia|]. split; [reflexivity | exact Hd24].
  - destruct (binary_round_int true p ltac:(lia)) as (mz & -> & Hmz & Hd24).
    exists mz, (Zpos (digits2_pos p) - 24). specialize (Hd p ltac:(lia)).
    split; [reflexivity|]. split; [rewrite Hmz; f_equal; f_equal; lia|].
    split; [lia|]. split; [reflexivity | exact Hd24].
Qed.

Lemma of_int_0 : of_int 0 = zero.
Proof. reflexivity. Qed.

Lemma cond_Zopp_abs (v : Z) : cond_Zopp (v <? 0) (Z.abs v) = v.
Proof. destruct v; reflexivity. Qed.

Lemma exact_add (a b : Z) :
  small a -> small b -> small (a + b) ->
  (of_int a + of_int b)%f32 = of_int (a + b).
Proof.
  intros Ha Hb Hab.
  destruct (Z.eq_dec a 0) as [->|Ha0].
  { rewrite Z.add_0_l. destruct (Z.eq_dec b 0) as [->|Hb0]; [reflexivity|].
    destruct (of_int_small b Hb Hb0) as (mb & eb & -> & _). reflexivity. }
  destruct (Z.eq_dec b 0) as [->|Hb0].
  { rewrite Z.add_0_r.
    destruct (of_int_small a Ha Ha0) as (ma & ea & -> & _). reflexivity. }
  destruct (of_int_small a Ha Ha0) as (ma & ea & Ea & Hma & Hea & _).
  destruct (of_int_small b Hb Hb0) as (mb & eb & Eb & Hmb & Heb & _).
  rewrite Ea, Eb.
  destruct (fadd_finite (a <? 0) ma ea (b <? 0) mb eb)
    as (ma' & mb' & -> & Hma' & _ & Hmb').
  cbv zeta in *. set (ez := Z.min ea eb) in *.
  assert (Ha' : Zpos ma' = Z.abs a * 2 ^ (- ez)).
  { rewrite Hma', Hma, <- Z.mul_assoc, <- Z.pow_add_r by lia.
    f_equal. f_equal. lia. }
  assert (Hb' : Zpos mb' = Z.abs b * 2 ^ (- ez)).
  { rewrite Hmb', Hmb, <- Z.mul_assoc, <- Z.pow_add_r by lia.
    f_equal. f_equal. lia. }
  rewrite Ha', Hb'.
  replace (cond_Zopp (a <? 0) (Z.abs a * 2 ^ (- ez))
           + cond_Zopp (b <? 0) (Z.abs b * 2 ^ (- ez)))
    with ((a + b) * 2 ^ (- ez)).
  2:{ rewrite <- (cond_Zopp_abs a) at 1. rewrite <- (cond_Zopp_abs b) at 1.
      destruct (a <? 0), (b <? 0); cbn [cond_Zopp]; lia. }
  replace ez with (- (- ez)) at 2 by lia.
  apply binary_normalize_scaled; [exact Hab | lia].
Qed.

Lemma of_int_opp (b : Z) :
  small b -> b <> 0 -> of_int (- b) = SFopp (of_int b).
Proof.
  intros Hb Hb0. unfold small in Hb. destruct b as [|p|p]; [contradiction| |].
  - unfold of_int. cbn [Z.opp binary_normalize].
    destruct (binary_round_int false p ltac:(lia)) as (m1 & -> & H1 & _).
    destruct (binary_round_int true p ltac:(lia)) as (m2 & -> & H2 & _).
    cbn [SFopp negb]. f_equal. apply Pos2Z.inj. congruence.
  - unfold of_int. cbn [Z.opp binary_normalize].
    destruct (binary_round_int false p ltac:(lia)) as (m1 & -> & H1 & _).
    destruct (binary_round_int true p ltac:(lia)) as (m2 & -> & H2 & _).
    cbn [SFopp negb]. f_equal. apply Pos2Z.inj. congruence.
Qed.

Lemma exact_sub (a b : Z) :
  small a -> small b -> small (a - b) ->
  (of_int a - of_int b)%f32 = of_int (a - b).
Proof.
  intros Ha Hb Hab.
  assert (Hnb : small (- b)) by (unfold small in *; lia).
  destruct (Z.eq_dec b 0) as [->|Hb0].
  { rewrite Z.sub_0_r. destruct (Z.eq_dec a 0) as [->|Ha0]; [reflexivity|].
    destruct (of_int_small a Ha Ha0) as (ma & ea & -> & _). reflexivity. }
  destruct (Z.eq_dec a 0) as [->|Ha0].
  { rewrite Z.sub_0_l, of_int_opp by assumption.
    destruct (of_int_small b Hb Hb0) as (mb & eb & -> & _). reflexivity. }
  rewrite <- Z.add_opp_r, <- exact_add by (rewrite ?Z.add_opp_r; assumption).
  rewrite of_int_opp by assumption.
  destruct (of_int_small a Ha Ha0) as (ma & ea & -> & _).
  destruct (of_int_small b Hb Hb0) as (mb & eb & -> & _).
  apply fsub_finite.
Qed.

Lemma Zdigits2_abs_pos (v : Z) : v <> 0 -> 0 < Zdigits2 (Z.abs v).
Proof. destruct v; cbn; lia. Qed.

Lemma exact_sq (a : Z) :
  small (a * a) -> (of_int a * of_int a)%f32 = of_int (a * a).
Proof.
  intros Haa.
  destruct (Z.eq_dec a 0) as [->|Ha0]; [reflexivity|].
  assert (Ha : small a) by (unfold small in *; nia).
  assert (Haa0 : a * a <> 0) by nia.
  destruct (of_int_small a Ha Ha0) as (ma & ea & -> & Hma & Hea & Hda & _).
  destruct (of_int_small (a * a) Haa Haa0) as (M & E & -> & HM & HE & HdE & Hd24).
  replace (a * a <? 0) with false by (symmetry; apply Z.ltb_ge; nia).
  unfold fmul, SFmul. rewrite xorb_nilpotent.
  assert (Habs : Z.abs (a * a) = Z.abs a * Z.abs a) by (rewrite Z.abs_mul; reflexivity).
  assert (Hd12 : Zdigits2 (Z.abs a) <= 12).
  { apply Zdigits2_lt; [lia | lia |]. unfold small in Haa.
    change (2 ^ 12) with 4096. change (2 ^ 24) with (4096 * 4096) in Haa. nia. }
  pose proof (Zdigits2_abs_pos (a * a) Haa0) as Hdp.
  assert (Hk : 0 <= E - (ea + ea)) by lia.
  assert (Hprod : Zpos (ma * ma) = Zpos M * 2 ^ (E - (ea + ea))).
  { rewrite Pos2Z.inj_mul, Hma, HM, Habs.
    replace (Z.abs a * 2 ^ (- ea) * (Z.abs a * 2 ^ (- ea)))
      with (Z.abs a * Z.abs a * (2 ^ (- ea) * 2 ^ (- ea))) by ring.
    rewrite <- Z.pow_add_r by lia.
    replace (- ea + - ea) with (- E + (E - (ea + ea))) by lia.
    rewrite Z.pow_add_r by lia. ring. }
  rewrite Hprod, binary_round_aux_rescale.
  - replace (ea + ea + (E - (ea + ea))) with E by lia.
    apply binary_round_aux_exact; [exact Hd24 | lia].
  - exact Hk.
  - rewrite Hd24. unfold fexp32. lia.
Qed.

(** The order of two canonical magnitudes is the order of the integers. *)
Lemma mag_compare (a b : Z) (ma mb : positive) (ea eb : Z) :
  0 < a -> 0 < b ->
  Zpos ma = a * 2 ^ (- ea) -> ea = Zdigits2 a - 24 -> ea <= 0 ->
  Zpos mb = b * 2 ^ (- eb) -> eb = Zdigits2 b - 24 -> eb <= 0 ->
  match ea ?= eb with
  | Lt => Lt
  | Gt => Gt
  | Eq => Pos.compare_cont Eq ma mb
  end = (a ?= b).
Proof.
  intros Ha Hb Hma Hea Hea0 Hmb Heb Heb0.
  destruct (Zdigits2_pos_bounds a Ha) as (Hda & Hla & Hua).
  destruct (Zdigits2_pos_bounds b Hb) as (Hdb & Hlb & Hub).
  destruct (Z.compare_spec ea eb) as [E|E|E].
  - change (Pos.compare_cont Eq ma mb) with (Zpos ma ?= Zpos mb).
    rewrite Hma, Hmb, E.
    assert (0 < 2 ^ (- eb)) by (apply Z.pow_pos_nonneg; lia).
    destruct (Z.compare_spec a b) as [F|F|F].
    + subst. apply Z.compare_eq_iff. reflexivity.
    + apply Z.compare_lt_iff. nia.
    + apply Z.compare_gt_iff. nia.
  - symmetry. apply Z.compare_lt_iff.
    apply Z.lt_le_trans with (2 ^ Zdigits2 a); [lia|].
    apply Z.le_trans with (2 ^ (Zdigits2 b - 1)); [|lia].
    apply Z.pow_le_mono_r; lia.
  - symmetry. apply Z.compare_gt_iff.
    apply Z.lt_le_trans with (2 ^ Zdigits2 b); [lia|].
    apply Z.le_trans with (2 ^ (Zdigits2 a - 1)); [|lia].
    apply Z.pow_le_mono_r; lia.
Qed.

Lemma exact_compare (a b : Z) :
  small a -> small b -> SFcompare (of_int a) (of_int b) = Some (a ?= b).
Proof.
  intros Ha Hb.
  destruct (Z.eq_dec a 0) as [->|Ha0]; destruct (Z.eq_dec b 0) as [->|Hb0].
  - reflexivity.
  - destruct (of_int_small b Hb Hb0) as (mb & eb & -> & _).
    cbn [of_int binary_normalize SFcompare]. f_equal.
    destruct (Z.ltb_spec b 0); symmetry;
      [apply Z.compare_gt_iff | apply Z.compare_lt_iff]; lia.
  - destruct (of_int_small a Ha Ha0) as (ma & ea & -> & _).
    cbn [of_int binary_normalize SFcompare]. f_equal.
    destruct (Z.ltb_spec a 0); symmetry;
      [apply Z.compare_lt_iff | apply Z.compare_gt_iff]; lia.
  - destruct (of_int_small a Ha Ha0) as (ma & ea & -> & Hma & Hea & Hda & _).
    destruct (of_int_small b Hb Hb0) as (mb & eb & -> & Hmb & Heb & Hdb & _).
    cbn [SFcompare]. f_equal.
    destruct (Z.ltb_spec a 0) as [Sa|Sa]; destruct (Z.ltb_spec b 0) as [Sb|Sb].
    + (* both negative *)
      pose proof (mag_compare (Z.abs a) (Z.abs b) ma mb ea eb
                    ltac:(lia) ltac:(lia) Hma Hda ltac:(lia) Hmb Hdb ltac:(lia)) as H.
      assert (Hab : (a ?= b) = CompOpp (Z.abs a ?= Z.abs b)).
      { rewrite !Z.abs_neq by lia. rewrite <- Z.compare_opp.
        rewrite Z.compare_antisym. reflexivity. }
      rewrite Hab, <- H. destruct (ea ?= eb); reflexivity.
    + symmetry. apply Z.compare_lt_iff. lia.
    + symmetry. apply Z.compare_gt_iff. lia.
    + pose proof (mag_compare (Z.abs a) (Z.abs b) ma mb ea eb
                    ltac:(lia) ltac:(lia) Hma Hda ltac:(lia) Hmb Hdb ltac:(lia)) as H.
      rewrite H, !Z.abs_eq by lia. reflexivity.
Qed.

Lemma exact_ltb (a b : Z) :
  small a -> small b -> (of_int a <? of_int b)%f32 = (a <? b).
Proof.
  intros Ha Hb. unfold fltb, SFltb. rewrite (exact_compare a b Ha Hb).
  unfold Z.ltb. destruct (a ?= b); reflexivity.
Qed.

Lemma exact_leb (a b : Z) :
  small a -> small b -> (of_int a <=? of_int b)%f32 = (a <=? b).
Proof.
  intros Ha Hb. unfold fleb, SFleb. rewrite (exact_compare a b Ha Hb).
  unfold Z.leb. destruct (a ?= b); reflexivity.
Qed.

Lemma exact_dist2 (x1 y1 x2 y2 : Z) :
  coord x1 -> coord y1 -> coord x2 -> coord y2 ->
  dist2 (of_int x1) (of_int y1) (of_int x2) (of_int y2)
  = of_int (dist2Z x1 y1 x2 y2) /\ small (dist2Z x1 y1 x2 y2).
Proof.
  unfold coord, dist2, dist2Z. intros H1 H2 H3 H4.
  assert (Hs : forall v, -4096 < v < 4096 -> small v).
  { intros v Hv. unfold small. change (2 ^ 24) with 16777216. lia. }
  assert (Hq : forall v, -4096 < v < 4096 -> small (v * v)).
  { intros v Hv. unfold small. change (2 ^ 24) with 16777216. nia. }
  assert (Hsum : small ((x1 - x2) * (x1 - x2) + (y1 - y2) * (y1 - y2))).
  { unfold small. change (2 ^ 24) with 16777216. nia. }
  split; [|exact Hsum].
  rewrite !exact_sub by (apply Hs; lia).
  rewrite !exact_sq by (apply Hq; lia).
  apply exact_add; [apply Hq; lia | apply Hq; lia | exact Hsum].
Qed.

(** The conversion of an integer too large to be held exactly: of the
    sign of the integer, and an infinity or of positive exponent. *)
Lemma of_int_large (x : Z) :
  ~ small x ->
  of_int x = S754_infinity (x <? 0) \/
  exists (q : positive) (e : Z), of_int x = S754_finite (x <? 0) q e /\ 0 < e.
Proof.
  intros Hns. unfold small in *.
  assert (Hshape : forall s p, 2 ^ 24 <= Zpos p ->
            binary_round prec emax s p 0 = S754_infinity s \/
            exists q e, binary_round prec emax s p 0 = S754_finite s q e /\ 0 < e).
  { intros s p Hp. pose proof (binary_round_shape s p 0) as H. cbv zeta in H.
    assert (Hd : 24 < Zpos (digits2_pos p)).
    { change (Zpos (digits2_pos p)) with (Zdigits2 (Zpos p)).
      apply Zdigits2_ge; lia. }
    destruct (binary_round prec emax s p 0) as [s'|s'| |s' q e2].
    - exfalso. destruct H as [_ H]. unfold fexp32 in H. lia.
    - left. destruct H as [-> _]. reflexivity.
    - contradiction.
    - right. destruct H as (-> & _ & _ & Hsh). exists q, e2.
      split; [reflexivity|]. unfold fexp32 in Hsh. lia. }
  unfold of_int. destruct x as [|p|p]; cbn [binary_normalize Z.ltb Z.compare].
  - exfalso. apply Hns. lia.
  - apply Hshape. lia.
  - apply Hshape. lia.
Qed.

(** Comparing the conversion of any integer with that of a small one. *)
Lemma of_int_compare (x b : Z) :
  small b -> SFcompare (of_int x) (of_int b) = Some (x ?= b).
Proof.
  intros Hb.
  assert (Hdec : small x \/ ~ small x) by (unfold small; lia).
  destruct Hdec as [Hs|Hns]; [apply exact_compare; assumption|].
  assert (Hxb : if x <? 0 then x < b else b < x).
  { unfold small in *. destruct (Z.ltb_spec x 0); lia. }
  assert (Hcmp : Some (if x <? 0 then Lt else Gt) = Some (x ?= b)).
  { f_equal. destruct (x <? 0); symmetry;
      [apply Z.compare_lt_iff | apply Z.compare_gt_iff]; exact Hxb. }
  destruct (Z.eq_dec b 0) as [->|Hb0].
  - destruct (of_int_large x Hns) as [->|(q & e & -> & He)]; exact Hcmp.
  - destruct (of_int_small b Hb Hb0) as (mb & eb & -> & _ & Heb & _).
    destruct (of_int_large x Hns) as [->|(q & e & -> & He)]; [exact Hcmp|].
    cbn [SFcompare]. f_equal.
    destruct (x <? 0), (b <? 0);
      try (destruct (Z.compare_spec e eb); try lia);
      symmetry; try (apply Z.compare_lt_iff; exact Hxb);
      apply Z.compare_gt_iff; exact Hxb.
Qed.

Lemma of_int_leb (x b : Z) :
  small b -> (of_int x <=? of_int b)%f32 = (x <=? b).
Proof.
  intros Hb. unfold fleb, SFleb. rewrite (of_int_compare x b Hb).
  unfold Z.leb. destruct (x ?= b); reflexivity.
Qed.

Lemma of_int_geb (x b : Z) :
  small b -> (of_int x >=? of_int b)%f32 = (b <=? x).
Proof.
  intros Hb. unfold fgeb, SFleb. rewrite SFcompare_swap, (of_int_compare x b Hb).
  unfold Z.leb. rewrite (Z.compare_antisym x b).
  destruct (x ?= b); reflexivity.
Qed.

Lemma small_const (c : Z) : -1024 <= c <= 1024 -> small c.
Proof. unfold small. change (2 ^ 24) with 16777216. lia. Qed.

(** The game area on the points of the pixel grid: the closed rectangle. *)
Lemma inGameArea_int (x y : Z) :
  inGameArea (of_int x) (of_int y)
  = (0 <=? x) && (x <=? W) && (GAME_Y0 <=? y) && (y <=? GAME_Y1).
Proof.
  unfold inGameArea.
  rewrite of_int_geb, of_int_leb, of_int_geb, of_int_leb;
    try (apply small_const; vm_compute; split; discriminate).
  reflexivity.
Qed.

(** ** Finite floats *)

Lemma between_finite (lo hi x : float) :
  is_finite lo = true -> is_finite hi = true -> between lo hi x ->
  is_finite x = true.
Proof.
  intros Hlo Hhi [H1 H2].
  destruct x as [s|s| |s m e]; try reflexivity.
  - destruct s.
    + destruct lo; cbn in *; discriminate.
    + destruct hi; cbn in *; discriminate.
  - destruct lo; cbn in *; discriminate.
Qed.

Lemma currentSpeed_cases (s : State) :
  currentSpeed s = SPEED_BOOST \/ currentSpeed s = PLAYER_SPEED.
Proof. unfold currentSpeed. destruct (_ <? _)%f32; auto. Qed.

Lemma velocity_finite (s : State) :
  is_finite (fst (velocity s)) = true /\ is_finite (snd (velocity s)) = true.
Proof.
  unfold velocity.
  destruct (currentSpeed_cases s) as [-> | ->];
    destruct (keyW s || keyUp s), (keyS s || keyDown s),
             (keyA s || keyLeft s), (keyD s || keyRight s);
    split; vm_compute; reflexivity.
Qed.

Lemma candidate_inArena (dx dy : float) (s : State) :
  Player.r (player s) = of_int 14 -> inArena (player s) ->
  is_nan dx = false -> is_nan dy = false ->
  between (of_int 14) (of_int W - of_int 14)%f32 (fst (candidate dx dy s)) /\
  between (of_int GAME_Y0 + of_int 14)%f32 (of_int GAME_Y1 - of_int 14)%f32
          (snd (candidate dx dy s)).
Proof.
  intros Hr [Hx Hy] Hdx Hdy. unfold candidate. cbn [fst snd].
  rewrite Hr in *.
  split; apply clampf_between; try (vm_compute; reflexivity);
    apply fadd_not_nan; auto.
  - eapply between_finite; [| |exact Hx]; vm_compute; reflexivity.
  - eapply between_finite; [| |exact Hy]; vm_compute; reflexivity.
Qed.

Lemma Forall_filter {A : Type} (P : A -> Prop) (f : A -> bool) (l : list A) :
  Forall P l -> Forall P (filter f l).
Proof.
  intros H. apply Forall_forall. intros x Hx. apply filter_In in Hx as [Hx _].
  revert x Hx. apply Forall_forall. exact H.
Qed.

Lemma countdown_nonneg (s : State) (rem : Z) : countdown s = Some rem -> 0 <= rem.
Proof.
  unfold countdown. destruct (f2i _); [|discriminate].
  intros E. apply Some_inj in E. subst rem. cbv zeta.
  destruct (Z.gtb_spec (wrap32 (ROUND_TIME_SEC - z)) 0); lia.
Qed.

(** The pick-up loops on the power-ups: the ones the player overlaps go. *)
Lemma pickups_powerups (s1 : State) :
  powerups (powerupLoop 0 (collectLoop 0 s1))
  = filter (fun p => negb (touches (player s1) p)) (powerups s1).
Proof.
  rewrite powerupLoop_eq, collectLoop_eq.
  cbn [powerups player set_powerups set_player set_collectibles firstn skipn app].
  reflexivity.
Qed.

(** The target updater moves the parameter and the direction only. *)
Lemma updateTarget_target (dt : float) (s : State) :
  let tg := target s in
  exists t' d',
    updateTarget dt s
    = set_target (Target.mk (Target.r tg) (Target.p0 tg) (Target.p1 tg)
                            (Target.p2 tg) (Target.p3 tg) t' d') s.
Proof.
  cbv zeta. unfold updateTarget.
  destruct (_ >? _)%f32; destruct (_ <? _)%f32; eauto.
Qed.

Lemma advance_frame (nowMs : Z) (s : State) :
  let a := advance nowMs s in
  obstacles a = obstacles s /\ collectibles a = collectibles s /\
  powerups a = powerups s /\ player a = player s /\ phase a = phase s /\
  timeLeft a = timeLeft s /\ nextHitTime a = nextHitTime s /\
  roundStart a = roundStart s /\ placeMode a = placeMode s /\
  timeSec a = (timeSec s + timerDt nowMs s)%f32 /\ lastMs a = nowMs /\
  Target.r (target a) = Target.r (target s) /\
  Target.p0 (target a) = Target.p0 (target s) /\
  Target.p1 (target a) = Target.p1 (target s) /\
  Target.p2 (target a) = Target.p2 (target s) /\
  Target.p3 (target a) = Target.p3 (target s).
Proof.
  cbv zeta. unfold advance. cbv zeta.
  match goal with
  | |- context [updateTarget ?dt ?s0] =>
      destruct (updateTarget_target dt s0) as (t' & d' & ->)
  end.
  cbn. repeat split.
Qed.

Lemma advance_keys (nowMs : Z) (s : State) :
  let a := advance nowMs s in
  keyW a = keyW s /\ keyA a = keyA s /\ keyS a = keyS s /\ keyD a = keyD s /\
  keyUp a = keyUp s /\ keyLeft a = keyLeft s /\ keyDown a = keyDown s /\
  keyRight a = keyRight s.
Proof.
  cbv zeta. unfold advance. cbv zeta.
  match goal with
  | |- context [updateTarget ?dt ?s0] =>
      destruct (updateTarget_target dt s0) as (t' & d' & ->)
  end.
  cbn. repeat split.
Qed.

Lemma finite_not_nan (x : float) : is_finite x = true -> is_nan x = false.
Proof. destruct x; cbn; congruence. Qed.

Lemma advance_sound (nowMs : Z) (s : State) : sound s -> sound (advance nowMs s).
Proof.
  intros (Hg & Hp & Ha & Hl & Ht0 & Ht & Hw).
  destruct (advance_frame nowMs s)
    as (Ho & Hc & Hpu & Hpl & Hph & Htl & _ & _ & _ & _ & _ & _ & H0 & H1 & H2 & H3).
  cbv zeta in *.
  unfold sound, pointsOK, wellPlaced in Hp, Hw |- *.
  rewrite Ho, Hc, Hpu, Hpl, Hph, Htl, H0, H1, H2, H3.
  split; [|tauto].
  unfold advance. cbv zeta. apply updateTarget_good; [exact Hg|].
  apply finite_not_nan, timerDt_finite.
Qed.

Section Sound.

Variable atan2f : float -> float -> float.

(** A play-phase tick that gets past the countdown, as one equation. *)
Lemma updateGame_eq (dt : float) (s : State) (remaining : Z) (cur : Z * Z) :
  phase s = PHASE_PLAY -> countdown s = Some remaining -> 0 < remaining ->
  targetPos s = Some cur ->
  let s3 := powerupLoop 0 (collectLoop 0
              (moveStep atan2f dt (set_timeLeft remaining s))) in
  updateGame atan2f dt s
  = Some (if intersectCircleCircle (Player.x (player s3)) (Player.y (player s3))
               (Player.r (player s3)) (of_int (fst cur)) (of_int (snd cur))
               (Target.r (target s3))
          then set_phase PHASE_WIN s3 else s3).
Proof.
  intros Hph Hcd Hrem Htp. cbv zeta.
  unfold updateGame. rewrite Hph, Hcd. cbn [Phase_eqb negb timeLeft set_timeLeft].
  destruct (remaining <=? 0) eqn:E; [apply Z.leb_le in E; lia|].
  unfold playStep. cbv zeta.
  change (mkState (obstacles s) (collectibles s) (powerups s) (player s)
            (target s) (nextHitTime s) (phase s) (placeMode s) (timeSec s)
            (roundStart s) remaining (keyW s) (keyA s) (keyS s) (keyD s)
            (keyUp s) (keyLeft s) (keyDown s) (keyRight s) (lastMs s))
    with (set_timeLeft remaining s).
  set (st := set_timeLeft remaining s).
  apply winCheck_cases.
  destruct (moveStep_frame atan2f dt st) as (_ & _ & _ & Htg & _).
  destruct (pickups_frame (moveStep atan2f dt st)) as (_ & Htg3 & _).
  cbv zeta in Htg, Htg3. unfold targetPos in *. rewrite Htg3, Htg. exact Htp.
Qed.

(** What the win check leaves of the state the pick-up loops produce. *)
Lemma updateGame_pickups (dt : float) (s s' : State) (remaining : Z) (cur : Z * Z) :
  phase s = PHASE_PLAY -> countdown s = Some remaining -> 0 < remaining ->
  targetPos s = Some cur -> updateGame atan2f dt s = Some s' ->
  let s1 := moveStep atan2f dt (set_timeLeft remaining s) in
  let s3 := powerupLoop 0 (collectLoop 0 s1) in
  player s' = player s3 /\
  powerups s' = filter (fun p => negb (touches (player s1) p)) (powerups s).
Proof.
  intros Hph Hcd Hrem Htp Hu. cbv zeta.
  pose proof (updateGame_eq dt s remaining cur Hph Hcd Hrem Htp) as Heq.
  cbv zeta in Heq. rewrite Hu in Heq. apply Some_inj in Heq.
  pose proof (pickups_powerups (moveStep atan2f dt (set_timeLeft remaining s)))
    as Hpu.
  destruct (moveStep_frame atan2f dt (set_timeLeft remaining s))
    as (_ & _ & Hp & _). cbv zeta in Hp. rewrite Hp in Hpu.
  change (powerups (set_timeLeft remaining s)) with (powerups s) in Hpu.
  revert Heq Hpu.
  generalize (powerupLoop 0 (collectLoop 0
                (moveStep atan2f dt (set_timeLeft remaining s)))).
  intros s3 Heq Hpu. rewrite Heq.
  match goal with |- context [if ?c then _ else _] => destruct c end;
    (split; [reflexivity | exact Hpu]).
Qed.

(** The outcomes of a tick of updateGame. *)
Lemma updateGame_cases (dt : float) (s s' : State) :
  updateGame atan2f dt s = Some s' ->
  (phase s <> PHASE_PLAY /\ s' = s) \/
  (phase s = PHASE_PLAY /\ countdown s = Some 0 /\
   s' = set_phase PHASE_LOSE (set_timeLeft 0 s)) \/
  (phase s = PHASE_PLAY /\
   exists remaining cur,
     countdown s = Some remaining /\ 0 < remaining /\ targetPos s = Some cur).
Proof.
  intros Hu.
  destruct (Phase_eqb (phase s) PHASE_PLAY) eqn:Hph.
  2:{ left. unfold updateGame in Hu. rewrite Hph in Hu. injection Hu as <-.
      split; [|reflexivity]. intros E. apply Phase_eqb_eq in E. congruence. }
  right. apply Phase_eqb_eq in Hph.
  destruct (countdown s) as [remaining|] eqn:Hcd.
  2:{ unfold updateGame in Hu. rewrite Hph, Hcd in Hu. discriminate. }
  pose proof (countdown_nonneg s remaining Hcd) as Hnn.
  unfold updateGame in Hu. rewrite Hph, Hcd in Hu.
  cbn [Phase_eqb negb timeLeft set_timeLeft] in Hu.
  destruct (Z.leb_spec remaining 0) as [Hle|Hgt].
  - left. assert (remaining = 0) by lia. subst remaining.
    injection Hu as <-. auto.
  - right. split; [exact Hph|].
    destruct (targetPos s) as [cur|] eqn:Htp.
    + exists remaining, cur. auto.
    + change (mkState (obstacles s) (collectibles s) (powerups s) (player s)
            (target s) (nextHitTime s) (phase s) (placeMode s) (timeSec s)
            (roundStart s) remaining (keyW s) (keyA s) (keyS s) (keyD s)
            (keyUp s) (keyLeft s) (keyDown s) (keyRight s) (lastMs s))
        with (set_timeLeft remaining s) in Hu.
      rewrite playStep_undefined in Hu by exact Htp. discriminate.
Qed.

(** The movement step keeps the player in the arena and the lives in
    range. *)
Lemma moveStep_sound (dt : float) (s : State) :
  Player.r (player s) = of_int 14 -> inArena (player s) ->
  0 <= Player.lives (player s) <= MAX_LIVES -> is_finite dt = true ->
  let s1 := moveStep atan2f dt s in
  inArena (player s1) /\ 0 <= Player.lives (player s1) <= Player.lives (player s).
Proof.
  intros Hr Ha Hl Hdt. cbv zeta.
  destruct (moveStep_frame atan2f dt s) as (_ & _ & _ & _ & _ & _ & Hr1 & _).
  cbv zeta in Hr1. unfold inArena. rewrite Hr1.
  destruct (tickBlocked dt s) eqn:Hb.
  - destruct (moveStep_blocked atan2f dt s Hb) as (Hx & Hy & Hl1 & _).
    cbv zeta in Hl1. rewrite Hx, Hy, Hl1. split; [exact Ha|].
    destruct (negb _ && _); [|lia].
    rewrite wrap32_id by (unfold INT_MIN, INT_MAX, MAX_LIVES in *; lia). lia.
  - destruct (moveStep_free atan2f dt s Hb) as (Hx & Hy & Hl1 & _).
    cbv zeta in Hl1. rewrite Hx, Hy, Hl1. split; [|lia].
    rewrite tickCandidate_eq, Hr.
    destruct (velocity_finite s) as [Hvx Hvy].
    apply candidate_inArena; auto; apply fmul_not_nan; auto.
Qed.

Lemma updateGame_sound (dt : float) (s s' : State) :
  invariant s -> sound s -> is_finite dt = true ->
  updateGame atan2f dt s = Some s' -> sound s'.
Proof.
  intros (Hr & _ & _) Hs Hdt Hu.
  destruct (updateGame_cases dt s s' Hu)
    as [[_ ->]|[(Hph & Hcd & ->)|(Hph & rem & cur & Hcd & Hrem & Htp)]].
  - exact Hs.
  - destruct Hs as (Hg & Hp & Ha & Hl & Ht0 & Ht & Hw).
    repeat split; try tauto; cbn; try lia; try apply Hp; try apply Hw; try apply Ha; try apply Hg.
  - destruct Hs as (Hg & Hp & Ha & Hl & Ht0 & Ht & Hw).
    destruct (updateGame_play atan2f dt s rem cur Hph Hcd Hrem Htp)
      as (s'' & Hu' & H'). rewrite Hu in Hu'. injection Hu' as <-.
    cbv zeta in H'.
    destruct H' as (Ho & Htg & _ & Htl & _ & Hx & Hy & Hr' & Hl' & Hc & _ & _).
    destruct (updateGame_pickups dt s s' rem cur Hph Hcd Hrem Htp Hu) as [_ Hpu].
    cbv zeta in Hpu.
    destruct (moveStep_sound dt (set_timeLeft rem s) Hr Ha Hl Hdt) as [Ha1 Hl1].
    cbv zeta in Ha1, Hl1. cbn [player set_timeLeft] in Hl1.
    unfold sound, goodTarget, pointsOK, inArena, wellPlaced.
    rewrite Htg, Hx, Hy, Hr', Hl', Htl, Ho, Hc, Hpu.
    destruct Hw as (Hw1 & Hw2 & Hw3).
    split; [exact Hg|]. split; [exact Hp|].
    split.
    { unfold inArena in Ha1.
      destruct (moveStep_frame atan2f dt (set_timeLeft rem s))
        as (_ & _ & _ & _ & _ & _ & Hr1 & _).
      cbv zeta in Hr1. cbn [player set_timeLeft] in Hr1. rewrite Hr1 in Ha1.
      exact Ha1. }
    split; [lia|]. split; [lia|]. split; [intros _; exact Hrem|].
    split; [exact Hw1|]. split; apply Forall_filter; assumption.
Qed.

Lemma startRound_sound (s : State) :
  Player.r (player s) = of_int 14 -> sound s -> sound (startRound s).
Proof.
  intros Hr (Hg & Hp & Ha & Hl & Ht0 & Ht & Hw).
  unfold sound. split; [|split; [|split; [|split; [|split; [|split]]]]].
  - split; [exact unitT_zero | left; reflexivity].
  - unfold pointsOK, pixel. cbn. vm_compute. repeat split; discriminate.
  - unfold inArena. cbn [startRound player set_phase set_timeLeft set_roundStart
      set_target set_player Player.x Player.y Player.r]. rewrite Hr.
    split; split; vm_compute; reflexivity.
  - cbn. unfold MAX_LIVES. lia.
  - cbn. unfold ROUND_TIME_SEC. lia.
  - intros _. cbn. unfold ROUND_TIME_SEC. lia.
  - exact Hw.
Qed.

(** The outcomes of a mouse event. *)
Lemma Mouse_cases (button state x y : Z) (s s' : State) :
  Mouse button state x y s = Some s' ->
  s' = s \/
  (exists m, s' = set_placeMode m s) \/
  (exists o, s' = push o s /\ phase s = PHASE_EDIT /\
             placedObj (placeMode s) x (wrap32 (H - y)) = Some o /\
             inGameArea (of_int x) (of_int (wrap32 (H - y))) = true /\
             overlapsAny (Obj.x o) (Obj.y o) (Obj.r o) s = Some false).
Proof.
  unfold Mouse.
  destruct (_ || _); [intros [= <-]; auto|].
  destruct (_ <=? BOT_H); [intros [= <-]; eauto|].
  destruct (Phase_eqb (phase s) PHASE_EDIT) eqn:Hph; cbn [andb];
    [|intros [= <-]; auto].
  apply Phase_eqb_eq in Hph.
  destruct (inGameArea _ _) eqn:Hin; [|intros [= <-]; auto].
  destruct placedObj as [o|] eqn:Hpl; [|intros [= <-]; auto].
  destruct overlapsAny as [[|]|] eqn:Hov; try discriminate; intros [= <-]; auto.
  right. right. exists o. auto.
Qed.

Lemma placedObj_kind (m : PlaceMode) (x y : Z) (o : Obj.t) :
  placedObj m x y = Some o ->
  Obj.x o = of_int x /\ Obj.y o = of_int y /\
  match Obj.type o with
  | OBJ_OBSTACLE => m = PLACE_OBS /\ Obj.r o = of_int 18
  | OBJ_COLLECT => m = PLACE_COL /\ Obj.r o = of_int 14
  | OBJ_PU_SPEED => m = PLACE_PU_SPEED /\ Obj.r o = of_int 14
  | OBJ_PU_SHIELD => m = PLACE_PU_SHIELD /\ Obj.r o = of_int 14
  end.
Proof. destruct m; cbn; intros [= <-]; cbn; auto. Qed.

Lemma Mouse_sound (button state x y : Z) (s s' : State) :
  sound s -> Mouse button state x y s = Some s' -> sound s'.
Proof.
  intros Hs Hm.
  destruct (Mouse_cases _ _ _ _ _ _ Hm) as [->|[(m & ->)|(o & -> & _ & Hpl & Hin & _)]].
  - exact Hs.
  - exact Hs.
  - destruct Hs as (Hg & Hp & Ha & Hl & Ht0 & Ht & Hw1 & Hw2 & Hw3).
    destruct (placedObj_kind _ _ _ _ Hpl) as (Hx & Hy & Hk).
    rewrite inGameArea_int in Hin.
    apply andb_prop in Hin as [Hin H4]. apply andb_prop in Hin as [Hin H3].
    apply andb_prop in Hin as [H1 H2].
    apply Z.leb_le in H1, H2, H3, H4.
    assert (Hgrid : onGrid o) by (exists x, (wrap32 (H - y)); auto).
    assert (Hsnoc : forall (P : Obj.t -> Prop) l, Forall P l -> P o -> Forall P (l ++ [o])).
    { intros P l Hl' Ho. apply Forall_app. split; [exact Hl'|]. constructor; auto. }
    unfold push. unfold sound, wellPlaced.
    destruct (Obj.type o) eqn:Hty; cbn [target player timeLeft phase obstacles
      collectibles powerups set_obstacles set_collectibles set_powerups];
      (split; [exact Hg|]); (split; [exact Hp|]); (split; [exact Ha|]);
      (split; [exact Hl|]); (split; [exact Ht0|]); (split; [exact Ht|]).
    + split; [|tauto]. apply Hsnoc; [exact Hw1|]. unfold isObstacle. tauto.
    + split; [tauto|]. split; [|tauto]. apply Hsnoc; [exact Hw2|].
      unfold isCollectible. tauto.
    + split; [tauto|]. split; [tauto|]. apply Hsnoc; [exact Hw3|].
      unfold isPowerup. tauto.
    + split; [tauto|]. split; [tauto|]. apply Hsnoc; [exact Hw3|].
      unfold isPowerup. tauto.
Qed.

Lemma handle_sound (e : Event) (s s' : State) :
  invariant s -> sound s -> handle atan2f e s = Some s' -> sound s'.
Proof.
  intros Hinv Hs. destruct e; cbn [handle].
  - unfold Timer. cbv zeta.
    pose proof (advance_invariant nowMs s Hinv) as Hinv1.
    pose proof (advance_sound nowMs s Hs) as Hs1.
    destruct (Phase_eqb (phase (advance nowMs s)) PHASE_PLAY).
    + intros Hu. exact (updateGame_sound _ _ _ Hinv1 Hs1 (timerDt_finite _ _) Hu).
    + intros [= <-]. exact Hs1.
  - intros [= <-]. unfold Keyboard.
    destruct (_ || _); [apply startRound_sound; [apply Hinv | exact Hs] | exact Hs].
  - intros [= <-]. exact Hs.
  - intros [= <-]. exact Hs.
  - intros [= <-]. exact Hs.
  - apply Mouse_sound, Hs.
Qed.

Lemma initial_sound : sound (initScene initial).
Proof.
  unfold sound. split; [|split; [|split; [|split; [|split; [|split]]]]].
  - split; [exact unitT_zero | left; reflexivity].
  - unfold pointsOK, pixel. cbn. lia.
  - split; split; vm_compute; reflexivity.
  - cbn. unfold MAX_LIVES. lia.
  - cbn. unfold ROUND_TIME_SEC. lia.
  - intros _. cbn. unfold ROUND_TIME_SEC. lia.
  - repeat split; constructor.
Qed.

Lemma reachable_sound (s : State) : reachable atan2f s -> sound s.
Proof.
  induction 1 as [|e s s' Hre IH Hh].
  - exact initial_sound.
  - exact (handle_sound e s s' (reachable_invariant atan2f s Hre) IH Hh).
Qed.

End Sound.

(** ** Ordered pairs of a list *)

Lemma FOP_app {A : Type} (R : A -> A -> Prop) (l1 l2 : list A) :
  ForallOrdPairs R (l1 ++ l2) <->
  ForallOrdPairs R l1 /\ ForallOrdPairs R l2 /\
  (forall a b, In a l1 -> In b l2 -> R a b).
Proof.
  induction l1 as [|x l1 IH]; cbn [app].
  - split.
    + intros H. split; [constructor|]. split; [exact H|]. intros a b [].
    + tauto.
  - split.
    + intros H. inversion H as [|? ? Hx Hl]; subst.
      apply IH in Hl as (H1 & H2 & H12).
      apply Forall_app in Hx as [Hx1 Hx2].
      split; [constructor; assumption|]. split; [exact H2|].
      intros a b [<-|Ha] Hb.
      * revert b Hb. apply Forall_forall. exact Hx2.
      * apply H12; assumption.
    + intros (H1 & H2 & H12). inversion H1 as [|? ? Hx Hl]; subst.
      constructor.
      * apply Forall_app. split; [exact Hx|].
        apply Forall_forall. intros b Hb. apply H12; [left; reflexivity | exact Hb].
      * apply IH. split; [exact Hl|]. split; [exact H2|].
        intros a b Ha Hb. apply H12; [right; exact Ha | exact Hb].
Qed.

Lemma FOP_filter {A : Type} (R : A -> A -> Prop) (f : A -> bool) (l : list A) :
  ForallOrdPairs R l -> ForallOrdPairs R (filter f l).
Proof.
  induction 1 as [|x l Hx Hl IH]; cbn [filter]; [constructor|].
  destruct (f x); [|exact IH]. constructor; [|exact IH].
  apply Forall_filter. exact Hx.
Qed.

Lemma FOP_insert {A : Type} (R : A -> A -> Prop) (l1 l2 : list A) (o : A) :
  ForallOrdPairs R (l1 ++ l2) ->
  (forall e, In e (l1 ++ l2) -> R e o /\ R o e) ->
  ForallOrdPairs R (l1 ++ o :: l2).
Proof.
  intros H Ho. apply FOP_app in H as (H1 & H2 & H12).
  apply FOP_app. split; [exact H1|]. split.
  - constructor; [|exact H2]. apply Forall_forall. intros e He.
    apply Ho, in_or_app. right. exact He.
  - intros a b Ha [<-|Hb].
    + apply Ho, in_or_app. left. exact Ha.
    + apply H12; assumption.
Qed.

(** ** The tests on the pixel grid *)

Lemma clampf_int (v lo hi : Z) :
  small v -> small lo -> small hi ->
  clampf (of_int v) (of_int lo) (of_int hi) = of_int (clampZ v lo hi).
Proof.
  intros Hv Hlo Hhi. unfold clampf, clampZ, fgtb.
  change (SFltb (of_int hi) (of_int v)) with (of_int hi <? of_int v)%f32.
  rewrite !exact_ltb by assumption.
  destruct (v <? lo); [reflexivity|]. destruct (hi <? v); reflexivity.
Qed.

Lemma clampZ_coord (v lo hi : Z) : coord v -> coord lo -> coord hi -> coord (clampZ v lo hi).
Proof.
  unfold clampZ. intros. destruct (v <? lo); [assumption|].
  destruct (hi <? v); assumption.
Qed.

Lemma coord_small (v : Z) : coord v -> small v.
Proof. unfold coord. apply small_const. Qed.

(** The circle-square test of tryMove for a player on a pixel, against an
    obstacle placed by Mouse. *)
Lemma hitsSquare_int (nx ny ox oy : Z) (ty : ObjType) :
  coord nx -> coord ny -> 0 <= ox <= W -> GAME_Y0 <= oy <= GAME_Y1 ->
  hitsSquare (of_int nx) (of_int ny) (of_int 14)
             (Obj.mk (of_int ox) (of_int oy) (of_int 18) ty)
  = (dist2Z nx ny (clampZ nx (ox - 18) (ox + 18)) (clampZ ny (oy - 18) (oy + 18))
     <? 196).
Proof.
  intros Hnx Hny Hox Hoy. unfold W, GAME_Y0, GAME_Y1, BOT_H, H, TOP_H in *.
  unfold hitsSquare. cbn [Obj.x Obj.y Obj.r].
  assert (Hc : forall v, -1000 <= v <= 1000 -> coord v) by (unfold coord; lia).
  rewrite !exact_sub, !exact_add
    by (apply coord_small; unfold coord; lia).
  rewrite !clampf_int by (apply coord_small; unfold coord in *; lia).
  destruct (exact_dist2 nx ny (clampZ nx (ox - 18) (ox + 18))
              (clampZ ny (oy - 18) (oy + 18)))
    as [-> Hs]; try assumption;
    try (apply clampZ_coord; unfold coord in *; lia).
  change (of_int 14 * of_int 14)%f32 with (of_int 196).
  apply exact_ltb; [exact Hs | apply small_const; lia].
Qed.

Lemma start_x : Player.x Player.init = of_int 500.
Proof. vm_compute. reflexivity. Qed.

Lemma start_y : Player.y Player.init = of_int 160.
Proof. vm_compute. reflexivity. Qed.

(** What a placement that passes overlapsAny is clear of. *)
Lemma overlapsAny_false (x y r : float) (s : State) :
  overlapsAny x y r s = Some false ->
  let r2 := ((r + PLACE_MIN_DIST) * (r + PLACE_MIN_DIST))%f32 in
  nearAny x y r2 (placedObjects s) = false /\
  (dist2 x y (Player.x (player s)) (Player.y (player s)) <? r2)%f32 = false.
Proof.
  unfold overlapsAny, placedObjects, nearAny. cbv zeta.
  rewrite !existsb_app.
  fold (nearAny x y ((r + PLACE_MIN_DIST) * (r + PLACE_MIN_DIST))%f32 (obstacles s)).
  fold (nearAny x y ((r + PLACE_MIN_DIST) * (r + PLACE_MIN_DIST))%f32 (collectibles s)).
  fold (nearAny x y ((r + PLACE_MIN_DIST) * (r + PLACE_MIN_DIST))%f32 (powerups s)).
  destruct (nearAny _ _ _ (obstacles s)); [discriminate|].
  destruct (nearAny _ _ _ (collectibles s)); [discriminate|].
  destruct (nearAny _ _ _ (powerups s)); [discriminate|].
  destruct (_ <? _)%f32; [discriminate|]. auto.
Qed.

(** An obstacle at least 44 pixels from the start leaves the start free. *)
Lemma start_clear (ox oy : Z) :
  0 <= ox <= W -> GAME_Y0 <= oy <= GAME_Y1 ->
  1936 <= dist2Z ox oy 500 160 ->
  196 <= dist2Z 500 160 (clampZ 500 (ox - 18) (ox + 18))
                        (clampZ 160 (oy - 18) (oy + 18)).
Proof.
  unfold W, GAME_Y0, GAME_Y1, BOT_H, H, TOP_H, dist2Z, clampZ.
  intros Hx Hy HD.
  destruct (Z.ltb_spec 500 (ox - 18)); [|destruct (Z.ltb_spec (ox + 18) 500)];
    (destruct (Z.ltb_spec 160 (oy - 18)); [|destruct (Z.ltb_spec (oy + 18) 160)]);
    destruct (Z_le_gt_dec 32 (Z.abs (ox - 500)));
    destruct (Z_le_gt_dec 32 (Z.abs (oy - 160))); nia.
Qed.

Lemma dist2Z_sym (x1 y1 x2 y2 : Z) : dist2Z x1 y1 x2 y2 = dist2Z x2 y2 x1 y1.
Proof. unfold dist2Z. ring. Qed.

Lemma grid_coord (x y : Z) :
  0 <= x <= W -> GAME_Y0 <= y <= GAME_Y1 -> coord x /\ coord y.
Proof. unfold W, GAME_Y0, GAME_Y1, BOT_H, H, TOP_H, coord. lia. Qed.

(** The squared separations overlapsAny uses for the two radii. *)
Lemma minDist2_18 : minDist2 (of_int 18) = of_int 1936.
Proof. vm_compute. reflexivity. Qed.

Lemma minDist2_14 : minDist2 (of_int 14) = of_int 1600.
Proof. vm_compute. reflexivity. Qed.

(** On the grid, a candidate that is not near an object is apart from it. *)
Lemma near_apart (o e : Obj.t) :
  onGrid o -> onGrid e -> Obj.r o = of_int 18 \/ Obj.r o = of_int 14 ->
  near o (Obj.x e, Obj.y e) = false -> apart o e.
Proof.
  intros (x & y & Hx & Hy & Bx & By) (x' & y' & Hx' & Hy' & Bx' & By') Hr.
  unfold near, apart. cbn [fst snd]. rewrite Hx, Hy, Hx', Hy'.
  destruct (grid_coord x y Bx By) as [Cx Cy].
  destruct (grid_coord x' y' Bx' By') as [Cx' Cy'].
  destruct (exact_dist2 x y x' y' Cx Cy Cx' Cy') as [-> Hs].
  destruct (exact_dist2 x' y' x y Cx' Cy' Cx Cy) as [-> Hs'].
  rewrite (dist2Z_sym x' y' x y) in *.
  assert (H1600 : small 1600) by (unfold small; change (2 ^ 24) with 16777216; lia).
  rewrite !exact_ltb by assumption.
  intros Hn.
  assert (HD : (dist2Z x y x' y' <? 1600) = false).
  { destruct Hr as [E|E]; rewrite E in Hn.
    - rewrite minDist2_18, exact_ltb in Hn
        by (try assumption; unfold small; change (2 ^ 24) with 16777216; lia).
      apply Z.ltb_ge in Hn. apply Z.ltb_ge. lia.
    - rewrite minDist2_14, exact_ltb in Hn by assumption. exact Hn. }
  auto.
Qed.

Lemma nearAny_forall (x y r2 : float) (l : list Obj.t) :
  nearAny x y r2 l = false ->
  forall e, In e l -> (dist2 x y (Obj.x e) (Obj.y e) <? r2)%f32 = false.
Proof.
  unfold nearAny. intros H e He.
  destruct (dist2 x y (Obj.x e) (Obj.y e) <? r2)%f32 eqn:E; [|reflexivity].
  assert (existsb (fun o => (dist2 x y (Obj.x o) (Obj.y o) <? r2)%f32) l = true).
  { apply existsb_exists. exists e. auto. }
  congruence.
Qed.

Lemma blockedBy_app (nx ny pr : float) (l1 l2 : list Obj.t) :
  blockedBy nx ny pr (l1 ++ l2) = blockedBy nx ny pr l1 || blockedBy nx ny pr l2.
Proof. rewrite !blockedBy_existsb. apply existsb_app. Qed.

(** An obstacle accepted while the player stands at the start does not
    block the start. *)
Lemma placement_clear (x y : Z) (ty : ObjType) :
  0 <= x <= W -> GAME_Y0 <= y <= GAME_Y1 ->
  (dist2 (of_int x) (of_int y) (Player.x Player.init) (Player.y Player.init)
   <? minDist2 (of_int 18))%f32 = false ->
  hitsSquare (Player.x Player.init) (Player.y Player.init) (of_int 14)
             (Obj.mk (of_int x) (of_int y) (of_int 18) ty) = false.
Proof.
  intros Bx By. rewrite start_x, start_y, minDist2_18.
  destruct (grid_coord x y Bx By) as [Cx Cy].
  assert (C500 : coord 500) by (unfold coord; lia).
  assert (C160 : coord 160) by (unfold coord; lia).
  destruct (exact_dist2 x y 500 160 Cx Cy C500 C160) as [-> Hs].
  rewrite exact_ltb by (try assumption; unfold small; change (2 ^ 24) with 16777216; lia).
  intros HD. apply Z.ltb_ge in HD.
  rewrite hitsSquare_int by assumption.
  apply Z.ltb_ge. apply start_clear; assumption.
Qed.

Section Tidy.

Variable atan2f : float -> float -> float.

Lemma updateGame_tidy (dt : float) (s s' : State) :
  invariant s -> tidy s -> updateGame atan2f dt s = Some s' -> tidy s'.
Proof.
  intros (Hr & _ & _) Ht Hu.
  destruct (updateGame_cases atan2f dt s s' Hu)
    as [[_ ->]|[(Hph & Hcd & ->)|(Hph & rem & cur & Hcd & Hrem & Htp)]].
  - exact Ht.
  - destruct Ht as (Hg & Hp & Hc & Hc0 & He).
    unfold tidy, placedObjects, clearOf in *. cbn.
    repeat split; auto; discriminate.
  - destruct Ht as (Hg & Hp & Hc & Hc0 & He).
    destruct (updateGame_play atan2f dt s rem cur Hph Hcd Hrem Htp)
      as (s'' & Hu' & H'). rewrite Hu in Hu'. apply Some_inj in Hu'. subst s''.
    cbv zeta in H'.
    destruct H' as (Ho & _ & _ & _ & _ & Hx & Hy & Hr' & _ & Hcol & _ & Hph').
    destruct (updateGame_pickups atan2f dt s s' rem cur Hph Hcd Hrem Htp Hu) as [_ Hpu].
    cbv zeta in Hpu.
    set (st := set_timeLeft rem s) in *.
    unfold tidy, placedObjects, clearOf in *.
    rewrite Ho, Hcol, Hpu, Hx, Hy, Hr'.
    apply Forall_app in Hg as (Hg1 & Hg23). apply Forall_app in Hg23 as (Hg2 & Hg3).
    apply FOP_app in Hp as (Hp1 & Hp23 & Hp1x).
    apply FOP_app in Hp23 as (Hp2 & Hp3 & Hp23).
    split; [|split; [|split; [|split]]].
    + apply Forall_app. split; [exact Hg1|]. apply Forall_app.
      split; apply Forall_filter; assumption.
    + apply FOP_app. split; [exact Hp1|]. split.
      * apply FOP_app. split; [apply FOP_filter, Hp2|].
        split; [apply FOP_filter, Hp3|].
        intros a b Ha Hb. apply filter_In in Ha as [Ha _].
        apply filter_In in Hb as [Hb _]. apply Hp23; assumption.
      * intros a b Ha Hb. apply Hp1x; [exact Ha|].
        apply in_app_or in Hb as [Hb|Hb]; apply filter_In in Hb as [Hb _];
          apply in_or_app; auto.
    + destruct (tickBlocked dt st) eqn:Hb.
      * destruct (moveStep_blocked atan2f dt st Hb) as (Hx1 & Hy1 & _).
        rewrite Hx1, Hy1. exact Hc.
      * destruct (moveStep_free atan2f dt st Hb) as (Hx1 & Hy1 & _).
        rewrite Hx1, Hy1. exact Hb.
    + exact Hc0.
    + intros Hed. exfalso. rewrite Hed in Hph'.
      destruct intersectCircleCircle; [discriminate|].
      destruct (tickBlocked dt st) eqn:Hb.
      * destruct (moveStep_blocked atan2f dt st Hb) as (_ & _ & _ & _ & Hp1').
        cbv zeta in Hp1'. rewrite <- Hph' in Hp1'.
        change (phase st) with (phase s) in Hp1'. rewrite Hph in Hp1'.
        destruct (_ && _); discriminate.
      * destruct (moveStep_free atan2f dt st Hb) as (_ & _ & _ & _ & Hp1').
        cbv zeta in Hp1'. rewrite <- Hph' in Hp1'.
        change (phase st) with (phase s) in Hp1'. congruence.
Qed.

Lemma startRound_tidy (s : State) :
  Player.r (player s) = of_int 14 -> tidy s -> tidy (startRound s).
Proof.
  intros Hr (Hg & Hp & Hc & Hc0 & He).
  unfold tidy, placedObjects, clearOf in *.
  cbn [startRound obstacles collectibles powerups player phase set_phase
       set_timeLeft set_roundStart set_target set_player
       Player.x Player.y Player.r].
  rewrite Hr. repeat split; auto; discriminate.
Qed.

Lemma Mouse_tidy (button state x y : Z) (s s' : State) :
  Player.r (player s) = of_int 14 ->
  tidy s -> Mouse button state x y s = Some s' -> tidy s'.
Proof.
  intros Hr14 Ht Hm.
  destruct (Mouse_cases _ _ _ _ _ _ Hm)
    as [->|[(m & ->)|(o & -> & Hph & Hpl & Hin & Hov)]];
    [exact Ht | exact Ht |].
  destruct Ht as (Hg & Hp & Hc & Hc0 & He).
  destruct (He Hph) as [Ex Ey].
  destruct (placedObj_kind _ _ _ _ Hpl) as (Hx & Hy & Hk).
  set (gy := wrap32 (H - y)) in *.
  rewrite inGameArea_int in Hin.
  apply andb_prop in Hin as [Hin H4]. apply andb_prop in Hin as [Hin H3].
  apply andb_prop in Hin as [H1 H2].
  apply Z.leb_le in H1, H2, H3, H4.
  assert (Ho : onGrid o) by (exists x, gy; auto).
  apply overlapsAny_false in Hov. cbv zeta in Hov. destruct Hov as [Hnear Hpl'].
  fold (minDist2 (Obj.r o)) in Hnear, Hpl'.
  assert (Hro : Obj.r o = of_int 18 \/ Obj.r o = of_int 14).
  { destruct (Obj.type o); tauto. }
  assert (Hall : forall e, In e (placedObjects s) -> apart e o /\ apart o e).
  { intros e Hin.
    assert (Ha : apart o e).
    { apply near_apart; auto.
      - revert e Hin. apply Forall_forall. exact Hg.
      - unfold near. cbn [fst snd].
        exact (nearAny_forall _ _ _ _ Hnear e Hin). }
    split; [|exact Ha]. destruct Ha as [A B]. split; assumption. }
  assert (Hins : forall l1 l2, l1 ++ l2 = placedObjects s ->
            Forall onGrid (l1 ++ o :: l2) /\ ForallOrdPairs apart (l1 ++ o :: l2)).
  { intros l1 l2 E. rewrite <- E in Hg, Hp, Hall. split.
    - apply Forall_app in Hg as [Hg1 Hg2]. apply Forall_app.
      split; [exact Hg1|]. constructor; assumption.
    - apply FOP_insert; assumption. }
  unfold tidy, clearOf in *. unfold push.
  destruct (Obj.type o) eqn:Hty;
    cbn [obstacles collectibles powerups player phase set_obstacles
         set_collectibles set_powerups].
  - (* an obstacle *)
    destruct Hk as [_ Hr18].
    assert (Hfree : hitsSquare (Player.x Player.init) (Player.y Player.init)
                               (of_int 14) o = false).
    { rewrite Ex, Ey, Hx, Hy, Hr18 in Hpl'.
      pose proof (placement_clear x gy OBJ_OBSTACLE (conj H1 H2) (conj H3 H4) Hpl') as Hf.
      destruct o as [ox oy or oty]. cbn in Hx, Hy, Hr18, Hty. subst. exact Hf. }
    destruct (Hins (obstacles s) (collectibles s ++ powerups s) eq_refl) as [G1 G2].
    unfold placedObjects.
    cbn [obstacles collectibles powerups set_obstacles].
    rewrite <- app_assoc. cbn [app].
    split; [exact G1|]. split; [exact G2|]. split; [|split].
    + rewrite blockedBy_app, Hc. cbn [blockedBy orb].
      rewrite Ex, Ey, Hr14, Hfree. reflexivity.
    + rewrite blockedBy_app, Hc0. cbn [blockedBy orb].
      change (Player.r Player.init) with (of_int 14).
      rewrite Hfree. reflexivity.
    + exact He.
  - destruct (Hins (obstacles s ++ collectibles s) (powerups s)
                ltac:(unfold placedObjects; rewrite <- app_assoc; reflexivity))
      as [G1 G2].
    unfold placedObjects.
    cbn [obstacles collectibles powerups set_collectibles].
    replace (obstacles s ++ (collectibles s ++ [o]) ++ powerups s)
      with ((obstacles s ++ collectibles s) ++ o :: powerups s)
      by (rewrite <- !app_assoc; reflexivity).
    auto.
  - destruct (Hins (placedObjects s) [] ltac:(apply app_nil_r)) as [G1 G2].
    unfold placedObjects in *.
    cbn [obstacles collectibles powerups set_powerups].
    replace (obstacles s ++ collectibles s ++ powerups s ++ [o])
      with ((obstacles s ++ collectibles s ++ powerups s) ++ [o])
      by (rewrite <- !app_assoc; reflexivity).
    auto.
  - destruct (Hins (placedObjects s) [] ltac:(apply app_nil_r)) as [G1 G2].
    unfold placedObjects in *.
    cbn [obstacles collectibles powerups set_powerups].
    replace (obstacles s ++ collectibles s ++ powerups s ++ [o])
      with ((obstacles s ++ collectibles s ++ powerups s) ++ [o])
      by (rewrite <- !app_assoc; reflexivity).
    auto.
Qed.

Lemma advance_tidy (nowMs : Z) (s : State) : tidy s -> tidy (advance nowMs s).
Proof.
  intros Hs. destruct (advance_frame nowMs s) as (Ho & Hc & Hpu & Hpl & Hph & _).
  cbv zeta in *. unfold tidy, placedObjects.
  rewrite Ho, Hc, Hpu, Hpl, Hph. exact Hs.
Qed.

Lemma handle_tidy (e : Event) (s s' : State) :
  invariant s -> tidy s -> handle atan2f e s = Some s' -> tidy s'.
Proof.
  intros Hinv Hs. destruct e; cbn [handle].
  - unfold Timer. cbv zeta.
    pose proof (advance_invariant nowMs s Hinv) as Hinv1.
    pose proof (advance_tidy nowMs s Hs) as Hs1.
    destruct (Phase_eqb (phase (advance nowMs s)) PHASE_PLAY).
    + intros Hu. exact (updateGame_tidy _ _ _ Hinv1 Hs1 Hu).
    + intros E. apply Some_inj in E. subst s'. exact Hs1.
  - intros E. apply Some_inj in E. subst s'. unfold Keyboard.
    destruct (_ || _); [apply startRound_tidy; [apply Hinv | exact Hs] | exact Hs].
  - intros E. apply Some_inj in E. subst s'. exact Hs.
  - intros E. apply Some_inj in E. subst s'. exact Hs.
  - intros E. apply Some_inj in E. subst s'. exact Hs.
  - apply Mouse_tidy; [apply Hinv | exact Hs].
Qed.

Lemma initial_tidy : tidy (initScene initial).
Proof.
  unfold tidy, placedObjects, clearOf. cbn.
  repeat split; constructor.
Qed.

Lemma reachable_tidy (s : State) : reachable atan2f s -> tidy s.
Proof.
  induction 1 as [|e s s' Hre IH Hh].
  - exact initial_tidy.
  - exact (handle_tidy e s s' (reachable_invariant atan2f s Hre) IH Hh).
Qed.

End Tidy.

(** ** Lists *)

Lemma filter_all {A : Type} (l : list A) : filter (fun _ => true) l = l.
Proof. induction l as [|a l IH]; cbn; [reflexivity | rewrite IH; reflexivity]. Qed.

Lemma filter_twice {A : Type} (f g : A -> bool) (l : list A) :
  filter g (filter f l) = filter (fun a => f a && g a) l.
Proof.
  induction l as [|a l IH]; cbn; [reflexivity|].
  destruct (f a); cbn; [destruct (g a); rewrite IH; reflexivity | exact IH].
Qed.

(** ** The power-ups loop *)

Lemma fold_applyPowerup (now : float) (ps : list Obj.t) (pl : Player.t) :
  let pl' := fold_left (fun pl p => applyPowerup now p pl) ps pl in
  Player.speedUntil pl'
  = (if existsb speedKind ps then (now + POWERUP_DURATION)%f32
     else Player.speedUntil pl) /\
  Player.shieldUntil pl'
  = (if existsb (fun p => negb (speedKind p)) ps then (now + SHIELD_DURATION)%f32
     else Player.shieldUntil pl) /\
  Player.shielded pl'
  = existsb (fun p => negb (speedKind p)) ps || Player.shielded pl /\
  Player.angleDeg pl' = Player.angleDeg pl.
Proof.
  revert pl. induction ps as [|p ps IH]; intros pl; cbn [fold_left existsb].
  - cbn. auto.
  - destruct (IH (applyPowerup now p pl)) as (H1 & H2 & H3 & H4).
    cbv zeta in *. rewrite H1, H2, H3, H4.
    unfold applyPowerup, speedKind.
    destruct (Obj.type p); cbn [negb orb];
      destruct (existsb _ ps); cbn; auto;
      destruct (existsb _ ps); cbn; auto.
Qed.

Section More.

Variable atan2f : float -> float -> float.

(** The movement step leaves the power-up timers alone; only the expiry of
    the shield touches the shield flag. *)
Lemma moveStep_power (dt : float) (s : State) :
  let s1 := moveStep atan2f dt s in
  Player.speedUntil (player s1) = Player.speedUntil (player s) /\
  Player.shieldUntil (player s1) = Player.shieldUntil (player s) /\
  Player.shielded (player s1) = Player.shielded (player (expireShield s)).
Proof.
  cbv zeta. rewrite moveStep_cases. cbv zeta.
  unfold beforeMove, face, takeHit, expireShield.
  destruct (tickBlocked dt s); [destruct (negb _ && _)|];
    destruct (fneb _ _ || fneb _ _); destruct (_ >? _)%f32; cbn;
    try (destruct (_ =? 0)); cbn; auto.
Qed.

(** The phase after the movement step: still the old one unless the last
    life went. *)
Lemma moveStep_phase (dt : float) (s : State) :
  phase (moveStep atan2f dt s) = phase s \/
  phase (moveStep atan2f dt s) = PHASE_LOSE.
Proof.
  destruct (tickBlocked dt s) eqn:Hb.
  - destruct (moveStep_blocked atan2f dt s Hb) as (_ & _ & _ & _ & Hp).
    cbv zeta in Hp. rewrite Hp. destruct (_ && _); auto.
  - destruct (moveStep_free atan2f dt s Hb) as (_ & _ & _ & _ & Hp). auto.
Qed.

Lemma updateGame_phase (dt : float) (s s' : State) :
  updateGame atan2f dt s = Some s' ->
  phase s' = phase s \/
  (phase s = PHASE_PLAY /\ (phase s' = PHASE_WIN \/ phase s' = PHASE_LOSE)).
Proof.
  intros Hu.
  destruct (updateGame_cases atan2f dt s s' Hu)
    as [[_ ->]|[(Hph & Hcd & ->)|(Hph & rem & cur & Hcd & Hrem & Htp)]].
  - auto.
  - right. auto.
  - destruct (updateGame_play atan2f dt s rem cur Hph Hcd Hrem Htp)
      as (s'' & Hu' & H'). rewrite Hu in Hu'. apply Some_inj in Hu'. subst s''.
    cbv zeta in H'.
    destruct H' as (_ & _ & _ & _ & _ & _ & _ & _ & _ & _ & _ & Hp).
    rewrite Hp. destruct intersectCircleCircle; [right; auto|].
    destruct (moveStep_phase dt (set_timeLeft rem s)) as [E|E]; rewrite E; auto.
Qed.

Lemma Timer_phase (nowMs : Z) (s s' : State) :
  Timer atan2f nowMs s = Some s' ->
  phase s' = phase s \/
  (phase s = PHASE_PLAY /\ (phase s' = PHASE_WIN \/ phase s' = PHASE_LOSE)).
Proof.
  unfold Timer. cbv zeta.
  destruct (advance_frame nowMs s) as (_ & _ & _ & _ & Hph & _). cbv zeta in Hph.
  destruct (Phase_eqb (phase (advance nowMs s)) PHASE_PLAY).
  - intros Hu. apply updateGame_phase in Hu. rewrite Hph in Hu. exact Hu.
  - intros E. apply Some_inj in E. subst s'. auto.
Qed.

Lemma startRound_frame (s : State) :
  obstacles (startRound s) = obstacles s /\
  collectibles (startRound s) = collectibles s /\
  powerups (startRound s) = powerups s /\
  phase (startRound s) = PHASE_PLAY.
Proof. repeat split. Qed.

(** One event outside the edit phase: the obstacles stay, the other two
    collections can only lose elements, and the edit phase does not come
    back. *)
Lemma handle_frozen (e : Event) (s s' : State) :
  handle atan2f e s = Some s' -> phase s <> PHASE_EDIT ->
  phase s' <> PHASE_EDIT /\ obstacles s' = obstacles s /\
  (exists keep, collectibles s' = filter keep (collectibles s)) /\
  (exists keep, powerups s' = filter keep (powerups s)).
Proof.
  assert (Hid : forall t : State,
            (exists keep, collectibles t = filter keep (collectibles t)) /\
            (exists keep, powerups t = filter keep (powerups t))).
  { intros t. split; exists (fun _ => true); symmetry; apply filter_all. }
  intros Hh Hne. destruct e; cbn [handle] in Hh.
  - pose proof (Timer_phase nowMs s s' Hh) as Hp.
    split; [destruct Hp as [E|[_ [E|E]]]; rewrite E; congruence|].
    unfold Timer in Hh. cbv zeta in Hh.
    destruct (advance_frame nowMs s) as (Ho & Hc & Hpu & _). cbv zeta in *.
    destruct (Phase_eqb (phase (advance nowMs s)) PHASE_PLAY).
    + destruct (updateGame_cases atan2f _ _ _ Hh)
        as [[_ ->]|[(Hph & Hcd & ->)|(Hph & rem & cur & Hcd & Hrem & Htp)]].
      * rewrite Ho, Hc, Hpu. split; [reflexivity | exact (Hid s)].
      * cbn [obstacles collectibles powerups set_phase set_timeLeft].
        rewrite Ho, Hc, Hpu. split; [reflexivity | exact (Hid s)].
      * destruct (updateGame_play atan2f (timerDt nowMs s) _ rem cur Hph Hcd Hrem Htp)
          as (s'' & Hu' & H'). rewrite Hh in Hu'. apply Some_inj in Hu'. subst s''.
        cbv zeta in H'.
        destruct H' as (Ho' & _ & _ & _ & _ & _ & _ & _ & _ & Hc' & _).
        destruct (updateGame_pickups atan2f _ _ _ rem cur Hph Hcd Hrem Htp Hh)
          as [_ Hpu']. cbv zeta in Hpu'.
        rewrite Ho', Hc', Hpu', Ho, Hc, Hpu.
        split; [reflexivity|]. split; eexists; reflexivity.
    + apply Some_inj in Hh. subst s'. rewrite Ho, Hc, Hpu.
      split; [reflexivity | exact (Hid s)].
  - apply Some_inj in Hh. subst s'. unfold Keyboard.
    destruct (_ || _).
    + split; [cbn; discriminate|]. split; [reflexivity | exact (Hid s)].
    + split; [exact Hne|]. split; [reflexivity | exact (Hid s)].
  - apply Some_inj in Hh. subst s'. split; [exact Hne|]. split; [reflexivity | exact (Hid s)].
  - apply Some_inj in Hh. subst s'. split; [exact Hne|]. split; [reflexivity | exact (Hid s)].
  - apply Some_inj in Hh. subst s'. split; [exact Hne|]. split; [reflexivity | exact (Hid s)].
  - destruct (Mouse_cases _ _ _ _ _ _ Hh) as [->|[(m & ->)|(o & _ & Hph & _)]].
    + split; [exact Hne|]. split; [reflexivity | exact (Hid s)].
    + split; [exact Hne|]. split; [reflexivity | exact (Hid s)].
    + contradiction.
Qed.

Lemma run_frozen (evs : list Event) (s s' : State) :
  run atan2f evs s = Some s' -> phase s <> PHASE_EDIT ->
  phase s' <> PHASE_EDIT /\ obstacles s' = obstacles s /\
  (exists keep, collectibles s' = filter keep (collectibles s)) /\
  (exists keep, powerups s' = filter keep (powerups s)).
Proof.
  revert s. induction evs as [|e evs IH]; intros s Hr Hne; cbn [run] in Hr.
  - apply Some_inj in Hr. subst s'. split; [exact Hne|]. split; [reflexivity|].
    split; exists (fun _ => true); symmetry; apply filter_all.
  - destruct (handle atan2f e s) as [s1|] eqn:E; [|discriminate].
    destruct (handle_frozen e s s1 E Hne) as (Hne1 & Ho1 & (f1 & Hc1) & (g1 & Hp1)).
    destruct (IH s1 Hr Hne1) as (Hne' & Ho' & (f & Hc') & (g & Hp')).
    split; [exact Hne'|]. split; [congruence|].
    split.
    + exists (fun a => f1 a && f a). rewrite Hc', Hc1. apply filter_twice.
    + exists (fun a => g1 a && g a). rewrite Hp', Hp1. apply filter_twice.
Qed.

End More.

(** ** Velocity *)

Lemma velocity_axes (s : State) :
  velocity s
  = (axisV (currentSpeed s) (keyD s || keyRight s) (keyA s || keyLeft s),
     axisV (currentSpeed s) (keyW s || keyUp s) (keyS s || keyDown s)).
Proof.
  unfold velocity, axisV.
  destruct (currentSpeed_cases s) as [-> | ->];
    destruct (keyW s || keyUp s), (keyS s || keyDown s),
             (keyA s || keyLeft s), (keyD s || keyRight s);
    vm_compute; reflexivity.
Qed.

Lemma velocity_noKeys (s : State) : noKeys s -> velocity s = (zero, zero).
Proof.
  intros (H1 & H2 & H3 & H4 & H5 & H6 & H7 & H8).
  rewrite velocity_axes, H1, H2, H3, H4, H5, H6, H7, H8. reflexivity.
Qed.

(** ** Standing still *)

Lemma between_positive (lo hi x : float) :
  (zero <? lo)%f32 = true -> is_finite hi = true -> between lo hi x ->
  exists m e, x = S754_finite false m e.
Proof.
  intros Hlo Hhi [H1 H2].
  destruct x as [s|s| |s m e].
  - exfalso. destruct lo as [sl|sl| |sl ml el]; cbn in *; try discriminate;
      destruct sl; discriminate.
  - exfalso. destruct s.
    + destruct lo as [sl|sl| |sl ml el]; cbn in *; try discriminate;
        destruct sl; discriminate.
    + destruct hi; cbn in *; discriminate.
  - exfalso. destruct lo; cbn in *; discriminate.
  - destruct s; [exfalso|eauto].
    destruct lo as [sl|sl| |sl ml el]; cbn in *; try discriminate;
      destruct sl; discriminate.
Qed.

Lemma fmul_zero_finite (dt : float) :
  is_finite dt = true -> exists sg, (zero * dt)%f32 = S754_zero sg.
Proof. destruct dt; cbn; try discriminate; eauto. Qed.

(** With nothing to add, the candidate of tryMove is the position itself. *)
Lemma candidate_still (dt : float) (s : State) :
  Player.r (player s) = of_int 14 -> inArena (player s) -> is_finite dt = true ->
  candidate (zero * dt)%f32 (zero * dt)%f32 s
  = (Player.x (player s), Player.y (player s)).
Proof.
  intros Hr [Hx Hy] Hdt. unfold candidate.
  destruct (fmul_zero_finite dt Hdt) as (sg & ->).
  rewrite Hr in *.
  assert (Px : exists m e, Player.x (player s) = S754_finite false m e).
  { eapply between_positive; [| |exact Hx]; vm_compute; reflexivity. }
  assert (Py : exists m e, Player.y (player s) = S754_finite false m e).
  { eapply between_positive; [| |exact Hy]; vm_compute; reflexivity. }
  destruct Px as (mx & ex & Ex). destruct Py as (my & ey & Ey).
  assert (Ax : (Player.x (player s) + S754_zero sg)%f32 = Player.x (player s))
    by (rewrite Ex; reflexivity).
  assert (Ay : (Player.y (player s) + S754_zero sg)%f32 = Player.y (player s))
    by (rewrite Ey; reflexivity).
  rewrite Ax, Ay. destruct Hx as [Hx1 Hx2], Hy as [Hy1 Hy2].
  rewrite !clampf_inside by assumption. reflexivity.
Qed.

Section Still.

Variable atan2f : float -> float -> float.

Lemma face_still (s : State) : face atan2f zero zero s = s.
Proof. reflexivity. Qed.

(** The pick-up loops leave the facing angle alone. *)
Lemma pickups_angle (s1 : State) :
  Player.angleDeg (player (powerupLoop 0 (collectLoop 0 s1)))
  = Player.angleDeg (player s1).
Proof.
  rewrite powerupLoop_eq, collectLoop_eq.
  cbn [powerups player timeSec set_powerups set_player set_collectibles
       firstn skipn app].
  match goal with
  | |- context [fold_left ?f ?l ?p] =>
      destruct (fold_applyPowerup (timeSec s1) l p) as (_ & _ & _ & H)
  end.
  cbv zeta in H. rewrite H. reflexivity.
Qed.

(** A tick of updateGame with no key held, for a player inside the arena
    and clear of the obstacles: position, facing and lives stay. *)
Lemma updateGame_still (dt : float) (s s' : State) :
  Player.r (player s) = of_int 14 -> inArena (player s) ->
  clearOf (player s) (obstacles s) -> noKeys s -> is_finite dt = true ->
  updateGame atan2f dt s = Some s' ->
  Player.x (player s') = Player.x (player s) /\
  Player.y (player s') = Player.y (player s) /\
  Player.angleDeg (player s') = Player.angleDeg (player s) /\
  Player.lives (player s') = Player.lives (player s).
Proof.
  intros Hr Ha Hc Hk Hdt Hu.
  destruct (updateGame_cases atan2f dt s s' Hu)
    as [[_ ->]|[(Hph & Hcd & ->)|(Hph & rem & cur & Hcd & Hrem & Htp)]].
  - auto.
  - cbn. auto.
  - destruct (updateGame_pickups atan2f dt s s' rem cur Hph Hcd Hrem Htp Hu)
      as [Hpl _]. cbv zeta in Hpl.
    destruct (updateGame_play atan2f dt s rem cur Hph Hcd Hrem Htp)
      as (s'' & Hu' & H'). rewrite Hu in Hu'. apply Some_inj in Hu'. subst s''.
    cbv zeta in H'.
    destruct H' as (_ & _ & _ & _ & _ & Hx & Hy & _ & Hl & _).
    set (st := set_timeLeft rem s) in *.
    assert (Hkst : noKeys st) by exact Hk.
    assert (Hcand : tickCandidate dt st = (Player.x (player s), Player.y (player s))).
    { rewrite tickCandidate_eq, (velocity_noKeys st Hkst). cbn [fst snd].
      apply (candidate_still dt st); assumption. }
    assert (Hb : tickBlocked dt st = false).
    { unfold tickBlocked. rewrite Hcand. exact Hc. }
    destruct (moveStep_free atan2f dt st Hb) as (Hx1 & Hy1 & Hl1 & _).
    rewrite Hcand in Hx1, Hy1. cbn [fst snd] in Hx1, Hy1.
    rewrite Hx, Hy, Hl, Hx1, Hy1, Hl1.
    split; [reflexivity|]. split; [reflexivity|]. split; [|reflexivity].
    rewrite Hpl, pickups_angle, moveStep_cases. cbv zeta. rewrite Hb.
    unfold beforeMove. rewrite (velocity_noKeys st Hkst). cbn [fst snd].
    rewrite face_still. unfold expireShield.
    destruct (_ >? _)%f32; reflexivity.
Qed.

(** ** What can be undefined *)






End Still.

(** ** The palette on the pixel grid *)

Lemma palette_cy : (of_int BOT_H * lit 1 2)%f32 = of_int 60.
Proof. vm_compute. reflexivity. Qed.

Lemma paletteMode_int (x y : Z) :
  coord x -> coord y ->
  paletteMode x y
  = if dist2Z x y 80 60 <? 1225 then PLACE_OBS
    else if dist2Z x y 240 60 <? 1225 then PLACE_COL
    else if dist2Z x y 400 60 <? 1225 then PLACE_PU_SPEED
    else if dist2Z x y 560 60 <? 1225 then PLACE_PU_SHIELD
    else PLACE_NONE.
Proof.
  intros Hx Hy. unfold paletteMode. cbv zeta. rewrite palette_cy.
  change (wrap32 (35 * 35)) with 1225.
  assert (Hc : forall c, 0 <= c <= 1000 -> coord c) by (unfold coord; lia).
  assert (H1225 : small 1225) by (unfold small; change (2 ^ 24) with 16777216; lia).
  destruct (exact_dist2 x y 80 60 Hx Hy (Hc 80 ltac:(lia)) (Hc 60 ltac:(lia))) as [-> S1].
  destruct (exact_dist2 x y 240 60 Hx Hy (Hc 240 ltac:(lia)) (Hc 60 ltac:(lia))) as [-> S2].
  destruct (exact_dist2 x y 400 60 Hx Hy (Hc 400 ltac:(lia)) (Hc 60 ltac:(lia))) as [-> S3].
  destruct (exact_dist2 x y 560 60 Hx Hy (Hc 560 ltac:(lia)) (Hc 60 ltac:(lia))) as [-> S4].
  rewrite !exact_ltb by assumption. reflexivity.
Qed.

(** ** Power-ups and the shield *)

Lemma pickups_power (s1 : State) :
  let s3 := powerupLoop 0 (collectLoop 0 s1) in
  let picked := filter (touches (player s1)) (powerups s1) in
  Player.speedUntil (player s3)
  = (if existsb speedKind picked then (timeSec s1 + POWERUP_DURATION)%f32
     else Player.speedUntil (player s1)) /\
  Player.shieldUntil (player s3)
  = (if existsb (fun p => negb (speedKind p)) picked
     then (timeSec s1 + SHIELD_DURATION)%f32
     else Player.shieldUntil (player s1)) /\
  Player.shielded (player s3)
  = existsb (fun p => negb (speedKind p)) picked || Player.shielded (player s1).
Proof.
  cbv zeta. rewrite powerupLoop_eq, collectLoop_eq.
  cbn [powerups player timeSec set_powerups set_player set_collectibles
       firstn skipn app].
  match goal with
  | |- context [fold_left ?f ?l ?p] =>
      destruct (fold_applyPowerup (timeSec s1) l p) as (H1 & H2 & H3 & _)
  end.
  cbv zeta in H1, H2, H3. rewrite H1, H2, H3. repeat split.
Qed.

Section Final.

Variable atan2f : float -> float -> float.

(** A tick that reaches the pick-up step, on the power-ups. *)
Lemma powerup_tick (dt : float) (s : State) :
  liveTick s ->
  let p1 := player (moveStep atan2f dt s) in
  let picked := filter (touches p1) (powerups s) in
  exists s',
    updateGame atan2f dt s = Some s' /\
    powerups s' = filter (fun p => negb (touches p1 p)) (powerups s) /\
    Player.speedUntil (player s')
    = (if existsb speedKind picked then (timeSec s + POWERUP_DURATION)%f32
       else Player.speedUntil (player s)) /\
    Player.shieldUntil (player s')
    = (if existsb (fun p => negb (speedKind p)) picked
       then (timeSec s + SHIELD_DURATION)%f32
       else Player.shieldUntil (player s)) /\
    Player.shielded (player s')
    = existsb (fun p => negb (speedKind p)) picked
      || Player.shielded (player (expireShield s)).
Proof.
  intros (Hph & (rem & Hcd & Hrem) & (cur & Htp)). cbv zeta.
  destruct (updateGame_play atan2f dt s rem cur Hph Hcd Hrem Htp)
    as (s' & Hu & _).
  destruct (updateGame_pickups atan2f dt s s' rem cur Hph Hcd Hrem Htp Hu)
    as [Hpl Hpu]. cbv zeta in Hpl, Hpu.
  exists s'. split; [exact Hu|].
  rewrite moveStep_timeLeft in Hpl, Hpu.
  change (player (set_timeLeft rem (moveStep atan2f dt s)))
    with (player (moveStep atan2f dt s)) in Hpu.
  split; [exact Hpu|].
  destruct (pickups_power (set_timeLeft rem (moveStep atan2f dt s)))
    as (H1 & H2 & H3). cbv zeta in H1, H2, H3.
  rewrite Hpl, H1, H2, H3.
  destruct (moveStep_frame atan2f dt s) as (_ & _ & Hp & _ & Ht & _).
  destruct (moveStep_power atan2f dt s) as (P1 & P2 & P3).
  cbv zeta in Hp, Ht, P1, P2, P3.
  cbn [powerups player timeSec set_timeLeft].
  rewrite Hp, Ht, P1, P2, P3. repeat split.
Qed.

(** While the shield holds, the movement step costs no life. *)
Lemma shielded_tick (dt : float) (s : State) :
  liveTick s -> Player.shielded (player s) = true ->
  (timeSec s >? Player.shieldUntil (player s))%f32 = false ->
  exists s',
    updateGame atan2f dt s = Some s' /\
    Player.lives (player s') = Player.lives (player s) /\
    nextHitTime s' = nextHitTime s /\ phase s' <> PHASE_LOSE.
Proof.
  intros (Hph & (rem & Hcd & Hrem) & (cur & Htp)) Hsh Hexp.
  destruct (updateGame_play atan2f dt s rem cur Hph Hcd Hrem Htp)
    as (s' & Hu & H'). cbv zeta in H'.
  destruct H' as (_ & _ & _ & _ & Hn & _ & _ & _ & Hl & _ & _ & Hp).
  exists s'. split; [exact Hu|].
  set (st := set_timeLeft rem s) in *.
  assert (Hkeep : Player.shielded (player (expireShield st)) = true).
  { unfold expireShield. cbn [timeSec player st set_timeLeft].
    rewrite Hexp. exact Hsh. }
  assert (H1 : Player.lives (player (moveStep atan2f dt st)) = Player.lives (player s)
               /\ nextHitTime (moveStep atan2f dt st) = nextHitTime s
               /\ phase (moveStep atan2f dt st) = PHASE_PLAY).
  { destruct (tickBlocked dt st) eqn:Hb.
    - destruct (moveStep_blocked atan2f dt st Hb) as (_ & _ & L & N & P).
      cbv zeta in L, N, P. rewrite Hkeep in L, N, P. cbn [negb andb] in L, N, P.
      rewrite L, N, P. auto.
    - destruct (moveStep_free atan2f dt st Hb) as (_ & _ & L & N & P).
      rewrite L, N, P. auto. }
  destruct H1 as (L & N & P).
  rewrite Hl, Hn, Hp, L, N, P.
  split; [reflexivity|]. split; [reflexivity|].
  destruct intersectCircleCircle; discriminate.
Qed.

(** A free move in full. *)
Lemma free_tick (dt : float) (s : State) :
  liveTick s -> tickBlocked dt s = false ->
  exists s',
    updateGame atan2f dt s = Some s' /\
    Player.x (player s') = fst (tickCandidate dt s) /\
    Player.y (player s') = snd (tickCandidate dt s) /\
    Player.lives (player s') = Player.lives (player s) /\
    nextHitTime s' = nextHitTime s.
Proof.
  intros (Hph & (rem & Hcd & Hrem) & (cur & Htp)) Hb.
  destruct (updateGame_play atan2f dt s rem cur Hph Hcd Hrem Htp)
    as (s' & Hu & H'). cbv zeta in H'.
  destruct H' as (_ & _ & _ & _ & Hn & Hx & Hy & _ & Hl & _).
  exists s'. split; [exact Hu|].
  destruct (moveStep_free atan2f dt (set_timeLeft rem s) Hb) as (X & Y & L & N & _).
  rewrite Hx, Hy, Hl, Hn, X, Y, L, N. repeat split.
Qed.

Lemma Timer_still (nowMs : Z) (s s' : State) :
  invariant s -> sound s -> tidy s -> noKeys s ->
  Timer atan2f nowMs s = Some s' ->
  Player.x (player s') = Player.x (player s) /\
  Player.y (player s') = Player.y (player s) /\
  Player.angleDeg (player s') = Player.angleDeg (player s) /\
  Player.lives (player s') = Player.lives (player s).
Proof.
  intros Hinv Hs Ht Hk. unfold Timer. cbv zeta.
  pose proof (advance_invariant nowMs s Hinv) as (Hr & _).
  pose proof (advance_sound nowMs s Hs) as (_ & _ & Ha & _).
  pose proof (advance_tidy nowMs s Ht) as (_ & _ & Hc & _).
  destruct (advance_frame nowMs s) as (_ & _ & _ & Hpl & _).
  destruct (advance_keys nowMs s) as (K1 & K2 & K3 & K4 & K5 & K6 & K7 & K8).
  cbv zeta in *.
  assert (Hk1 : noKeys (advance nowMs s)).
  { unfold noKeys in *. rewrite K1, K2, K3, K4, K5, K6, K7, K8. exact Hk. }
  destruct (Phase_eqb (phase (advance nowMs s)) PHASE_PLAY).
  - intros Hu.
    pose proof (updateGame_still atan2f _ _ _ Hr Ha Hc Hk1 (timerDt_finite nowMs s) Hu) as H.
    rewrite Hpl in H. exact H.
  - intros E. apply Some_inj in E. subst s'. rewrite Hpl. auto.
Qed.

End Final.

(** ** The score *)

Lemma castOr0_int (x : Z) : exact24 x -> castOr0 (of_int x) = x.
Proof.
  intros Hx. unfold castOr0.
  destruct (of_int_exact x Hx) as [[-> ->]|(s & m & e & -> & _ & _ & ->)];
    reflexivity.
Qed.

Lemma pixelOf_grid (o : Obj.t) :
  onGrid o ->
  exists x y, pixelOf o = (x, y) /\ Obj.x o = of_int x /\ Obj.y o = of_int y /\
              0 <= x <= W /\ GAME_Y0 <= y <= GAME_Y1.
Proof.
  intros (x & y & Hx & Hy & Bx & By). exists x, y.
  unfold pixelOf. rewrite Hx, Hy.
  rewrite !castOr0_int
    by (unfold exact24, W, GAME_Y0, GAME_Y1, BOT_H, H, TOP_H in *;
        change (2 ^ 24) with 16777216; lia).
  auto.
Qed.

(** Objects that are apart sit on different pixels. *)
Lemma apart_pixels (a b : Obj.t) :
  onGrid a -> onGrid b -> apart a b -> pixelOf a <> pixelOf b.
Proof.
  intros Ha Hb [Hab _] E.
  destruct (pixelOf_grid a Ha) as (x & y & Pa & Xa & Ya & Bx & By).
  destruct (pixelOf_grid b Hb) as (x' & y' & Pb & Xb & Yb & Bx' & By').
  rewrite Pa, Pb in E. injection E as <- <-.
  rewrite Xa, Ya, Xb, Yb in Hab.
  destruct (grid_coord x y Bx By) as [Cx Cy].
  destruct (exact_dist2 x y x y Cx Cy Cx Cy) as [Ed Hs].
  rewrite Ed in Hab. unfold dist2Z in Hab.
  rewrite !Z.sub_diag in Hab. cbn in Hab. discriminate.
Qed.

Lemma NoDup_pixels (l : list Obj.t) :
  Forall onGrid l -> ForallOrdPairs apart l -> NoDup (map pixelOf l).
Proof.
  intros Hg Hp. induction Hp as [|a l Ha Hl IH]; cbn [map]; [constructor|].
  inversion Hg as [|? ? Hga Hgl]; subst. constructor; [|apply IH, Hgl].
  intros Hin. apply in_map_iff in Hin as (b & E & Hb).
  assert (Hab : apart a b) by (exact (proj1 (Forall_forall _ _) Ha b Hb)).
  assert (Hgb : onGrid b) by (exact (proj1 (Forall_forall _ _) Hgl b Hb)).
  exact (apart_pixels a b Hga Hgb Hab (eq_sym E)).
Qed.

Lemma gridPixels_length : Z.of_nat (length gridPixels) = gridSize.
Proof.
  unfold gridPixels. rewrite length_prod, !length_map, !length_seq.
  rewrite Nat2Z.inj_mul. reflexivity.
Qed.

Lemma gridPixels_In (x y : Z) :
  0 <= x <= W -> GAME_Y0 <= y <= GAME_Y1 -> In (x, y) gridPixels.
Proof.
  unfold W, GAME_Y0, GAME_Y1, BOT_H, H, TOP_H. intros Hx Hy.
  apply in_prod; apply in_map_iff.
  - exists (Z.to_nat x). split; [lia|]. apply in_seq. lia.
  - exists (Z.to_nat y). split; [lia|]. apply in_seq. lia.
Qed.

(** No more objects than pixels. *)
Lemma placed_count (l : list Obj.t) :
  Forall onGrid l -> ForallOrdPairs apart l -> Z.of_nat (length l) <= gridSize.
Proof.
  intros Hg Hp. rewrite <- gridPixels_length, <- (length_map pixelOf l).
  apply Nat2Z.inj_le. apply NoDup_incl_length; [apply NoDup_pixels; assumption|].
  intros p Hin. apply in_map_iff in Hin as (o & <- & Ho).
  assert (Hgo : onGrid o) by (exact (proj1 (Forall_forall _ _) Hg o Ho)).
  destruct (pixelOf_grid o Hgo) as (x & y & -> & _ & _ & Bx & By).
  apply gridPixels_In; assumption.
Qed.

Lemma tidy_collectibles (s : State) :
  tidy s -> Z.of_nat (length (collectibles s)) <= gridSize.
Proof.
  intros (Hg & Hp & _). unfold placedObjects in *.
  apply Forall_app in Hg as [_ Hg]. apply Forall_app in Hg as [Hg _].
  apply FOP_app in Hp as (_ & Hp & _). apply FOP_app in Hp as (Hp & _).
  apply placed_count; assumption.
Qed.

Lemma filter_split_length {A : Type} (f : A -> bool) (l : list A) :
  (length (filter f l) + length (filter (fun a => negb (f a)) l) = length l)%nat.
Proof.
  induction l as [|a l IH]; cbn [filter]; [reflexivity|].
  destruct (f a); cbn [negb length]; lia.
Qed.

Lemma gridSize_int : 5 * gridSize <= INT_MAX.
Proof. vm_compute. discriminate. Qed.

Section Score.

Variable atan2f : float -> float -> float.

Lemma updateGame_scored (dt : float) (s s' : State) :
  scored s -> updateGame atan2f dt s = Some s' -> scored s'.
Proof.
  intros (k & Hk & Hs & Hb & He) Hu.
  destruct (updateGame_cases atan2f dt s s' Hu)
    as [[_ ->]|[(Hph & Hcd & ->)|(Hph & rem & cur & Hcd & Hrem & Htp)]].
  - exists k. auto.
  - exists k. split; [exact Hk|]. split; [exact Hs|]. split; [exact Hb|].
    intros E. discriminate E.
  - destruct (updateGame_play atan2f dt s rem cur Hph Hcd Hrem Htp)
      as (s'' & Hu' & H'). rewrite Hu in Hu'. apply Some_inj in Hu'. subst s''.
    cbv zeta in H'.
    destruct H' as (_ & _ & _ & _ & _ & _ & _ & _ & _ & Hc & Hsc & _).
    pose proof (updateGame_phase atan2f dt s s' Hu) as Hp.
    set (p1 := player (moveStep atan2f dt (set_timeLeft rem s))) in *.
    pose proof (filter_split_length (touches p1) (collectibles s)) as Hlen.
    pose proof gridSize_int as Hgs.
    set (N := length (filter (touches p1) (collectibles s))) in *.
    exists (k + Z.of_nat N).
    rewrite iter_bump in Hsc by (unfold INT_MIN; lia).
    rewrite Hsc, Hc, Hs.
    split; [lia|]. split; [lia|]. split; [lia|].
    intros Hed. exfalso. destruct Hp as [E|[_ [E|E]]]; congruence.
Qed.

Lemma handle_scored (e : Event) (s s' : State) :
  invariant s -> tidy s -> scored s -> handle atan2f e s = Some s' -> scored s'.
Proof.
  intros Hinv Ht Hs Hh.
  pose proof (handle_tidy atan2f e s s' Hinv Ht Hh) as Ht'.
  destruct e; cbn [handle] in Hh.
  - unfold Timer in Hh. cbv zeta in Hh.
    assert (Hs1 : scored (advance nowMs s)).
    { destruct (advance_frame nowMs s) as (_ & Hc & _ & Hpl & Hph & _).
      cbv zeta in *. unfold scored. rewrite Hc, Hpl, Hph. exact Hs. }
    destruct (Phase_eqb (phase (advance nowMs s)) PHASE_PLAY).
    + exact (updateGame_scored _ _ _ Hs1 Hh).
    + apply Some_inj in Hh. subst s'. exact Hs1.
  - apply Some_inj in Hh. subst s'. unfold Keyboard.
    destruct (_ || _); [|exact Hs].
    destruct Hs as (k & Hk & _ & Hb & _). exists 0.
    split; [lia|]. split; [reflexivity|]. split; [|intros E; discriminate E].
    change (collectibles (startRound s)) with (collectibles s). lia.
  - apply Some_inj in Hh. subst s'. exact Hs.
  - apply Some_inj in Hh. subst s'. exact Hs.
  - apply Some_inj in Hh. subst s'. exact Hs.
  - destruct (Mouse_cases _ _ _ _ _ _ Hh) as [->|[(m & ->)|(o & -> & Hph & _)]];
      [exact Hs | exact Hs |].
    destruct Hs as (k & Hk & Hs & Hb & He). specialize (He Hph). subst k.
    exists 0. pose proof (tidy_collectibles _ Ht') as Hc.
    split; [lia|]. split; [|split; [lia | auto]].
    unfold push. destruct (Obj.type o); exact Hs.
Qed.

Lemma reachable_scored (s : State) : reachable atan2f s -> scored s.
Proof.
  induction 1 as [|e s s' Hre IH Hh].
  - exists 0. split; [lia|]. split; [reflexivity|]. split; [|reflexivity].
    vm_compute. discriminate.
  - exact (handle_scored e s s' (reachable_invariant atan2f s Hre)
             (reachable_tidy atan2f s Hre) IH Hh).
Qed.

(** ** The outcome of a tick *)

Lemma tick_outcome (dt : float) (s : State) :
  playTick s ->
  exists s' cur,
    updateGame atan2f dt s = Some s' /\ targetPos s = Some cur /\
    phase s'
    = (if intersectCircleCircle (Player.x (player s')) (Player.y (player s'))
            (Player.r (player s')) (of_int (fst cur)) (of_int (snd cur))
            (Target.r (target s'))
       then PHASE_WIN
       else if Player.lives (player s') =? 0 then PHASE_LOSE else PHASE_PLAY).
Proof.
  intros ((_ & _ & Hlives) & Hph & (rem & Hcd & Hrem) & (cur & Htp)).
  specialize (Hlives Hph).
  destruct (updateGame_play atan2f dt s rem cur Hph Hcd Hrem Htp)
    as (s' & Hu & H'). cbv zeta in H'.
  destruct H' as (_ & Htg & _ & _ & _ & Hx & Hy & Hr & Hl & _ & _ & Hp).
  exists s', cur. split; [exact Hu|]. split; [exact Htp|].
  rewrite Hp, Hx, Hy, Hr, Htg, Hl.
  destruct intersectCircleCircle; [reflexivity|].
  set (st := set_timeLeft rem s) in *.
  destruct (tickBlocked dt st) eqn:Hb.
  - destruct (moveStep_blocked atan2f dt st Hb) as (_ & _ & L & _ & P).
    cbv zeta in L, P. rewrite P.
    change (phase st) with (phase s). rewrite Hph.
    destruct (negb _ && _); cbn [andb]; [reflexivity|].
    rewrite L. change (Player.lives (player st)) with (Player.lives (player s)).
    destruct (Z.eqb_spec (Player.lives (player s)) 0); [lia | reflexivity].
  - destruct (moveStep_free atan2f dt st Hb) as (_ & _ & L & _ & P).
    rewrite P, L. change (phase st) with (phase s). rewrite Hph.
    change (Player.lives (player st)) with (Player.lives (player s)).
    destruct (Z.eqb_spec (Player.lives (player s)) 0); [lia | reflexivity].
Qed.

End Score.

(** ** The time step *)

Lemma timerDt_first (nowMs : Z) (s : State) :
  lastMs s = 0 -> timerDt nowMs s = zero.
Proof.
  intros E. unfold timerDt. rewrite E. cbn [Z.eqb].
  rewrite Z.sub_diag. reflexivity.
Qed.

(** ** The HUD and the palette *)

Lemma hearts_of_lives (s : State) :
  0 <= Player.lives (player s) <= MAX_LIVES ->
  map Heart.full (hearts s)
  = repeat true (Z.to_nat (Player.lives (player s)))
    ++ repeat false (Z.to_nat (MAX_LIVES - Player.lives (player s))).
Proof.
  unfold hearts. rewrite map_map. cbn [Heart.full].
  generalize (Player.lives (player s)). intros l Hl.
  change MAX_LIVES with 5 in *.
  assert (Hc : l = 0 \/ l = 1 \/ l = 2 \/ l = 3 \/ l = 4 \/ l = 5) by lia.
  destruct Hc as [->|[->|[->|[->|[->| ->]]]]]; reflexivity.
Qed.

Lemma disc_in_square (a b r : Z) :
  0 <= r -> a * a + b * b <= r * r -> - r <= a <= r /\ - r <= b <= r.
Proof.
  intros Hr Hd.
  assert (Ha : a * a <= r * r) by nia.
  assert (Hb : b * b <= r * r) by nia.
  split; nia.
Qed.

(** A click inside the disc of a palette icon, in integers. *)
Lemma icon_click (cx r x gy : Z) :
  0 <= cx <= 1000 -> 0 <= r <= 18 -> coord x -> coord gy ->
  (dist2 (of_int x) (of_int gy) (of_int cx) (of_int 60) <=? of_int (r * r))%f32 = true ->
  dist2Z x gy cx 60 <= r * r.
Proof.
  intros Hcx Hr Hx Hy.
  assert (C1 : coord cx) by (unfold coord; lia).
  assert (C2 : coord 60) by (unfold coord; lia).
  destruct (exact_dist2 x gy cx 60 Hx Hy C1 C2) as [-> Hs].
  assert (Hrr : small (r * r)) by (unfold small; change (2 ^ 24) with 16777216; nia).
  rewrite (exact_leb _ _ Hs Hrr). apply Z.leb_le.
Qed.

Lemma icon_selects (ic : Obj.t) (label : string) (x y : Z) (s : State) :
  In (ic, label) paletteIcons ->
  0 <= x <= W -> 0 <= y <= H ->
  (dist2 (of_int x) (of_int (H - y)) (Obj.x ic) (Obj.y ic)
   <=? Obj.r ic * Obj.r ic)%f32 = true ->
  exists s',
    Mouse GLUT_LEFT_BUTTON GLUT_DOWN x y s = Some s' /\
    modeHint s' = ("Place: " ++ label)%string /\
    forall x2 y2 : Z,
      option_map Obj.type (placedObj (placeMode s') x2 y2) = Some (Obj.type ic).
Proof.
  intros Hin Hx Hy Hd. change W with 1000 in Hx. change H with 700 in Hy.
  assert (Hw : wrap32 (H - y) = H - y).
  { change H with 700. unfold wrap32. change (2 ^ 31) with 2147483648.
    change (2 ^ 32) with 4294967296. rewrite Z.mod_small; lia. }
  assert (Cx : coord x) by (unfold coord; lia).
  assert (Cy : coord (H - y)) by (change H with 700; unfold coord; lia).
  assert (Hm : exists m, paletteMode x (H - y) = m /\
                 H - y <= BOT_H /\
                 (match m with
                  | PLACE_OBS => "Place: Obstacle"
                  | PLACE_COL => "Place: Collectible"
                  | PLACE_PU_SPEED => "Place: Speed PU"
                  | PLACE_PU_SHIELD => "Place: Shield PU"
                  | PLACE_NONE => "Place: None"
                  end = "Place: " ++ label)%string /\
                 forall x2 y2 : Z,
                   option_map Obj.type (placedObj m x2 y2) = Some (Obj.type ic)).
  { rewrite (paletteMode_int _ _ Cx Cy).
    unfold paletteIcons in Hin. cbv zeta in Hin. rewrite palette_cy in Hin.
    cbn [In] in Hin.
    destruct Hin as [E|[E|[E|[E|[]]]]];
      pose proof (f_equal fst E) as E1; pose proof (f_equal snd E) as E2;
      cbn [fst snd] in E1, E2; subst ic label; clear E;
      cbn [Obj.x Obj.y Obj.r Obj.type] in Hd |- *.
    - change (of_int 18 * of_int 18)%f32 with (of_int (18 * 18)) in Hd.
      apply icon_click in Hd; try assumption; try (change W with 1000; lia); try lia.
      unfold dist2Z in Hd |- *. change BOT_H with 120. change H with 700 in *.
      assert (Hsq := Hd); apply disc_in_square in Hsq as [Hda Hdb]; [|lia].
      destruct (Z.ltb_spec ((x - 80) * (x - 80) + (700 - y - 60) * (700 - y - 60)) 1225);
        [|lia].
      eexists. split; [reflexivity|]. split; [nia|]. split; reflexivity.
    - change (of_int 16 * of_int 16)%f32 with (of_int (16 * 16)) in Hd.
      apply icon_click in Hd; try assumption; try (change W with 1000; lia); try lia.
      unfold dist2Z in Hd |- *. change BOT_H with 120. change H with 700 in *.
      assert (Hsq := Hd); apply disc_in_square in Hsq as [Hda Hdb]; [|lia].
      destruct (Z.ltb_spec ((x - 80) * (x - 80) + (700 - y - 60) * (700 - y - 60)) 1225);
        [nia|].
      destruct (Z.ltb_spec ((x - 240) * (x - 240) + (700 - y - 60) * (700 - y - 60)) 1225);
        [|lia].
      eexists. split; [reflexivity|]. split; [nia|]. split; reflexivity.
    - change (of_int 16 * of_int 16)%f32 with (of_int (16 * 16)) in Hd.
      apply icon_click in Hd; try assumption; try (change W with 1000; lia); try lia.
      unfold dist2Z in Hd |- *. change BOT_H with 120. change H with 700 in *.
      assert (Hsq := Hd); apply disc_in_square in Hsq as [Hda Hdb]; [|lia].
      destruct (Z.ltb_spec ((x - 80) * (x - 80) + (700 - y - 60) * (700 - y - 60)) 1225);
        [nia|].
      destruct (Z.ltb_spec ((x - 240) * (x - 240) + (700 - y - 60) * (700 - y - 60)) 1225);
        [nia|].
      destruct (Z.ltb_spec ((x - 400) * (x - 400) + (700 - y - 60) * (700 - y - 60)) 1225);
        [|lia].
      eexists. split; [reflexivity|]. split; [nia|]. split; reflexivity.
    - change (of_int 16 * of_int 16)%f32 with (of_int (16 * 16)) in Hd.
      apply icon_click in Hd; try assumption; try (change W with 1000; lia); try lia.
      unfold dist2Z in Hd |- *. change BOT_H with 120. change H with 700 in *.
      assert (Hsq := Hd); apply disc_in_square in Hsq as [Hda Hdb]; [|lia].
      destruct (Z.ltb_spec ((x - 80) * (x - 80) + (700 - y - 60) * (700 - y - 60)) 1225);
        [nia|].
      destruct (Z.ltb_spec ((x - 240) * (x - 240) + (700 - y - 60) * (700 - y - 60)) 1225);
        [nia|].
      destruct (Z.ltb_spec ((x - 400) * (x - 400) + (700 - y - 60) * (700 - y - 60)) 1225);
        [nia|].
      destruct (Z.ltb_spec ((x - 560) * (x - 560) + (700 - y - 60) * (700 - y - 60)) 1225);
        [|lia].
      eexists. split; [reflexivity|]. split; [nia|]. split; reflexivity. }
  destruct Hm as (m & Em & Hle & Hhint & Hty).
  exists (set_placeMode m s). split.
  - unfold Mouse. cbn [Z.eqb GLUT_DOWN GLUT_LEFT_BUTTON negb orb]. rewrite Hw.
    destruct (Z.leb_spec (H - y) BOT_H); [|lia]. rewrite Em. reflexivity.
  - split; [exact Hhint | exact Hty].
Qed.

(** ** The stripes' offset *)

Lemma lit_2_10 : lit 2 10 = S754_finite false 13421773 (-26).
Proof. vm_compute. reflexivity. Qed.

Lemma of_int_20 : of_int 20 = S754_finite false 10485760 (-19).
Proof. vm_compute. reflexivity. Qed.

(** A positive float is at most 20 when its exponent is below that of 20,
    or the same with a mantissa that is not larger. *)
Lemma fleb_20 (m : positive) (e : Z) :
  (S754_finite false m e <=? of_int 20)%f32 = true <->
  e < -19 \/ (e = -19 /\ (m <= 10485760)%positive).
Proof.
  rewrite of_int_20. unfold fleb, SFleb, SFcompare.
  destruct (Z.compare_spec e (-19)) as [E|E|E].
  - rewrite Pos.compare_cont_spec. cbn [Pos.switch_Eq]. unfold Pos.le.
    destruct (m ?= 10485760)%positive.
    + split; [intros _; right; split; [exact E | discriminate] | reflexivity].
    + split; [intros _; right; split; [exact E | discriminate] | reflexivity].
    + split; [discriminate | intros [Hlt|[_ Hle]]; [lia | contradiction Hle; reflexivity]].
  - split; [intros _; left; exact E | reflexivity].
  - split; [discriminate | intros [Hlt|[Ee _]]; lia].
Qed.

Lemma fgtb_20 (m : positive) (e : Z) :
  (S754_finite false m e >? of_int 20)%f32 = true <->
  -19 < e \/ (e = -19 /\ (10485760 < m)%positive).
Proof.
  rewrite of_int_20. unfold fgtb, SFltb, SFcompare.
  destruct (Z.compare_spec (-19) e) as [E|E|E].
  - rewrite Pos.compare_cont_spec. cbn [Pos.switch_Eq]. unfold Pos.lt.
    destruct (10485760 ?= m)%positive.
    + split; [discriminate | intros [Hlt|[_ Hlt]]; [lia | discriminate Hlt]].
    + split; [intros _; right; split; [lia | reflexivity] | reflexivity].
    + split; [discriminate | intros [Hlt|[_ Hlt]]; [lia | discriminate Hlt]].
  - split; [intros _; left; exact E | reflexivity].
  - split; [discriminate | intros [Hlt|[Ee _]]; lia].
Qed.

Lemma mantissa_20 (m : positive) :
  ((m <= 10485760)%positive -> Zpos m <= 10485760) /\
  ((10485760 < m)%positive -> 10485760 < Zpos m).
Proof. split; intros Hm; exact Hm. Qed.

(** A canonical mantissa has at most 24 bits. *)
Lemma canonical_digits (m : positive) (e : Z) :
  fexp32 (Zpos (digits2_pos m) + e) = e -> Zpos (digits2_pos m) <= 24.
Proof. unfold fexp32. lia. Qed.

(** After the addition of 0.2f the offset is at most 32. *)
Lemma stripe_add (b : float) :
  stripe b ->
  match (b + lit 2 10)%f32 with
  | S754_zero _ => True
  | S754_finite false q e2 =>
      fexp32 (Zpos (digits2_pos q) + e2) = e2 /\
      (e2 <= -19 \/ (e2 = -18 /\ q = 8388608%positive))
  | _ => False
  end.
Proof.
  intros [Hb Hle]. rewrite lit_2_10.
  destruct b as [s|s| |[|] mx ex]; cbn [below] in Hb; try contradiction.
  - destruct s; cbn; (split; [reflexivity | left; lia]).
  - destruct Hb as [Hv Hd]. apply valid32_finite in Hv as [Hc _].
    apply fleb_20 in Hle.
    assert (Hle' : ex < -19 \/ (ex = -19 /\ Zpos mx <= 10485760)).
    { destruct Hle as [Hlt|[Ee Hm]]; [left; exact Hlt | right; split; [exact Ee|]].
      exact (proj1 (mantissa_20 mx) Hm). }
    clear Hle. rename Hle' into Hle.
    destruct (fadd_finite false mx ex false 13421773 (-26))
      as (mx' & my' & -> & Hx & _ & Hy).
    cbv zeta in *. cbn [cond_Zopp]. set (ez := Z.min ex (-26)) in *.
    change (Zpos mx' + Zpos my') with (Zpos (mx' + my')).
    cbn [binary_normalize].
    assert (HD : Zpos (digits2_pos (mx' + my')) + ez <= 5).
    { pose proof (canonical_digits mx ex Hc) as H24.
      destruct (Zdigits2_bounds mx) as [_ Hbx].
      assert (Hmx : Zpos mx < 2 ^ 24).
      { apply Z.lt_le_trans with (1 := Hbx). apply Z.pow_le_mono_r; lia. }
      assert (Hez : ez <= -26) by lia.
      assert (Hsum : Zpos (mx' + my') < 2 ^ (5 - ez)).
      { assert (HP : exists P, 0 < P /\ 2 ^ (-26 - ez) = P)
          by (exists (2 ^ (-26 - ez)); split; [apply Z.pow_pos_nonneg; lia | reflexivity]).
        destruct HP as (P & HP & EP).
        rewrite Pos2Z.inj_add, Hx, Hy.
        replace (5 - ez) with (31 + (-26 - ez)) by lia.
        rewrite Z.pow_add_r by lia. rewrite EP.
        change (2 ^ 31) with 2147483648. change (2 ^ 24) with 16777216 in Hmx.
        assert (Hxs : Zpos mx * 2 ^ (ex - ez) <= 1342177280 * P).
        { destruct Hle as [Hlt|[Ee Hm]].
          - assert (Hpw : 2 ^ (ex - ez) <= 2 ^ (6 + (-26 - ez)))
              by (apply Z.pow_le_mono_r; lia).
            rewrite Z.pow_add_r in Hpw by lia. rewrite EP in Hpw.
            change (2 ^ 6) with 64 in Hpw.
            assert (Hpos : 0 < 2 ^ (ex - ez)) by (apply Z.pow_pos_nonneg; lia).
            nia.
          - replace (ex - ez) with (7 + (-26 - ez)) by lia.
            rewrite Z.pow_add_r by lia. rewrite EP.
            change (2 ^ 7) with 128. nia. }
        lia. }
      pose proof (Zdigits2_lt (Zpos (mx' + my')) (5 - ez)
                    ltac:(lia) ltac:(lia) Hsum) as Hdg.
      cbn [Zdigits2] in Hdg. lia. }
    pose proof (binary_round_shape false (mx' + my') ez) as Hsh. cbv zeta in Hsh.
    destruct (binary_round prec emax false (mx' + my') ez) as [s'|s'| |s' q e2].
    + exact I.
    + destruct Hsh as [_ Hsh]. unfold fexp32 in Hsh. lia.
    + contradiction.
    + destruct Hsh as (-> & Hcq & _ & Hsh). split; [exact Hcq|].
      unfold fexp32 in Hsh. destruct Hsh as [E|[E ->]]; [left; lia|].
      destruct (Z.eq_dec e2 (-18)) as [E18|N18]; [right; auto | left; lia].
Qed.

(** A canonical float of exponent at most -19, at most 20, is an offset. *)
Lemma stripe_finite (q : positive) (e2 : Z) :
  fexp32 (Zpos (digits2_pos q) + e2) = e2 -> e2 <= -19 ->
  (S754_finite false q e2 <=? of_int 20)%f32 = true ->
  stripe (S754_finite false q e2).
Proof.
  intros Hc He Hle. split; [|exact Hle]. cbn [below]. split.
  - apply valid32_finite. split; [exact Hc | lia].
  - pose proof (canonical_digits q e2 Hc). lia.
Qed.

Lemma drawPanels_bgShift_stripe (b : float) :
  stripe b -> stripe (drawPanels_bgShift b).
Proof.
  intros Hb. pose proof (stripe_add b Hb) as Hy. unfold drawPanels_bgShift.
  cbv zeta. destruct (b + lit 2 10)%f32 as [s|s| |[|] q e2]; try contradiction.
  - cbn. split; [exact I | destruct s; reflexivity].
  - destruct Hy as [Hc Hsh].
    destruct (S754_finite false q e2 >? of_int 20)%f32 eqn:Hgt.
    + apply fgtb_20 in Hgt.
      destruct Hsh as [He|[-> ->]].
      * assert (e2 = -19 /\ 10485760 < Zpos q) as [-> Hq].
        { destruct Hgt as [Hlt|[Ee Hm]]; [lia|].
          split; [exact Ee | exact (proj2 (mantissa_20 q) Hm)]. }
        pose proof (canonical_digits q _ Hc) as H24.
        destruct (Zdigits2_bounds q) as [_ Hbq].
        assert (Hq24 : Zpos q < 2 ^ 24).
        { apply Z.lt_le_trans with (1 := Hbq). apply Z.pow_le_mono_r; lia. }
        rewrite of_int_20, fsub_finite. cbn [negb].
        destruct (fadd_finite false q (-19) true 10485760 (-19))
          as (mx' & my' & -> & Hx & _ & Hy).
        cbv zeta in *. cbn [cond_Zopp]. change (Z.min (-19) (-19)) with (-19) in *.
        change (-19 - -19) with 0 in *. change (2 ^ 0) with 1 in *.
        rewrite Z.mul_1_r in Hx, Hy.
        destruct (Zpos mx' + - Zpos my') as [|p|p] eqn:Ep; try lia.
        cbn [binary_normalize].
        assert (Hp : Zpos p < 2 ^ 23) by (change (2 ^ 24) with 16777216 in Hq24;
                                          change (2 ^ 23) with 8388608; lia).
        pose proof (Zdigits2_lt (Zpos p) 23 ltac:(lia) ltac:(lia) Hp) as Hdg.
        cbn [Zdigits2] in Hdg.
        pose proof (binary_round_shape false p (-19)) as Hs2. cbv zeta in Hs2.
        destruct (binary_round prec emax false p (-19)) as [s'|s'| |s' q' e'].
        -- split; [exact I | destruct s'; reflexivity].
        -- destruct Hs2 as [_ Hs2]. unfold fexp32 in Hs2. lia.
        -- contradiction.
        -- destruct Hs2 as (-> & Hcq & _ & Hs2). unfold fexp32 in Hs2.
           apply stripe_finite; [exact Hcq | destruct Hs2 as [E|[E _]]; lia |].
           apply fleb_20. destruct Hs2 as [E|[E ->]]; [left; lia|].
           destruct (Z.eq_dec e' (-19)) as [->|N];
             [right; split; [reflexivity | discriminate] | left; lia].
      * vm_compute. split; [split; [reflexivity | discriminate] | reflexivity].
    + destruct Hsh as [He|[-> ->]]; [|vm_compute in Hgt; discriminate].
      apply stripe_finite; [exact Hc | exact He |].
      apply not_fltb_fleb; [reflexivity | reflexivity | exact Hgt].
Qed.

Lemma bgShift_stripe (n : nat) : stripe (Nat.iter n drawPanels_bgShift zero).
Proof.
  induction n as [|n IH]; cbn [Nat.iter].
  - split; [exact I | reflexivity].
  - apply drawPanels_bgShift_stripe, IH.
Qed.

Lemma stripe_range (b : float) :
  stripe b -> (zero <=? b)%f32 = true /\ (b <=? of_int 20)%f32 = true.
Proof.
  intros [Hb Hle]. split; [|exact Hle].
  destruct b as [s|s| |[|] m e]; cbn [below] in Hb; try contradiction.
  - destruct s; reflexivity.
  - reflexivity.
Qed.

(** * Further theorems *)

Lemma restScene_reachable : reachable libm0 restScene.
Proof.
  apply (run_reachable libm0
           [EvMouse 0 0 80 640; EvMouse 0 0 500 496;
            EvKeyboard "r"%char 0 0; EvTimer 1000]
           (initScene initial)); [apply reach_init | vm_compute; reflexivity].
Qed.

Lemma powerScene_reachable : reachable libm0 powerScene.
Proof.
  apply (run_reachable libm0
           [EvMouse 0 0 560 640; EvMouse 0 0 500 496;
            EvMouse 0 0 400 640; EvMouse 0 0 540 496;
            EvKeyboard "r"%char 0 0; EvKeyboard "w"%char 0 0;
            EvKeyboard "d"%char 0 0; EvTimer 1000; EvTimer 1083;
            EvKeyboardUp "d"%char 0 0]
           (initScene initial)); [apply reach_init | vm_compute; reflexivity].
Qed.

Lemma powerScene_liveTick : liveTick (advance 1166 powerScene).
Proof.
  split; [vm_compute; reflexivity|]. split.
  - exists 60. split; [vm_compute; reflexivity | lia].
  - exists (136, 561). vm_compute. reflexivity.
Qed.

Lemma powerScene2_liveTick : liveTick (advance 1249 powerScene2).
Proof.
  split; [vm_compute; reflexivity|]. split.
  - exists 60. split; [vm_compute; reflexivity | lia].
  - exists (156, 565). vm_compute. reflexivity.
Qed.

(** X1: clampf returns a value between its bounds: when lo <= hi and the
    argument is not a NaN, lo <= clampf v lo hi <= hi. *)
Theorem X1_clampf_range (v lo hi : float) :
  (lo <=? hi)%f32 = true -> is_nan v = false ->
  (lo <=? clampf v lo hi)%f32 = true /\ (clampf v lo hi <=? hi)%f32 = true.
Proof. exact (clampf_between v lo hi). Qed.

Lemma X1_clampf_range_witness :
  (of_int 0 <=? clampf (of_int 7) (of_int 0) (of_int 5))%f32 = true /\
  (clampf (of_int 7) (of_int 0) (of_int 5) <=? of_int 5)%f32 = true.
Proof. apply X1_clampf_range; vm_compute; reflexivity. Defined.

(** X2: on pixel coordinates (integers of magnitude at most 1024) dist2
    loses nothing to rounding: its result is the float of the exact
    integer squared distance, and casts back to that integer. *)
Theorem X2_dist2_exact (x1 y1 x2 y2 : Z) :
  coord x1 -> coord y1 -> coord x2 -> coord y2 ->
  dist2 (of_int x1) (of_int y1) (of_int x2) (of_int y2)
  = of_int (dist2Z x1 y1 x2 y2) /\
  f2i (dist2 (of_int x1) (of_int y1) (of_int x2) (of_int y2))
  = Some (dist2Z x1 y1 x2 y2).
Proof.
  intros H1 H2 H3 H4.
  destruct (exact_dist2 x1 y1 x2 y2 H1 H2 H3 H4) as [E Hs].
  split; [exact E|]. rewrite E.
  assert (Hex : exact24 (dist2Z x1 y1 x2 y2)) by (unfold exact24, small in *; lia).
  destruct (of_int_exact _ Hex) as [[E0 ->]|(s & m & e & -> & _ & _ & Hf)].
  - rewrite E0. reflexivity.
  - exact Hf.
Qed.

Lemma X2_dist2_exact_witness :
  dist2 (of_int 500) (of_int 204) (of_int 540) (of_int 160)
  = of_int (dist2Z 500 204 540 160) /\
  f2i (dist2 (of_int 500) (of_int 204) (of_int 540) (of_int 160))
  = Some (dist2Z 500 204 540 160).
Proof. apply X2_dist2_exact; unfold coord; lia. Defined.

(** X3: on the points of the pixel grid, inGameArea accepts exactly the
    closed rectangle 0 <= x <= W, GAME_Y0 <= y <= GAME_Y1, its four edges
    included. *)
Theorem X3_inGameArea_int (x y : Z) :
  inGameArea (of_int x) (of_int y) = true <->
  0 <= x <= W /\ GAME_Y0 <= y <= GAME_Y1.
Proof.
  rewrite inGameArea_int, !andb_true_iff, !Z.leb_le. tauto.
Qed.

(** X4: for a parameter in [0, 1] and control points inside a window of
    1024 pixels, the casts of bezierPoint are defined, and the point it
    returns has no negative coordinate. *)
Theorem X4_bezier_defined (t : float) (p0 p1 p2 p3 : Z * Z) :
  unitT t -> inWindow p0 -> inWindow p1 -> inWindow p2 -> inWindow p3 ->
  exists cur, bezierPoint t p0 p1 p2 p3 = Some cur /\
              0 <= fst cur /\ 0 <= snd cur.
Proof.
  intros Ht [X0 Y0] [X1 Y1] [X2 Y2] [X3 Y3].
  destruct (bezierPoint_defined t p0 p1 p2 p3 Ht X0 Y0 X1 Y1 X2 Y2 X3 Y3)
    as (cur & E & Hx & Hy).
  exists cur. split; [exact E|]. lia.
Qed.

Lemma X4_bezier_defined_witness :
  exists cur, bezierPoint (lit 1 2) (100, 550) (300, 630) (700, 470) (900, 550)
              = Some cur /\ 0 <= fst cur /\ 0 <= snd cur.
Proof.
  apply X4_bezier_defined.
  - repeat split; vm_compute; reflexivity.
  - split; unfold pixel; cbn; lia.
  - split; unfold pixel; cbn; lia.
  - split; unfold pixel; cbn; lia.
  - split; unfold pixel; cbn; lia.
Defined.

(** X5: in every state the program reaches, the target's parameter is a
    binary32 value in [0, 1] and its direction is +1 or -1, whatever the
    clock read at the timer ticks. *)
Theorem X5_target_in_range (atan2f : float -> float -> float) (s : State) :
  reachable atan2f s ->
  unitT (Target.t_ (target s)) /\
  (Target.dir (target s) = 1 \/ Target.dir (target s) = -1).
Proof. intros Hr. exact (proj1 (reachable_sound atan2f s Hr)). Qed.

Lemma X5_target_in_range_witness :
  unitT (Target.t_ (target hitScene)) /\
  (Target.dir (target hitScene) = 1 \/ Target.dir (target hitScene) = -1).
Proof. apply (X5_target_in_range libm0), hitScene_reachable. Defined.



(** X7: in every state the program reaches, the player's centre lies in
    the game area with its radius to spare: 14 <= x <= 986 and
    134 <= y <= 596. *)
Theorem X7_player_in_arena (atan2f : float -> float -> float) (s : State) :
  reachable atan2f s ->
  (of_int 14 <=? Player.x (player s))%f32 = true /\
  (Player.x (player s) <=? of_int 986)%f32 = true /\
  (of_int 134 <=? Player.y (player s))%f32 = true /\
  (Player.y (player s) <=? of_int 596)%f32 = true.
Proof.
  intros Hr. destruct (reachable_invariant atan2f s Hr) as (Hr14 & _).
  destruct (reachable_sound atan2f s Hr) as (_ & _ & Ha & _).
  unfold inArena, between in Ha. rewrite Hr14 in Ha.
  change (of_int W - of_int 14)%f32 with (of_int 986) in Ha.
  change (of_int GAME_Y0 + of_int 14)%f32 with (of_int 134) in Ha.
  change (of_int GAME_Y1 - of_int 14)%f32 with (of_int 596) in Ha.
  tauto.
Qed.

Lemma X7_player_in_arena_witness :
  (of_int 14 <=? Player.x (player collectScene))%f32 = true /\
  (Player.x (player collectScene) <=? of_int 986)%f32 = true /\
  (of_int 134 <=? Player.y (player collectScene))%f32 = true /\
  (Player.y (player collectScene) <=? of_int 596)%f32 = true.
Proof.
  apply (X7_player_in_arena libm0).
  apply (run_reachable libm0
           [EvMouse 0 0 240 640; EvMouse 0 0 500 500;
            EvMouse 0 0 540 500; EvMouse 0 0 800 400;
            EvKeyboard "r"%char 0 0; EvKeyboard "w"%char 0 0;
            EvKeyboard "d"%char 0 0; EvTimer 1000; EvTimer 1083;
            EvKeyboardUp "d"%char 0 0]
           (initScene initial)); [apply reach_init | vm_compute; reflexivity].
Defined.

(** X8: in every state the program reaches, the lives are between 0 and
    MAX_LIVES, and at least one is left while the phase is Play. *)
Theorem X8_lives_in_range (atan2f : float -> float -> float) (s : State) :
  reachable atan2f s ->
  0 <= Player.lives (player s) <= MAX_LIVES /\
  (phase s = PHASE_PLAY -> 1 <= Player.lives (player s)).
Proof.
  intros Hr. destruct (reachable_invariant atan2f s Hr) as (_ & _ & Hl).
  destruct (reachable_sound atan2f s Hr) as (_ & _ & _ & Hl0 & _).
  split; [exact Hl0|]. intros Hp. apply Hl, Hp.
Qed.

Lemma X8_lives_in_range_witness :
  0 <= Player.lives (player hitScene2) <= MAX_LIVES /\
  (phase hitScene2 = PHASE_PLAY -> 1 <= Player.lives (player hitScene2)).
Proof. apply (X8_lives_in_range libm0), hitScene2_reachable. Defined.

(** X9: in every state the program reaches, timeLeft is never negative,
    and it is 0 only in the Lose phase: the countdown the HUD shows reaches
    zero only when the round is lost. *)
Theorem X9_timeLeft_in_range (atan2f : float -> float -> float) (s : State) :
  reachable atan2f s ->
  0 <= timeLeft s /\ (timeLeft s = 0 -> phase s = PHASE_LOSE).
Proof.
  intros Hr. destruct (reachable_sound atan2f s Hr) as (_ & _ & _ & _ & H0 & H1 & _).
  split; [exact H0|]. intros E.
  destruct (phase s); try reflexivity;
    specialize (H1 ltac:(discriminate)); lia.
Qed.

Lemma X9_timeLeft_in_range_witness :
  0 <= timeLeft hitScene /\ (timeLeft hitScene = 0 -> phase hitScene = PHASE_LOSE).
Proof. apply (X9_timeLeft_in_range libm0), hitScene_reachable. Defined.

(** X10: in every state the program reaches, each collection holds only
    what Mouse puts there: obstacles of type Obstacle and radius 18,
    collectibles of type Collect and radius 14, power-ups of one of the two
    power-up types and radius 14, every one centred on a pixel of the game
    area. *)
Theorem X10_collections_well_formed (atan2f : float -> float -> float)
    (s : State) :
  reachable atan2f s ->
  Forall isObstacle (obstacles s) /\ Forall isCollectible (collectibles s) /\
  Forall isPowerup (powerups s).
Proof.
  intros Hr. destruct (reachable_sound atan2f s Hr) as (_ & _ & _ & _ & _ & _ & Hw).
  exact Hw.
Qed.

Lemma X10_collections_well_formed_witness :
  Forall isObstacle (obstacles powerScene) /\
  Forall isCollectible (collectibles powerScene) /\
  Forall isPowerup (powerups powerScene).
Proof. apply (X10_collections_well_formed libm0), powerScene_reachable. Defined.

(** X11: in every state the program reaches, any two placed objects, of
    whatever kinds, have their centres at least 40 pixels apart (squared
    distance not below 1600, by dist2). *)
Theorem X11_placed_objects_apart (atan2f : float -> float -> float)
    (s : State) :
  reachable atan2f s -> ForallOrdPairs apart (placedObjects s).
Proof.
  intros Hr. destruct (reachable_tidy atan2f s Hr) as (_ & Hp & _). exact Hp.
Qed.

Lemma X11_placed_objects_apart_witness :
  ForallOrdPairs apart (placedObjects powerScene).
Proof. apply (X11_placed_objects_apart libm0), powerScene_reachable. Defined.

(** X12: in every state the program reaches, the player's circle at its
    position meets no obstacle, by the very test tryMove runs: the player
    is never inside an obstacle. *)
Theorem X12_player_clear_of_obstacles (atan2f : float -> float -> float)
    (s : State) :
  reachable atan2f s ->
  blockedBy (Player.x (player s)) (Player.y (player s)) (Player.r (player s))
            (obstacles s) = false.
Proof.
  intros Hr. destruct (reachable_tidy atan2f s Hr) as (_ & _ & Hc & _). exact Hc.
Qed.

Lemma X12_player_clear_of_obstacles_witness :
  blockedBy (Player.x (player hitScene2)) (Player.y (player hitScene2))
            (Player.r (player hitScene2)) (obstacles hitScene2) = false.
Proof. apply (X12_player_clear_of_obstacles libm0), hitScene2_reachable. Defined.

(** X13: in a state the program reaches with no movement key held, a
    timer tick leaves the player's position, facing angle and lives as they
    are: standing still never costs a life. *)
Theorem X13_standing_still (atan2f : float -> float -> float)
    (nowMs : Z) (s s' : State) :
  reachable atan2f s -> noKeys s -> Timer atan2f nowMs s = Some s' ->
  Player.x (player s') = Player.x (player s) /\
  Player.y (player s') = Player.y (player s) /\
  Player.angleDeg (player s') = Player.angleDeg (player s) /\
  Player.lives (player s') = Player.lives (player s).
Proof.
  intros Hr Hk Ht.
  exact (Timer_still atan2f nowMs s s' (reachable_invariant atan2f s Hr)
           (reachable_sound atan2f s Hr) (reachable_tidy atan2f s Hr) Hk Ht).
Qed.

Lemma X13_standing_still_witness :
  let s' := unwrap (Timer libm0 1016 restScene) in
  Player.x (player s') = Player.x (player restScene) /\
  Player.y (player s') = Player.y (player restScene) /\
  Player.angleDeg (player s') = Player.angleDeg (player restScene) /\
  Player.lives (player s') = Player.lives (player restScene).
Proof.
  apply (X13_standing_still libm0 1016 restScene).
  - apply restScene_reachable.
  - vm_compute. repeat split.
  - vm_compute. reflexivity.
Defined.

(** X14: the phase changes in two ways only.  A callback that changes the
    phase is either the key r or R, and the new phase is Play, or a timer
    tick in the Play phase, and the new phase is Win or Lose.  So Win and
    Lose are left by a restart only, and Edit is never entered again. *)
Theorem X14_phase_transitions (atan2f : float -> float -> float)
    (e : Event) (s s' : State) :
  handle atan2f e s = Some s' -> phase s' <> phase s ->
  (phase s' = PHASE_PLAY /\
   exists k x y, e = EvKeyboard k x y /\ (k = "r"%char \/ k = "R"%char)) \/
  (phase s = PHASE_PLAY /\ (phase s' = PHASE_WIN \/ phase s' = PHASE_LOSE) /\
   exists nowMs, e = EvTimer nowMs).
Proof.
  intros Hh Hne. destruct e; cbn [handle] in Hh.
  - right. destruct (Timer_phase atan2f nowMs s s' Hh) as [E|[Hp Hq]];
      [contradiction|]. split; [exact Hp|]. split; [exact Hq|]. eauto.
  - left. apply Some_inj in Hh. subst s'. unfold Keyboard in *.
    unfold key_is in *.
    destruct (Ascii.eqb_spec key "r"%char) as [->|Hr];
      [split; [reflexivity|]; eauto 6|].
    destruct (Ascii.eqb_spec key "R"%char) as [->|HR];
      [split; [reflexivity|]; eauto 6|].
    exfalso. apply Hne. reflexivity.
  - apply Some_inj in Hh. subst s'. exfalso. apply Hne. reflexivity.
  - apply Some_inj in Hh. subst s'. exfalso. apply Hne. reflexivity.
  - apply Some_inj in Hh. subst s'. exfalso. apply Hne. reflexivity.
  - apply Mouse_frame in Hh as (_ & _ & Hp). contradiction.
Qed.

Lemma X14_phase_transitions_witness :
  (phase (Keyboard "r"%char 0 0 editScene) = PHASE_PLAY /\
   exists k x y, EvKeyboard "r"%char 0 0 = EvKeyboard k x y /\
                 (k = "r"%char \/ k = "R"%char)) \/
  (phase editScene = PHASE_PLAY /\
   (phase (Keyboard "r"%char 0 0 editScene) = PHASE_WIN \/
    phase (Keyboard "r"%char 0 0 editScene) = PHASE_LOSE) /\
   exists nowMs, EvKeyboard "r"%char 0 0 = EvTimer nowMs).
Proof.
  apply (X14_phase_transitions libm0 (EvKeyboard "r"%char 0 0) editScene).
  - reflexivity.
  - vm_compute. discriminate.
Defined.

(** X15: once the edit phase is left, no sequence of events brings it
    back, none changes the obstacles, and the collectibles and the
    power-ups can only lose elements, the ones left keeping their order. *)
Theorem X15_frozen_after_edit (atan2f : float -> float -> float)
    (evs : list Event) (s s' : State) :
  run atan2f evs s = Some s' -> phase s <> PHASE_EDIT ->
  phase s' <> PHASE_EDIT /\ obstacles s' = obstacles s /\
  (exists keep, collectibles s' = filter keep (collectibles s)) /\
  (exists keep, powerups s' = filter keep (powerups s)).
Proof. exact (run_frozen atan2f evs s s'). Qed.

Lemma X15_frozen_after_edit_witness :
  let s' := unwrap (run libm0 [EvTimer 1166; EvMouse 0 0 300 300;
                               EvKeyboard "r"%char 0 0] collectScene) in
  phase s' <> PHASE_EDIT /\ obstacles s' = obstacles collectScene /\
  (exists keep, collectibles s' = filter keep (collectibles collectScene)) /\
  (exists keep, powerups s' = filter keep (powerups collectScene)).
Proof.
  apply (X15_frozen_after_edit libm0
           [EvTimer 1166; EvMouse 0 0 300 300; EvKeyboard "r"%char 0 0]
           collectScene).
  - vm_compute. reflexivity.
  - vm_compute. discriminate.
Defined.

(** X16: in a play-phase tick that reaches the pick-up step, exactly the
    power-ups the player's circle overlaps leave the collection; a speed
    power-up among them sets speedUntil to now + 4 s, any other sets the
    shield and shieldUntil to now + 4 s, and without one the timers stay
    (the shield flag being the one the expiry test left). *)
Theorem X16_powerup_pickup (atan2f : float -> float -> float)
    (dt : float) (s : State) :
  liveTick s ->
  let p1 := player (moveStep atan2f dt s) in
  let picked := filter (touches p1) (powerups s) in
  exists s',
    updateGame atan2f dt s = Some s' /\
    powerups s' = filter (fun p => negb (touches p1 p)) (powerups s) /\
    Player.speedUntil (player s')
    = (if existsb speedKind picked then (timeSec s + POWERUP_DURATION)%f32
       else Player.speedUntil (player s)) /\
    Player.shieldUntil (player s')
    = (if existsb (fun p => negb (speedKind p)) picked
       then (timeSec s + SHIELD_DURATION)%f32
       else Player.shieldUntil (player s)) /\
    Player.shielded (player s')
    = existsb (fun p => negb (speedKind p)) picked
      || Player.shielded (player (expireShield s)).
Proof. exact (powerup_tick atan2f dt s). Qed.

Lemma X16_powerup_pickup_witness :
  exists s',
    updateGame libm0 (timerDt 1166 powerScene) (advance 1166 powerScene)
    = Some s' /\
    powerups s' = [] /\ Player.shielded (player s') = true /\
    Player.speedUntil (player s')
    = (timeSec (advance 1166 powerScene) + POWERUP_DURATION)%f32.
Proof.
  destruct (X16_powerup_pickup libm0 (timerDt 1166 powerScene)
              (advance 1166 powerScene) powerScene_liveTick)
    as (s' & Hu & Hp & Hsp & _ & Hsh).
  exists s'. split; [exact Hu|].
  split; [rewrite Hp; vm_compute; reflexivity|].
  split; [rewrite Hsh; vm_compute; reflexivity|].
  rewrite Hsp. vm_compute. reflexivity.
Defined.

(** X17: in a play-phase tick that reaches the movement step with the
    shield up and not yet expired, no life is lost and nextHitTime stays,
    whether the move is blocked or not, and the tick does not end in
    Lose. *)
Theorem X17_shield_protects (atan2f : float -> float -> float)
    (dt : float) (s : State) :
  liveTick s -> Player.shielded (player s) = true ->
  (timeSec s >? Player.shieldUntil (player s))%f32 = false ->
  exists s',
    updateGame atan2f dt s = Some s' /\
    Player.lives (player s') = Player.lives (player s) /\
    nextHitTime s' = nextHitTime s /\ phase s' <> PHASE_LOSE.
Proof. exact (shielded_tick atan2f dt s). Qed.

Lemma X17_shield_protects_witness :
  exists s',
    updateGame libm0 (timerDt 1249 powerScene2) (advance 1249 powerScene2)
    = Some s' /\
    Player.lives (player s') = Player.lives (player (advance 1249 powerScene2)) /\
    nextHitTime s' = nextHitTime (advance 1249 powerScene2) /\
    phase s' <> PHASE_LOSE.
Proof.
  apply (X17_shield_protects libm0).
  - exact powerScene2_liveTick.
  - vm_compute. reflexivity.
  - vm_compute. reflexivity.
Defined.

(** X18: each component of the velocity is +speed, -speed or exactly +0:
    +speed when only the keys of the positive direction are held (letter or
    arrow, which do not add up), -speed when only those of the negative
    direction are, and +0 when neither or both are; the speed is
    currentSpeed, and the two components are set independently. *)
Theorem X18_velocity_axes (s : State) :
  velocity s
  = (axisV (currentSpeed s) (keyD s || keyRight s) (keyA s || keyLeft s),
     axisV (currentSpeed s) (keyW s || keyUp s) (keyS s || keyDown s)).
Proof. exact (velocity_axes s). Qed.

(** X19: releasing a key undoes its press: for a letter other than r and
    R, and for every special key, a press followed by the release of the
    same key leaves the state a release alone would. *)
Theorem X19_release_undoes_press (key : ascii) (k x y x' y' : Z) (s : State) :
  key <> "r"%char -> key <> "R"%char ->
  KeyboardUp key x' y' (Keyboard key x y s) = KeyboardUp key x' y' s /\
  SpecialUp k x' y' (Special k x y s) = SpecialUp k x' y' s.
Proof.
  intros Hr HR. split.
  - unfold Keyboard, KeyboardUp, key_is.
    destruct (Ascii.eqb_spec key "r"%char); [contradiction|].
    destruct (Ascii.eqb_spec key "R"%char); [contradiction|].
    cbn [orb]. unfold set_wasd. cbn.
    destruct (Ascii.eqb key "w"), (Ascii.eqb key "a"), (Ascii.eqb key "s"),
             (Ascii.eqb key "d"); reflexivity.
  - unfold Special, SpecialUp, set_arrows. cbn.
    destruct (k =? GLUT_KEY_UP), (k =? GLUT_KEY_LEFT), (k =? GLUT_KEY_DOWN),
             (k =? GLUT_KEY_RIGHT); reflexivity.
Qed.

Lemma X19_release_undoes_press_witness :
  KeyboardUp "w"%char 0 0 (Keyboard "w"%char 0 0 restScene)
  = KeyboardUp "w"%char 0 0 restScene /\
  SpecialUp GLUT_KEY_UP 0 0 (Special GLUT_KEY_UP 0 0 restScene)
  = SpecialUp GLUT_KEY_UP 0 0 restScene.
Proof. apply X19_release_undoes_press; discriminate. Defined.

(** X20: outside the play phase a timer tick is always defined and moves
    only the clock and the target: timeSec grows by dt, lastMs is the clock
    reading, the target's parameter and direction are those updateTarget
    gives, as in the play phase, and the player, the three collections, the
    phase, timeLeft and nextHitTime stay. *)
Theorem X20_tick_outside_play (atan2f : float -> float -> float)
    (nowMs : Z) (s : State) :
  phase s <> PHASE_PLAY ->
  exists s',
    Timer atan2f nowMs s = Some s' /\
    player s' = player s /\ obstacles s' = obstacles s /\
    collectibles s' = collectibles s /\ powerups s' = powerups s /\
    phase s' = phase s /\ timeLeft s' = timeLeft s /\
    nextHitTime s' = nextHitTime s /\
    timeSec s' = (timeSec s + timerDt nowMs s)%f32 /\ lastMs s' = nowMs /\
    target s' = target (updateTarget (timerDt nowMs s) s).
Proof.
  intros Hne. exists (advance nowMs s). split.
  - unfold Timer. cbv zeta.
    destruct (advance_frame nowMs s) as (_ & _ & _ & _ & Hph & _). cbv zeta in Hph.
    destruct (Phase_eqb (phase (advance nowMs s)) PHASE_PLAY) eqn:E; [|reflexivity].
    apply Phase_eqb_eq in E. congruence.
  - destruct (advance_frame nowMs s)
      as (Ho & Hc & Hpu & Hpl & Hph & Htl & Hn & _ & _ & Hts & Hl & _).
    cbv zeta in *. repeat split; try assumption.
    unfold advance. cbv zeta.
    destruct (updateTarget_target (timerDt nowMs s) s) as (t1 & d1 & E1).
    match goal with
    | |- target (updateTarget ?dt ?s0) = _ =>
        pose proof (updateTarget_eq dt s0) as A;
        pose proof (updateTarget_eq dt s) as B
    end.
    cbv zeta in A, B. rewrite A, B. reflexivity.
Qed.

Lemma X20_tick_outside_play_witness :
  exists s',
    Timer libm0 1000 editScene = Some s' /\
    player s' = player editScene /\ obstacles s' = obstacles editScene /\
    collectibles s' = collectibles editScene /\ powerups s' = powerups editScene /\
    phase s' = phase editScene /\ timeLeft s' = timeLeft editScene /\
    nextHitTime s' = nextHitTime editScene /\
    timeSec s' = (timeSec editScene + timerDt 1000 editScene)%f32 /\
    lastMs s' = 1000 /\
    target s' = target (updateTarget (timerDt 1000 editScene) editScene).
Proof. apply X20_tick_outside_play. vm_compute. discriminate. Defined.

(** X21: a left click in the bottom panel only selects, in every phase:
    the mode becomes the kind of the first palette icon whose disc of
    radius 35 pixels (strictly) holds the click, the centres being (80, 60),
    (240, 60), (400, 60) and (560, 60), and None when no disc holds it;
    nothing else of the state changes.  On window pixels the float test is
    the exact integer one. *)
Theorem X21_palette_click (x y : Z) (s : State) :
  coord x -> coord (wrap32 (H - y)) -> wrap32 (H - y) <= BOT_H ->
  Mouse GLUT_LEFT_BUTTON GLUT_DOWN x y s
  = Some (set_placeMode
            (let gy := wrap32 (H - y) in
             if dist2Z x gy 80 60 <? 1225 then PLACE_OBS
             else if dist2Z x gy 240 60 <? 1225 then PLACE_COL
             else if dist2Z x gy 400 60 <? 1225 then PLACE_PU_SPEED
             else if dist2Z x gy 560 60 <? 1225 then PLACE_PU_SHIELD
             else PLACE_NONE) s).
Proof.
  intros Hx Hy Hle. unfold Mouse. cbn [Z.eqb GLUT_DOWN GLUT_LEFT_BUTTON negb orb].
  destruct (Z.leb_spec (wrap32 (H - y)) BOT_H); [|lia].
  rewrite (paletteMode_int _ _ Hx Hy). reflexivity.
Qed.

Lemma X21_palette_click_witness :
  Mouse GLUT_LEFT_BUTTON GLUT_DOWN 100 650 restScene
  = Some (set_placeMode
            (let gy := wrap32 (H - 650) in
             if dist2Z 100 gy 80 60 <? 1225 then PLACE_OBS
             else if dist2Z 100 gy 240 60 <? 1225 then PLACE_COL
             else if dist2Z 100 gy 400 60 <? 1225 then PLACE_PU_SPEED
             else if dist2Z 100 gy 560 60 <? 1225 then PLACE_PU_SHIELD
             else PLACE_NONE) restScene).
Proof.
  apply X21_palette_click.
  - unfold coord. lia.
  - vm_compute. split; discriminate.
  - vm_compute. discriminate.
Defined.

(** X22: in a play-phase tick that reaches the movement step and whose
    candidate position meets no obstacle, the player moves exactly to the
    candidate (position plus velocity times dt, clamped to the arena), and
    the lives and nextHitTime stay. *)
Theorem X22_free_move (atan2f : float -> float -> float)
    (dt : float) (s : State) :
  liveTick s -> tickBlocked dt s = false ->
  exists s',
    updateGame atan2f dt s = Some s' /\
    Player.x (player s') = fst (tickCandidate dt s) /\
    Player.y (player s') = snd (tickCandidate dt s) /\
    Player.lives (player s') = Player.lives (player s) /\
    nextHitTime s' = nextHitTime s.
Proof. exact (free_tick atan2f dt s). Qed.

Lemma X22_free_move_witness :
  exists s',
    updateGame libm0 (timerDt 1166 powerScene) (advance 1166 powerScene)
    = Some s' /\
    Player.x (player s')
    = fst (tickCandidate (timerDt 1166 powerScene) (advance 1166 powerScene)) /\
    Player.y (player s')
    = snd (tickCandidate (timerDt 1166 powerScene) (advance 1166 powerScene)) /\
    Player.lives (player s') = Player.lives (player (advance 1166 powerScene)) /\
    nextHitTime s' = nextHitTime (advance 1166 powerScene).
Proof.
  apply (X22_free_move libm0).
  - exact powerScene_liveTick.
  - vm_compute. reflexivity.
Defined.

(** X23: the phase a play-phase tick ends in, when it reaches the movement
    step in a state satisfying the invariant: Win if the player's circle,
    where the tick left it, overlaps the target's position; otherwise Lose
    if no life is left; otherwise Play. *)
Theorem X23_tick_outcome (atan2f : float -> float -> float)
    (dt : float) (s : State) :
  playTick s ->
  exists s' cur,
    updateGame atan2f dt s = Some s' /\ targetPos s = Some cur /\
    phase s'
    = (if intersectCircleCircle (Player.x (player s')) (Player.y (player s'))
            (Player.r (player s')) (of_int (fst cur)) (of_int (snd cur))
            (Target.r (target s'))
       then PHASE_WIN
       else if Player.lives (player s') =? 0 then PHASE_LOSE else PHASE_PLAY).
Proof. exact (tick_outcome atan2f dt s). Qed.

Lemma X23_tick_outcome_witness :
  exists s' cur,
    updateGame libm0 (timerDt 1110 hitScene) (advance 1110 hitScene) = Some s' /\
    targetPos (advance 1110 hitScene) = Some cur /\
    phase s'
    = (if intersectCircleCircle (Player.x (player s')) (Player.y (player s'))
            (Player.r (player s')) (of_int (fst cur)) (of_int (snd cur))
            (Target.r (target s'))
       then PHASE_WIN
       else if Player.lives (player s') =? 0 then PHASE_LOSE else PHASE_PLAY).
Proof.
  apply (X23_tick_outcome libm0). apply advance_playTick.
  - apply (reachable_invariant libm0), hitScene_reachable.
  - vm_compute. reflexivity.
  - exists 60. split; [vm_compute; reflexivity | lia].
  - exists (123, 558). vm_compute. reflexivity.
Defined.

(** X24: the time step Timer computes is a finite float whatever the two
    clock readings are, never a NaN or an infinity; and it is exactly +0
    when lastMs is 0, on the first tick and on any tick that follows a
    clock reading of 0. *)
Theorem X24_time_step (nowMs : Z) (s : State) :
  is_finite (timerDt nowMs s) = true /\
  (lastMs s = 0 -> timerDt nowMs s = zero).
Proof. split; [apply timerDt_finite | apply timerDt_first]. Qed.

(** X25: in every state the program reaches, the score is a non-negative
    multiple of 5, and with 5 points for each collectible still there it
    stays within 5 times the number of pixels of the game area, far below
    the largest int: the addition to the score never overflows. *)
Theorem X25_score_in_range (atan2f : float -> float -> float) (s : State) :
  reachable atan2f s ->
  0 <= Player.score (player s) /\ Player.score (player s) mod 5 = 0 /\
  Player.score (player s) + 5 * Z.of_nat (length (collectibles s))
  <= 5 * gridSize <= INT_MAX.
Proof.
  intros Hr. destruct (reachable_scored atan2f s Hr) as (k & Hk & Hs & Hb & _).
  rewrite Hs. split; [lia|]. split.
  - rewrite Z.mul_comm. apply Z.mod_mul. lia.
  - split; [lia | exact gridSize_int].
Qed.

Lemma X25_score_in_range_witness :
  0 <= Player.score (player collectScene) /\
  Player.score (player collectScene) mod 5 = 0 /\
  Player.score (player collectScene)
  + 5 * Z.of_nat (length (collectibles collectScene))
  <= 5 * gridSize <= INT_MAX.
Proof.
  apply (X25_score_in_range libm0).
  apply (run_reachable libm0
           [EvMouse 0 0 240 640; EvMouse 0 0 500 500;
            EvMouse 0 0 540 500; EvMouse 0 0 800 400;
            EvKeyboard "r"%char 0 0; EvKeyboard "w"%char 0 0;
            EvKeyboard "d"%char 0 0; EvTimer 1000; EvTimer 1083;
            EvKeyboardUp "d"%char 0 0]
           (initScene initial)); [apply reach_init | vm_compute; reflexivity].
Defined.

(** X26: in every state the program reaches, the HUD of drawPanels shows
    MAX_LIVES hearts of which exactly the lives left are red, the leftmost
    ones, and the others dim. *)
Theorem X26_hud_hearts (atan2f : float -> float -> float) (s : State) :
  reachable atan2f s ->
  map Heart.full (hearts s)
  = repeat true (Z.to_nat (Player.lives (player s)))
    ++ repeat false (Z.to_nat (MAX_LIVES - Player.lives (player s))).
Proof.
  intros Hr. apply hearts_of_lives.
  destruct (reachable_sound atan2f s Hr) as (_ & _ & _ & Hl & _). exact Hl.
Qed.

Lemma X26_hud_hearts_witness :
  map Heart.full (hearts hitScene2)
  = repeat true (Z.to_nat (Player.lives (player hitScene2)))
    ++ repeat false (Z.to_nat (MAX_LIVES - Player.lives (player hitScene2))).
Proof. apply (X26_hud_hearts libm0), hitScene2_reachable. Defined.

(** X27: a left click on a palette icon selects what the icon shows.  For
    each of the four icons drawPanels draws in the bottom panel, a click at
    a window pixel within the icon's radius of its centre makes the hint
    drawPanels prints read Place: followed by the icon's label, and makes
    the object a placement click creates one of the icon's type. *)
Theorem X27_icon_click (ic : Obj.t) (label : string) (x y : Z) (s : State) :
  In (ic, label) paletteIcons ->
  0 <= x <= W -> 0 <= y <= H ->
  (dist2 (of_int x) (of_int (H - y)) (Obj.x ic) (Obj.y ic)
   <=? Obj.r ic * Obj.r ic)%f32 = true ->
  exists s',
    Mouse GLUT_LEFT_BUTTON GLUT_DOWN x y s = Some s' /\
    modeHint s' = ("Place: " ++ label)%string /\
    forall x2 y2 : Z,
      option_map Obj.type (placedObj (placeMode s') x2 y2) = Some (Obj.type ic).
Proof. exact (icon_selects ic label x y s). Qed.

Lemma X27_icon_click_witness :
  exists s',
    Mouse GLUT_LEFT_BUTTON GLUT_DOWN 410 648 restScene = Some s' /\
    modeHint s' = "Place: Speed PU"%string /\
    forall x2 y2 : Z,
      option_map Obj.type (placedObj (placeMode s') x2 y2) = Some OBJ_PU_SPEED.
Proof.
  apply (X27_icon_click
           (Obj.mk (of_int 400) (of_int BOT_H * lit 1 2)%f32 (of_int 16) OBJ_PU_SPEED)
           "Speed PU" 410 648 restScene).
  - right. right. left. reflexivity.
  - unfold W. lia.
  - unfold H. lia.
  - vm_compute. reflexivity.
Defined.

(** X28: in every state the program reaches, the position of the target
    that Display draws, that overlapsAny keeps clear and that updateGame
    tests for the win is defined: the two float-to-int casts of
    bezierPoint are in range, and neither coordinate is negative. *)
Theorem X28_target_position_defined (atan2f : float -> float -> float)
    (s : State) :
  reachable atan2f s ->
  exists cur, targetPos s = Some cur /\ 0 <= fst cur /\ 0 <= snd cur.
Proof.
  intros Hr.
  destruct (reachable_sound atan2f s Hr)
    as ((Ht & _) & ((X0 & Y0) & (X1 & Y1) & (X2 & Y2) & (X3 & Y3)) & _).
  destruct (bezierPoint_defined _ _ _ _ _ Ht X0 Y0 X1 Y1 X2 Y2 X3 Y3)
    as (cur & E & Hx & Hy).
  exists cur. split; [exact E | lia].
Qed.

Lemma X28_target_position_defined_witness :
  exists cur, targetPos hitScene = Some cur /\ 0 <= fst cur /\ 0 <= snd cur.
Proof. apply (X28_target_position_defined libm0), hitScene_reachable. Defined.

(** X29: the offset of the moving stripes stays in range for ever: after
    any number of calls of drawPanels, bgShift is a binary32 value with
    0 <= bgShift <= 20, never a NaN or an infinity, although it grows by
    the inexact 0.2f at every frame. *)
Theorem X29_stripes_offset (n : nat) :
  let b := Nat.iter n drawPanels_bgShift zero in
  is_finite b = true /\ (zero <=? b)%f32 = true /\ (b <=? of_int 20)%f32 = true.
Proof.
  cbv zeta. pose proof (bgShift_stripe n) as Hs.
  split; [|exact (stripe_range _ Hs)].
  destruct Hs as [Hb _].
  destruct (Nat.iter n drawPanels_bgShift zero) as [s|s| |[|] m e];
    cbn [below] in Hb; try contradiction; reflexivity.
Qed.
